(** * Word-frequency analyzer: a shallow embedding of
      [optimized_linked_list_analyzer.py] and its specification.

    The Python class [OptimizedWordFrequencyAnalyzer] keeps
    - [word_counts], a [Counter] (an insertion-ordered dictionary, absent keys
      read as 0),
    - a doubly linked list of [TopFiveNode]s ([top_five_head] .. [top_five_tail]),
    - a doubly linked list of [FrequencyCountNode]s ([freq_head] .. [freq_tail]),
    - [total_words].

    Representation choices of this development:
    - a Python [str] is a [string] whose characters are the code points below
      256; [isspace] and [lower_char] are Python's tables on that range;
    - Python integers are [Z];
    - a dictionary is an association list in insertion order, with at most one
      binding per key;
    - a linked list is the list of its nodes read from the head along [next];
      the tail pointer is the last element;
    - a Python [set] is the duplicate-free list of its elements in insertion
      order; the order in which Python iterates over it depends on the hashes
      and is the section variable [set_iter];
    - a Python [float] is the rational it denotes, in lowest terms;
      [binary64] rounds a rational to the nearest float as [float(n)] and
      [a / b] do, and [None] stands for [OverflowError]. *)

From Stdlib Require Import List ZArith Lia Bool Ascii String.
From Stdlib Require Import Permutation Sorted QArith OrderedTypeEx.
Import ListNotations.

Local Open Scope Z_scope.
Local Open Scope list_scope.

(** ** Strings: [split], [strip], [lower] *)

Module Str.

(** [str.isspace] on a single character below 256. *)
Definition isspace (c : ascii) : bool :=
  let n := N_of_ascii c in
  ((9 <=? n) && (n <=? 13) || (28 <=? n) && (n <=? 32)
   || (n =? 133) || (n =? 160))%N.

(** [str.lower] on a single character below 256. *)
Definition lower_char (c : ascii) : ascii :=
  let n := N_of_ascii c in
  if ((65 <=? n) && (n <=? 90)
      || (192 <=? n) && (n <=? 222) && negb (n =? 215))%N
  then ascii_of_N (n + 32) else c.

Fixpoint lower (s : string) : string :=
  match s with
  | EmptyString => EmptyString
  | String c s' => String (lower_char c) (lower s')
  end.

Fixpoint lstrip (s : string) : string :=
  match s with
  | EmptyString => EmptyString
  | String c s' => if isspace c then lstrip s' else s
  end.

Fixpoint rstrip (s : string) : string :=
  match s with
  | EmptyString => EmptyString
  | String c s' =>
      match rstrip s' with
      | EmptyString => if isspace c then EmptyString else String c EmptyString
      | r => String c r
      end
  end.

(** [s.strip()] *)
Definition strip (s : string) : string := rstrip (lstrip s).

Definition is_comma (c : ascii) : bool := Ascii.eqb c ","%char.

(** [s.split(',')]: never empty, [''.split(',') = ['']]. *)
Fixpoint split (s : string) : list string :=
  match s with
  | EmptyString => [EmptyString]
  | String c s' =>
      if is_comma c then EmptyString :: split s'
      else match split s' with
           | piece :: pieces => String c piece :: pieces
           | [] => [String c EmptyString]
           end
  end.

(** Truth value of a string: non-empty. *)
Definition truthy (s : string) : bool :=
  match s with EmptyString => false | String _ _ => true end.

End Str.

Arguments Str.isspace : simpl never.
Arguments Str.lower_char : simpl never.
Arguments Str.is_comma : simpl never.

(** ** Dictionaries in insertion order *)

Section Dict.
Context {K V : Type}.
Variable eqb : K -> K -> bool.

Definition dict := list (K * V).

Fixpoint dict_lookup (d : dict) (k : K) : option V :=
  match d with
  | [] => None
  | (k', v) :: d' => if eqb k' k then Some v else dict_lookup d' k
  end.

(** [d.get(k, default)] *)
Definition dict_get (d : dict) (k : K) (default : V) : V :=
  match dict_lookup d k with Some v => v | None => default end.

(** [d[k] = v]: an existing key keeps its position, a new key goes last. *)
Fixpoint dict_set (d : dict) (k : K) (v : V) : dict :=
  match d with
  | [] => [(k, v)]
  | (k', v') :: d' =>
      if eqb k' k then (k', v) :: d' else (k', v') :: dict_set d' k v
  end.
End Dict.

Arguments dict : clear implicits.

(** [set.add]: the elements in insertion order. *)
Definition set_add (w : string) (s : list string) : list string :=
  if existsb (String.eqb w) s then s else s ++ [w].

(** ** Sorting

    [list.sort] is stable and uses only [<] on the keys; a stable insertion
    sort returns the same list. *)

Section Sort.
Context {A : Type}.
Variable lt : A -> A -> bool.

Fixpoint insert_sorted (x : A) (l : list A) : list A :=
  match l with
  | [] => [x]
  | y :: l' => if lt y x then y :: insert_sorted x l' else x :: y :: l'
  end.

Definition sort (l : list A) : list A := fold_right insert_sorted [] l.

(** [a] may stand before [b] in a sorted list: [b < a] fails. *)
Definition not_after (a b : A) : Prop := lt b a = false.
End Sort.

(** The key [(-x[1], x[0])] of an item [(word, frequency)], compared as Python
    compares tuples. *)
Definition key_lt (a b : string * Z) : bool :=
  (- snd a <? - snd b) || ((- snd a =? - snd b) && String.ltb (fst a) (fst b)).

(** ** The analyzer *)

Record FrequencyCountNode := mkNode { frequency : Z; count : Z }.

Record Analyzer := mkAnalyzer {
  word_counts : dict string Z;
  top_five : list (string * Z);
  freq_list : list FrequencyCountNode;
  total_words : Z
}.

(** [__init__] *)
Definition init : Analyzer := mkAnalyzer [] [] [] 0.

(** Which branch of [_update_top_five_incremental] ran. *)
Inductive path := FullRebuild | Incremental.

(** [Counter.__getitem__]: a missing key reads as 0 and is not inserted. *)
Definition counter_get (c : dict string Z) (w : string) : Z :=
  dict_get String.eqb c w 0.

(** *** The frequency count list *)

(** [_find_frequency_node]: the position of the first node holding
    [frequency]. *)
Fixpoint _find_frequency_node (fq : Z) (l : list FrequencyCountNode)
  : option nat :=
  match l with
  | [] => None
  | current :: rest =>
      if frequency current =? fq then Some O
      else option_map S (_find_frequency_node fq rest)
  end.

(** The walk of [_insert_frequency_node] from [current]. *)
Fixpoint insert_walk (new_node : FrequencyCountNode)
  (l : list FrequencyCountNode) : list FrequencyCountNode :=
  match l with
  | [] => [new_node]
  | current :: rest =>
      if frequency current >? frequency new_node
      then current :: insert_walk new_node rest
      else new_node :: current :: rest
  end.

Definition _insert_frequency_node (fq cnt : Z) (l : list FrequencyCountNode)
  : list FrequencyCountNode :=
  let new_node := mkNode fq cnt in
  match l with
  | [] => [new_node]
  | _ => insert_walk new_node l
  end.

(** [_remove_frequency_node]: unlink the node at position [i]. *)
Fixpoint _remove_frequency_node (i : nat) (l : list FrequencyCountNode)
  : list FrequencyCountNode :=
  match l, i with
  | [], _ => []
  | _ :: rest, O => rest
  | n :: rest, S i' => n :: _remove_frequency_node i' rest
  end.

(** [node.count += change] for the node at position [i]. *)
Fixpoint add_to_count (i : nat) (change : Z) (l : list FrequencyCountNode)
  : list FrequencyCountNode :=
  match l, i with
  | [], _ => []
  | n :: rest, O => mkNode (frequency n) (count n + change) :: rest
  | n :: rest, S i' => n :: add_to_count i' change rest
  end.

(** One iteration of the loop of [_update_frequency_counts]. *)
Definition update_frequency_count (l : list FrequencyCountNode)
  (item : Z * Z) : list FrequencyCountNode :=
  let (fq, change) := item in
  if change =? 0 then l
  else match _find_frequency_node fq l with
       | Some i =>
           let l := add_to_count i change l in
           match nth_error l i with
           | Some node =>
               if count node <=? 0 then _remove_frequency_node i l else l
           | None => l
           end
       | None =>
           if change >? 0 then _insert_frequency_node fq change l else l
       end.

Definition _update_frequency_counts (changes : dict Z Z)
  (l : list FrequencyCountNode) : list FrequencyCountNode :=
  fold_left update_frequency_count changes l.

(** *** The top 5 list *)

Definition _should_be_in_top5 (word : string) (freq : Z)
  (current_top5 : list (string * Z)) : bool :=
  if (List.length current_top5 <? 5)%nat then true
  else match nth_error current_top5 4 with
       | Some (w5, f5) =>
           if freq >? f5 then true
           else if (freq =? f5) && String.ltb word w5 then true
           else false
       | None => false
       end.

Definition _insert_or_update_in_top5 (word : string) (freq : Z)
  (current_top5 : list (string * Z)) : list (string * Z) :=
  let current_top5 :=
    filter (fun x => negb (String.eqb (fst x) word)) current_top5 in
  let current_top5 := current_top5 ++ [(word, freq)] in
  let current_top5 := sort key_lt current_top5 in
  firstn 5 current_top5.

(** [_build_initial_top5] *)
Definition _build_initial_top5 (self : Analyzer) : list (string * Z) :=
  firstn 5 (sort key_lt (word_counts self)).

(** One iteration of the loop of [_update_top_five_incremental]. *)
Definition reconcile_word (self : Analyzer) (current_top5 : list (string * Z))
  (word : string) : list (string * Z) :=
  let freq := counter_get (word_counts self) word in
  if _should_be_in_top5 word freq current_top5
  then _insert_or_update_in_top5 word freq current_top5
  else current_top5.

(** The loop of [_update_top_five_incremental] over the changed words. *)
Definition reconcile (self : Analyzer) (changed_words : list string)
  (current_top5 : list (string * Z)) : list (string * Z) :=
  fold_left (reconcile_word self) changed_words current_top5.

Definition set_top_five (self : Analyzer) (l : list (string * Z)) : Analyzer :=
  mkAnalyzer (word_counts self) l (freq_list self) (total_words self).

Definition _update_top_five_incremental (changed_words : list string)
  (self : Analyzer) : Analyzer * path :=
  match top_five self with
  | [] => (set_top_five self (_build_initial_top5 self), FullRebuild)
  | current_top5 =>
      (set_top_five self (reconcile self changed_words current_top5),
       Incremental)
  end.

(** *** [add_words] *)

(** The list comprehension at the head of [add_words]. *)
Definition tokens (words_string : string) : list string :=
  map (fun word => Str.lower (Str.strip word))
      (filter (fun word => Str.truthy (Str.strip word))
              (Str.split words_string)).

(** The local state of the counting loop. *)
Record Tally := mkTally {
  t_counts : dict string Z;
  t_changes : dict Z Z;
  t_changed : list string;
  t_total : Z
}.

(** One iteration of the counting loop. *)
Definition count_word (t : Tally) (word : string) : Tally :=
  let old_count := counter_get (t_counts t) word in
  let counts := dict_set String.eqb (t_counts t) word (old_count + 1) in
  let new_count := counter_get counts word in
  let changes :=
    if old_count >? 0
    then dict_set Z.eqb (t_changes t) old_count
           (dict_get Z.eqb (t_changes t) old_count 0 - 1)
    else t_changes t in
  let changes :=
    dict_set Z.eqb changes new_count (dict_get Z.eqb changes new_count 0 + 1) in
  let changed :=
    if negb (old_count =? new_count) then set_add word (t_changed t)
    else t_changed t in
  mkTally counts changes changed (t_total t + 1).

Definition tally (self : Analyzer) (words : list string) : Tally :=
  fold_left count_word words
    (mkTally (word_counts self) [] [] (total_words self)).

Section Run.
(** The order in which Python iterates over a set built by inserting the
    given elements in the given order. *)
Variable set_iter : list string -> list string.
Hypothesis set_iter_perm : forall l, Permutation (set_iter l) l.

(** [add_words], together with the branch of the top 5 update it ran
    ([None] when [_update_top_five_incremental] was not called). *)
Definition add_words_traced (words_string : string) (self : Analyzer)
  : Analyzer * option path :=
  match tokens words_string with
  | [] => (self, None)
  | words =>
      let t := tally self words in
      let self :=
        mkAnalyzer (t_counts t) (top_five self)
          (_update_frequency_counts (t_changes t) (freq_list self))
          (t_total t) in
      match t_changed t with
      | [] => (self, None)
      | changed_words =>
          let (self, p) :=
            _update_top_five_incremental (set_iter changed_words) self in
          (self, Some p)
      end
  end.

Definition add_words (words_string : string) (self : Analyzer) : Analyzer :=
  fst (add_words_traced words_string self).

(** [clear] *)
Definition clear (self : Analyzer) : Analyzer := mkAnalyzer [] [] [] 0.

(** *** Queries *)

Definition get_top_five_most_frequent (self : Analyzer)
  : list (string * Z) := top_five self.

Definition get_lowest_frequency (self : Analyzer) : Z :=
  match freq_list self with
  | [] => 0
  | n :: rest => frequency (last rest n)
  end.

(** The IEEE 754 binary64 number nearest to the rational [q], a tie going to
    the even significand: the result of [float(n)] for an integer [n] and of
    [a / b] for integers [a] and [b], which Python rounds correctly.  With
    [2^e <= |q| < 2^(e+1)] the floats around [q] are the multiples of [2^u],
    [u = e - 52] (53 significant bits) and at least [-1074] (the subnormal
    spacing); [m] is the multiple nearest to [|q|].  [None] is Python's
    [OverflowError]: the nearest float would be [2^1024] or beyond. *)
Definition binary64 (q : Q) : option Q :=
  let a := Z.abs (Qnum q) in
  let d := Zpos (Qden q) in
  if a =? 0 then Some 0%Q
  else
    let e0 := Z.log2 a - Z.log2 d in
    let e :=
      if a * 2 ^ Z.max 0 (- e0) <? d * 2 ^ Z.max 0 e0 then e0 - 1 else e0 in
    let u := Z.max (e - 52) (-1074) in
    let num := a * 2 ^ Z.max 0 (- u) in
    let den := d * 2 ^ Z.max 0 u in
    let qt := num / den in
    let r := num mod den in
    let m :=
      if (2 * r >? den) || (2 * r =? den) && Z.odd qt then qt + 1 else qt in
    if Z.log2 m + u >=? 1024 then None
    else Some (Qred (Z.sgn (Qnum q) * m * 2 ^ Z.max 0 u
                     # Z.to_pos (2 ^ Z.max 0 (- u)))).

(** [get_median_frequency]: [0.0] without words, otherwise
    [(a + b) / 2] or [float(a)] on the sorted counts. *)
Definition get_median_frequency (self : Analyzer) : option Q :=
  match word_counts self with
  | [] => Some 0%Q
  | _ =>
      let frequency_values := sort Z.ltb (map snd (word_counts self)) in
      let n := List.length frequency_values in
      if (n mod 2 =? 0)%nat
      then
        let below := nth (n / 2 - 1) frequency_values 0 in
        let above := nth (n / 2) frequency_values 0 in
        binary64 (inject_Z (below + above) / 2)
      else binary64 (inject_Z (nth (n / 2) frequency_values 0))
  end.

Definition get_all_frequencies (self : Analyzer) : dict string Z :=
  word_counts self.

Definition get_frequency_counts (self : Analyzer) : list (Z * Z) :=
  map (fun n => (frequency n, count n)) (freq_list self).

(** *** Runs *)

Inductive op := AddWords (words_string : string) | Clear.

Definition step (self : Analyzer) (o : op) : Analyzer :=
  match o with
  | AddWords s => add_words s self
  | Clear => clear self
  end.

Definition run_from (self : Analyzer) (ops : list op) : Analyzer :=
  fold_left step ops self.

Definition run (ops : list op) : Analyzer := run_from init ops.

End Run.

(** ** Specification-side definitions *)

(** Tokenization as the specification words it: split on commas, trim each
    piece, case-fold it, discard the empty results. *)
Definition spec_tokens (raw_text : string) : list string :=
  filter Str.truthy
    (map (fun piece => Str.lower (Str.strip piece)) (Str.split raw_text)).

Fixpoint all_chars (p : ascii -> bool) (s : string) : bool :=
  match s with
  | EmptyString => true
  | String c s' => p c && all_chars p s'
  end.

(** The input is made of whitespace only (the empty input included). *)
Definition whitespace_only (s : string) : bool := all_chars Str.isspace s.

(** Every comma-separated field of the input is empty once trimmed. *)
Definition only_empty_fields (s : string) : bool :=
  forallb (fun piece => negb (Str.truthy (Str.strip piece))) (Str.split s).

Definition no_comma (s : string) : bool :=
  all_chars (fun c => negb (Str.is_comma c)) s.

(** The pieces of one batch, each trimmed and case-folded. *)
Definition normalized_pieces (raw_text : string) : list string :=
  map (fun piece => Str.lower (Str.strip piece)) (Str.split raw_text).

(** The batches ingested since construction or the last reset, oldest
    first. *)
Definition batches_since_reset (ops : list op) : list string :=
  fold_left
    (fun acc o => match o with AddWords s => acc ++ [s] | Clear => [] end)
    ops [].

(** How often [w] occurs among the normalized pieces of those batches. *)
Definition occurrences (w : string) (ops : list op) : Z :=
  Z.of_nat
    (count_occ string_dec
       (flat_map normalized_pieces (batches_since_reset ops)) w).

(** A dictionary holds the key [w] with a positive value [n], or it does not
    hold [w] and [n] is 0. *)
Definition holds (n : Z) : option Z := if n =? 0 then None else Some n.

(** The increment [word_counts[word] += 1] on a [Counter]. *)
Definition increment (c : dict string Z) (word : string) : dict string Z :=
  dict_set String.eqb c word (counter_get c word + 1).

(** *** The median *)

(** The statistical median of values listed in ascending order: nothing
    gives 0, an odd number of values gives the central one, an even number
    gives the average of the two central ones. *)
Definition statistical_median (ascending : list Z) : Q :=
  let n := List.length ascending in
  let half := Nat.div2 n in
  match n with
  | O => 0%Q
  | _ =>
      if Nat.even n
      then
        let left := nth (Nat.pred half) ascending 0 in
        let right := nth half ascending 0 in
        (inject_Z (left + right) / 2)%Q
      else inject_Z (nth half ascending 0)
  end.

(** *** The top 5 list against the word counts *)

(** [a] sorts strictly before [b] under the key [(-frequency, word)]. *)
Definition outranks (a b : string * Z) : Prop := key_lt a b = true.

(** [L] is the top 5 of the items that satisfy [V]: it is strictly sorted,
    all its items satisfy [V], it has at most 5 items, and an item of [V]
    left out of it is outranked by each of the 5 items it then holds. *)
Record is_top5 (V : string * Z -> Prop) (L : list (string * Z)) : Prop := {
  top5_sorted : StronglySorted outranks L;
  top5_sound : forall e, In e L -> V e;
  top5_length : (List.length L <= 5)%nat;
  top5_complete :
    forall e, V e -> ~ In e L ->
      List.length L = 5%nat /\ forall e', In e' L -> outranks e' e
}.

(** At most one item per word. *)
Definition functional (V : string * Z -> Prop) : Prop :=
  forall a b, V a -> V b -> fst a = fst b -> a = b.

(** The items of [V] once the word [w] holds [f]. *)
Definition with_item (V : string * Z -> Prop) (w : string) (f : Z)
  : string * Z -> Prop :=
  fun e => e = (w, f) \/ (fst e <> w /\ V e).

(** The items seen by the loop of the incremental update once it has dealt
    with the words [done]: these words hold their new counts, the others the
    counts they had before the batch. *)
Definition mixed (wc wc' : dict string Z) (done : list string)
  : string * Z -> Prop :=
  fun e => (In (fst e) done /\ In e wc') \/ (~ In (fst e) done /\ In e wc).

(** The top 5 list is the top 5 of the word counts. *)
Definition top_inv (self : Analyzer) : Prop :=
  is_top5 (fun e => In e (word_counts self)) (top_five self).

(** The brute-force answer: sort the whole vocabulary, keep the first 5. *)
Definition full_rebuild (wc : dict string Z) : list (string * Z) :=
  firstn 5 (sort key_lt wc).

(** *** The frequency count list against the word counts *)

Definition indicator (b : bool) : Z := if b then 1 else 0.

(** The number of distinct words whose count is [f]. *)
Definition words_with (wc : dict string Z) (f : Z) : Z :=
  Z.of_nat (List.length (filter (fun e => snd e =? f) wc)).

(** The count of the node [_find_frequency_node] finds for [f], 0 when it
    finds none. *)
Definition node_count (l : list FrequencyCountNode) (f : Z) : Z :=
  match find (fun n => frequency n =? f) l with
  | Some n => count n
  | None => 0
  end.

(** Strictly descending frequencies from head to tail. *)
Definition descending (l : list FrequencyCountNode) : Prop :=
  StronglySorted (fun a b => frequency a > frequency b) l.

Definition positive_counts (l : list FrequencyCountNode) : Prop :=
  forall n, In n l -> 0 < count n.

Definition zsum (l : list Z) : Z := fold_right Z.add 0 l.

(** What [update_frequency_count] does to a list that holds a node for
    [fq]. *)
Fixpoint bump (fq change : Z) (l : list FrequencyCountNode)
  : list FrequencyCountNode :=
  match l with
  | [] => []
  | n :: rest =>
      if frequency n =? fq
      then if count n + change <=? 0 then rest
           else mkNode (frequency n) (count n + change) :: rest
      else n :: bump fq change rest
  end.

(** The invariant of the counting loop of [add_words], started on the word
    counts [wc0]: the delta recorded for a frequency is the change in the
    number of words holding it. *)
Record tally_inv (wc0 : dict string Z) (t : Tally) : Prop := {
  tally_values : forall e, In e (t_counts t) -> 1 <= snd e;
  tally_keys : NoDup (map fst (t_counts t));
  tally_change_keys : NoDup (map fst (t_changes t));
  tally_changes :
    forall f, dict_get Z.eqb (t_changes t) f 0
              = words_with (t_counts t) f - words_with wc0 f
}.

(** The invariant tying the frequency count list to the word counts. *)
Record hist_inv (self : Analyzer) : Prop := {
  hist_descending : descending (freq_list self);
  hist_positive : positive_counts (freq_list self);
  hist_keys : NoDup (map fst (word_counts self));
  hist_values : forall e, In e (word_counts self) -> 1 <= snd e;
  hist_counts :
    forall f, node_count (freq_list self) f = words_with (word_counts self) f
}.

(** *** The branch of the top 5 update taken by each operation *)

(** The branch taken by each operation of a run, in order; a [clear] and a
    batch that never reaches [_update_top_five_incremental] give [None]. *)
Fixpoint trace_from (set_iter : list string -> list string)
  (self : Analyzer) (ops : list op) : list (option path) :=
  match ops with
  | [] => []
  | AddWords s :: ops' =>
      let (self', p) := add_words_traced set_iter s self in
      p :: trace_from set_iter self' ops'
  | Clear :: ops' => None :: trace_from set_iter (clear self) ops'
  end.

Definition trace (set_iter : list string -> list string) (ops : list op)
  : list (option path) := trace_from set_iter init ops.

Definition is_full_rebuild (p : option path) : bool :=
  match p with Some FullRebuild => true | _ => false end.

(** How many times [_build_initial_top5] ran. *)
Definition rebuild_count (set_iter : list string -> list string)
  (ops : list op) : nat :=
  List.length (filter is_full_rebuild (trace set_iter ops)).

Definition is_clear (o : op) : bool :=
  match o with Clear => true | AddWords _ => false end.

Definition resets (ops : list op) : nat := List.length (filter is_clear ops).

(** The claim that the full rebuild runs at most once in a run. *)
Definition at_most_one_rebuild (set_iter : list string -> list string)
  (ops : list op) : Prop := (rebuild_count set_iter ops <= 1)%nat.

(** The branches a run is expected to take: a batch without tokens takes
    none; the first batch with tokens after construction or after
    a reset takes the full rebuild; every other batch with tokens is
    incremental. [populated] tells whether a batch with tokens was ingested
    since construction or the last reset. *)
Fixpoint expected_trace (populated : bool) (ops : list op)
  : list (option path) :=
  match ops with
  | [] => []
  | Clear :: ops' => None :: expected_trace false ops'
  | AddWords s :: ops' =>
      match spec_tokens s with
      | [] => None :: expected_trace populated ops'
      | _ =>
          Some (if populated then Incremental else FullRebuild)
          :: expected_trace true ops'
      end
  end.

(** *** Further code: the count the front end reports, the brute-force
    histogram *)

(** The number the interactive front end prints after a batch:
    [len([word for word in user_input.split(',') if word.strip()])]. *)
Definition reported_word_count (user_input : string) : nat :=
  List.length
    (filter (fun word => Str.truthy (Str.strip word)) (Str.split user_input)).

(** The frequencies held by words, each once, highest first. *)
Definition distinct_frequencies (wc : dict string Z) : list Z :=
  sort Z.gtb (nodup Z.eq_dec (map snd wc)).

(** The histogram recomputed from the word counts alone. *)
Definition brute_histogram (wc : dict string Z) : list (Z * Z) :=
  map (fun f => (f, words_with wc f)) (distinct_frequencies wc).

(** The state recomputed from the word counts alone: the top 5 by a full
    rebuild, the histogram by a brute-force pass, the total by a sum. *)
Definition state_of_counts (wc : dict string Z) : Analyzer :=
  mkAnalyzer wc (full_rebuild wc)
    (map (fun f => mkNode f (words_with wc f)) (distinct_frequencies wc))
    (zsum (map snd wc)).

(** All the tokens ingested since construction or the last [clear], in
    order. *)
Definition tokens_since_reset (ops : list op) : list string :=
  flat_map tokens (batches_since_reset ops).

(** [", ".join(batch)], as the performance test builds its batches. *)
Definition join_words (batch : list string) : string :=
  String.concat ", " batch.



(** *** Further code: the linked lists as the source builds them

    The node objects live in a store, a list of cells addressed by position;
    a new object takes the next free position, and an object no list reaches
    any more simply stays where it is.  [next] and [prev] are addresses or
    [None].  A loop [while current:] is run with fuel; an operation gives
    [None] when the fuel runs out or when it would follow a reference that
    is [None] or dangling (where Python raises). *)

Module Ptr.

Section Cells.
Context {P : Type}.

(** A node object: its data, [next] and [prev]. *)
Record cell := mkCell { payload : P; next : option nat; prev : option nat }.

Definition store := list cell.

(** A linked list object: the store, [head] and [tail]. *)
Record llist := mkList { cells : store; head : option nat; tail : option nat }.

Fixpoint update (a : nat) (f : cell -> cell) (h : store) : store :=
  match h, a with
  | [], _ => []
  | c :: h', O => f c :: h'
  | c :: h', S a' => c :: update a' f h'
  end.

Definition set_next (v : option nat) (c : cell) : cell :=
  mkCell (payload c) v (prev c).

Definition set_prev (v : option nat) (c : cell) : cell :=
  mkCell (payload c) (next c) v.

Definition set_payload (x : P) (c : cell) : cell :=
  mkCell x (next c) (prev c).

(** The body of the loop of [_rebuild_top5_linked_list], and the tail branch
    of [_insert_frequency_node]: link a new node after the tail. *)
Definition append_node (l : llist) (x : P) : option llist :=
  let new_node := List.length (cells l) in
  let h := cells l ++ [mkCell x None None] in
  match head l with
  | None => Some (mkList h (Some new_node) (Some new_node))
  | Some _ =>
      match tail l with
      | None => None
      | Some t =>
          let h := update t (set_next (Some new_node)) h in
          let h := update new_node (set_prev (Some t)) h in
          Some (mkList h (head l) (Some new_node))
      end
  end.

(** [_rebuild_top5_linked_list]: forget the old list, append every item. *)
Definition rebuild (h : store) (items : list P) : option llist :=
  fold_left
    (fun st x => match st with Some l => append_node l x | None => None end)
    items (Some (mkList h None None)).

(** The loop of [get_top_five_most_frequent], [_get_current_top5_list] and
    [get_frequency_counts]: follow [next] from [current]. *)
Fixpoint walk (fuel : nat) (h : store) (current : option nat)
  : option (list P) :=
  match current with
  | None => Some []
  | Some a =>
      match fuel with
      | O => None
      | S fuel' =>
          match nth_error h a with
          | None => None
          | Some c => option_map (cons (payload c)) (walk fuel' h (next c))
          end
      end
  end.

(** The same walk from the tail along [prev]. *)
Fixpoint walk_back (fuel : nat) (h : store) (current : option nat)
  : option (list P) :=
  match current with
  | None => Some []
  | Some a =>
      match fuel with
      | O => None
      | S fuel' =>
          match nth_error h a with
          | None => None
          | Some c => option_map (cons (payload c)) (walk_back fuel' h (prev c))
          end
      end
  end.

(** [_remove_frequency_node]: unlink the node at address [node]. *)
Definition remove_node (l : llist) (node : nat) : option llist :=
  match nth_error (cells l) node with
  | None => None
  | Some c =>
      let '(h, hd) :=
        match prev c with
        | Some p => (update p (set_next (next c)) (cells l), head l)
        | None => (cells l, next c)
        end in
      let '(h, tl) :=
        match next c with
        | Some n => (update n (set_prev (prev c)) h, tail l)
        | None => (h, prev c)
        end in
      Some (mkList h hd tl)
  end.

(** The else branch of [_insert_frequency_node]: link the node at address
    [new_node] before the node at address [current]. *)
Definition link_before (l : llist) (new_node current : nat) : option llist :=
  match nth_error (cells l) current with
  | None => None
  | Some c =>
      let h := update new_node (set_next (Some current)) (cells l) in
      let h := update new_node (set_prev (prev c)) h in
      let '(h, hd) :=
        match prev c with
        | Some p => (update p (set_next (Some new_node)) h, head l)
        | None => (h, Some new_node)
        end in
      let h := update current (set_prev (Some new_node)) h in
      Some (mkList h hd (tail l))
  end.

(** The element of [addrs] that follows, or [after] when there is none. *)
Definition first_or (addrs : list nat) (after : option nat) : option nat :=
  match addrs with a :: _ => Some a | [] => after end.

(** The cells at the addresses [addrs] hold [vals] and are linked to one
    another in that order, the first one back to [before] and the last one on
    to [after]. *)
Fixpoint chain (h : store) (before : option nat) (addrs : list nat)
  (vals : list P) (after : option nat) : Prop :=
  match addrs, vals with
  | [], [] => True
  | a :: addrs', v :: vals' =>
      nth_error h a = Some (mkCell v (first_or addrs' after) before)
      /\ chain h (Some a) addrs' vals' after
  | _, _ => False
  end.

(** The list object [l] is a well-formed doubly linked list of the nodes at
    [addrs], which hold [vals]. *)
Record linked (l : llist) (addrs : list nat) (vals : list P) : Prop := {
  linked_distinct : NoDup addrs;
  linked_head : head l = hd_error addrs;
  linked_tail : tail l = hd_error (rev addrs);
  linked_chain : chain (cells l) None addrs vals None
}.
End Cells.

Arguments cell : clear implicits.
Arguments store : clear implicits.
Arguments llist : clear implicits.

(** **** The frequency count list *)

(** [_find_frequency_node]: the address of the first node with the
    frequency. *)
Fixpoint find_node (fuel : nat) (h : store FrequencyCountNode) (current : option nat)
  (fq : Z) : option (option nat) :=
  match current with
  | None => Some None
  | Some a =>
      match fuel with
      | O => None
      | S fuel' =>
          match nth_error h a with
          | None => None
          | Some c =>
              if frequency (payload c) =? fq then Some (Some a)
              else find_node fuel' h (next c) fq
          end
      end
  end.

(** The loop of [_insert_frequency_node]:
    [while current and current.frequency > frequency]. *)
Fixpoint seek (fuel : nat) (h : store FrequencyCountNode) (current : option nat)
  (fq : Z) : option (option nat) :=
  match current with
  | None => Some None
  | Some a =>
      match fuel with
      | O => None
      | S fuel' =>
          match nth_error h a with
          | None => None
          | Some c =>
              if frequency (payload c) >? fq then seek fuel' h (next c) fq
              else Some (Some a)
          end
      end
  end.

(** [_insert_frequency_node] *)
Definition insert_node (fuel : nat) (l : llist FrequencyCountNode) (fq cnt : Z)
  : option (llist FrequencyCountNode) :=
  match head l with
  | None => append_node l (mkNode fq cnt)
  | Some _ =>
      match seek fuel (cells l) (head l) fq with
      | None => None
      | Some None => append_node l (mkNode fq cnt)
      | Some (Some current) =>
          let new_node := List.length (cells l) in
          let h := cells l ++ [mkCell (mkNode fq cnt) None None] in
          link_before (mkList h (head l) (tail l)) new_node current
      end
  end.

(** One iteration of the loop of [_update_frequency_counts]. *)
Definition update_count (fuel : nat) (l : llist FrequencyCountNode) (item : Z * Z)
  : option (llist FrequencyCountNode) :=
  let (fq, change) := item in
  if change =? 0 then Some l
  else
    match find_node fuel (cells l) (head l) fq with
    | None => None
    | Some (Some node) =>
        match nth_error (cells l) node with
        | None => None
        | Some c =>
            let new_count := count (payload c) + change in
            let h :=
              update node
                (set_payload (mkNode (frequency (payload c)) new_count))
                (cells l) in
            let l := mkList h (head l) (tail l) in
            if new_count <=? 0 then remove_node l node else Some l
        end
    | Some None =>
        if change >? 0 then insert_node fuel l fq change else Some l
    end.

(** [get_lowest_frequency] *)
Definition lowest_frequency (l : llist FrequencyCountNode) : option Z :=
  match tail l with
  | None => Some 0
  | Some t => option_map (fun c => frequency (payload c)) (nth_error (cells l) t)
  end.

(** [_update_frequency_counts] on the store: every delta in turn, each loop
    with as much fuel as the store has objects. *)
Definition update_counts (l : llist FrequencyCountNode) (changes : dict Z Z)
  : option (llist FrequencyCountNode) :=
  fold_left
    (fun st item =>
       match st with
       | Some l => update_count (List.length (cells l)) l item
       | None => None
       end)
    changes (Some l).

End Ptr.

(** **** The analyzer with its two lists in the store *)

(** The object as the source holds it: the counter, the total, and the two
    linked lists, each with its store, head and tail. *)
Record Stored := mkStored {
  s_counts : dict string Z;
  s_total : Z;
  s_top : Ptr.llist (string * Z);
  s_freq : Ptr.llist FrequencyCountNode
}.

(** The counter and the total of the object, for the functions that read
    nothing else ([tally], [reconcile], [_build_initial_top5]). *)
Definition counts_view (st : Stored) : Analyzer :=
  mkAnalyzer (s_counts st) [] [] (s_total st).

(** [__init__] *)
Definition stored_init : Stored :=
  mkStored [] 0 (Ptr.mkList [] None None) (Ptr.mkList [] None None).

(** [_update_top_five_incremental]: read the list by a walk from the head,
    then [_build_initial_top5] or the reconciliation, then
    [_rebuild_top5_linked_list]. *)
Definition stored_update_top_five (changed_words : list string)
  (st : Stored) : option Stored :=
  let top := s_top st in
  match Ptr.walk (List.length (Ptr.cells top)) (Ptr.cells top) (Ptr.head top)
  with
  | None => None
  | Some current_top5 =>
      let new_top5 :=
        match current_top5 with
        | [] => _build_initial_top5 (counts_view st)
        | _ => reconcile (counts_view st) changed_words current_top5
        end in
      match Ptr.rebuild (Ptr.cells top) new_top5 with
      | None => None
      | Some top' => Some (mkStored (s_counts st) (s_total st) top' (s_freq st))
      end
  end.

(** [add_words] *)
Definition stored_add_words (set_iter : list string -> list string)
  (words_string : string) (st : Stored) : option Stored :=
  match tokens words_string with
  | [] => Some st
  | words =>
      let t := tally (counts_view st) words in
      match Ptr.update_counts (s_freq st) (t_changes t) with
      | None => None
      | Some freq' =>
          let st := mkStored (t_counts t) (t_total t) (s_top st) freq' in
          match t_changed t with
          | [] => Some st
          | changed_words =>
              stored_update_top_five (set_iter changed_words) st
          end
      end
  end.

(** [clear]: the heads and tails are set to [None]; the node objects stay in
    the store, unreachable. *)
Definition stored_clear (st : Stored) : Stored :=
  mkStored [] 0
    (Ptr.mkList (Ptr.cells (s_top st)) None None)
    (Ptr.mkList (Ptr.cells (s_freq st)) None None).

Definition stored_step (set_iter : list string -> list string)
  (st : option Stored) (o : op) : option Stored :=
  match st with
  | None => None
  | Some st =>
      match o with
      | AddWords s => stored_add_words set_iter s st
      | Clear => Some (stored_clear st)
      end
  end.

Definition stored_run (set_iter : list string -> list string)
  (ops : list op) : option Stored :=
  fold_left (stored_step set_iter) ops (Some stored_init).

(** [get_top_five_most_frequent], [get_frequency_counts] and
    [get_lowest_frequency] on the object. *)
Definition stored_top_five (st : Stored) : option (list (string * Z)) :=
  Ptr.walk (List.length (Ptr.cells (s_top st))) (Ptr.cells (s_top st))
    (Ptr.head (s_top st)).

Definition stored_frequency_counts (st : Stored) : option (list (Z * Z)) :=
  option_map (map (fun n => (frequency n, count n)))
    (Ptr.walk (List.length (Ptr.cells (s_freq st))) (Ptr.cells (s_freq st))
       (Ptr.head (s_freq st))).

Definition stored_lowest_frequency (st : Stored) : option Z :=
  Ptr.lowest_frequency (s_freq st).

(** The object [st] holds the state [self]: same counter and total, and its
    two lists are well-formed doubly linked lists of the items of [self]. *)
Record represents (st : Stored) (self : Analyzer) : Prop := {
  rep_counts : s_counts st = word_counts self;
  rep_total : s_total st = total_words self;
  rep_top : exists addrs, Ptr.linked (s_top st) addrs (top_five self);
  rep_freq : exists addrs, Ptr.linked (s_freq st) addrs (freq_list self)
}.

(** The last of [addrs], or [before] when there is none. *)
Definition last_or (addrs : list nat) (before : option nat) : option nat :=
  match rev addrs with a :: _ => Some a | [] => before end.

(** The number of leading nodes whose frequency is higher than [fq]: where
    the walk of [_insert_frequency_node] stops. *)
Fixpoint lead (fq : Z) (vals : list FrequencyCountNode) : nat :=
  match vals with
  | [] => O
  | v :: vals' => if frequency v >? fq then S (lead fq vals') else O
  end.

(** *** Auxiliary definitions *)

Definition is_nil {A} (l : list A) : bool :=
  match l with [] => true | _ => false end.

Definition item_dec (a b : string * Z) : {a = b} + {a <> b}.
Proof. decide equality; [apply Z.eq_dec|apply string_dec]. Defined.

(** The batches of the scenarios of the specification. *)
Definition batch1 : string := "apple, banana, apple, cherry".
Definition batch2 : string := "banana, cherry, elderberry, fig".
Definition batch3 : string := "zebra, yankee, xray, whale, violin".

(** Python would visit a set in some order of its own; the scenarios are run
    with the insertion order and with its reverse. *)
Definition in_order (l : list string) : list string := l.
Definition reversed (l : list string) : list string := rev l.

(** A frequency count list of two node objects, as the store holds it after
    one word came three times and two words once: the nodes (3, 1) and
    (1, 2), linked in both directions. *)
Definition two_nodes : Ptr.llist FrequencyCountNode :=
  Ptr.mkList
    [Ptr.mkCell (mkNode 3 1) (Some 1%nat) None;
     Ptr.mkCell (mkNode 1 2) None (Some 0%nat)]
    (Some 0%nat) (Some 1%nat).

(** ** Facts about strings and tokens *)

Lemma truthy_lower s : Str.truthy (Str.lower s) = Str.truthy s.
Proof. destruct s; reflexivity. Qed.

Lemma truthy_false s : Str.truthy s = false <-> s = EmptyString.
Proof. destruct s; simpl; split; congruence. Qed.

Lemma tokens_spec s : tokens s = spec_tokens s.
Proof.
  unfold tokens, spec_tokens.
  induction (Str.split s) as [|piece pieces IH]; simpl; [reflexivity|].
  rewrite truthy_lower.
  destruct (Str.truthy (Str.strip piece)); simpl; now rewrite IH.
Qed.

Lemma tokens_truthy s w : In w (tokens s) -> w <> EmptyString.
Proof.
  rewrite tokens_spec. unfold spec_tokens. rewrite filter_In.
  intros [_ H] ->. discriminate.
Qed.

Lemma space_not_comma c : Str.isspace c = true -> Str.is_comma c = false.
Proof.
  destruct c as [[] [] [] [] [] [] [] []]; vm_compute; congruence.
Qed.

Lemma lstrip_spaces s : whitespace_only s = true -> Str.lstrip s = EmptyString.
Proof.
  unfold whitespace_only.
  induction s as [|c s IH]; cbn; [reflexivity|].
  intros H. apply andb_true_iff in H as [Hc Hs]. rewrite Hc. auto.
Qed.

Lemma strip_spaces s : whitespace_only s = true -> Str.strip s = EmptyString.
Proof. intros H. unfold Str.strip. now rewrite lstrip_spaces. Qed.

Lemma split_no_comma s : no_comma s = true -> Str.split s = [s].
Proof.
  unfold no_comma.
  induction s as [|c s IH]; cbn; [reflexivity|].
  intros H. apply andb_true_iff in H as [Hc Hs].
  apply negb_true_iff in Hc. rewrite Hc. rewrite (IH Hs). reflexivity.
Qed.

Lemma spaces_no_comma s : whitespace_only s = true -> no_comma s = true.
Proof.
  unfold whitespace_only, no_comma.
  induction s as [|c s IH]; cbn; [reflexivity|].
  intros H. apply andb_true_iff in H as [Hc Hs].
  apply space_not_comma in Hc. rewrite Hc. cbn. auto.
Qed.

Lemma whitespace_only_empty_fields s :
  whitespace_only s = true -> only_empty_fields s = true.
Proof.
  intros H. unfold only_empty_fields.
  rewrite (split_no_comma _ (spaces_no_comma _ H)). simpl.
  now rewrite (strip_spaces _ H).
Qed.

Lemma empty_fields_no_tokens s : only_empty_fields s = true -> tokens s = [].
Proof.
  unfold only_empty_fields, tokens.
  induction (Str.split s) as [|piece pieces IH]; simpl; [reflexivity|].
  intros H. apply andb_true_iff in H as [Hp Hr].
  apply negb_true_iff in Hp. rewrite Hp. auto.
Qed.

Lemma tokens_single s :
  no_comma s = true -> Str.truthy (Str.strip s) = true ->
  tokens s = [Str.lower (Str.strip s)].
Proof.
  intros Hc Ht. unfold tokens. rewrite (split_no_comma _ Hc). simpl.
  now rewrite Ht.
Qed.

(** [strip] removes whitespace at the two ends only: what it returns is the
    input between a whitespace prefix and a whitespace suffix. *)
Lemma lstrip_decompose s :
  exists pre, s = (pre ++ Str.lstrip s)%string /\ whitespace_only pre = true.
Proof.
  unfold whitespace_only.
  induction s as [|c s [pre [E W]]]; cbn.
  - now exists EmptyString.
  - destruct (Str.isspace c) eqn:Hc.
    + exists (String c pre). cbn. rewrite Hc, W. split; [congruence|reflexivity].
    + now exists EmptyString.
Qed.

Lemma rstrip_decompose s :
  exists post, s = (Str.rstrip s ++ post)%string /\ whitespace_only post = true.
Proof.
  unfold whitespace_only.
  induction s as [|c s [post [E W]]]; cbn.
  - now exists EmptyString.
  - destruct (Str.rstrip s) eqn:R.
    + destruct (Str.isspace c) eqn:Hc.
      * exists (String c post). cbn in *. rewrite Hc, W.
        split; [congruence|reflexivity].
      * exists post. cbn in *. split; [congruence|assumption].
    + exists post. cbn in *. split; [congruence|assumption].
Qed.

Lemma strip_decompose s :
  exists pre post,
    s = (pre ++ Str.strip s ++ post)%string
    /\ whitespace_only pre = true /\ whitespace_only post = true.
Proof.
  destruct (lstrip_decompose s) as [pre [E1 W1]].
  destruct (rstrip_decompose (Str.lstrip s)) as [post [E2 W2]].
  exists pre, post. unfold Str.strip. rewrite <- E2. auto.
Qed.

(** ** Facts about dictionaries *)

Section DictFacts.
Context {K V : Type}.
Variable eqb : K -> K -> bool.
Hypothesis eqb_spec : forall a b, reflect (a = b) (eqb a b).

Lemma dict_lookup_set_same (d : dict K V) k v :
  dict_lookup eqb (dict_set eqb d k v) k = Some v.
Proof.
  induction d as [|[k' v'] d IH]; simpl.
  - destruct (eqb_spec k k); congruence.
  - destruct (eqb_spec k' k) as [->|N]; simpl.
    + destruct (eqb_spec k k); congruence.
    + destruct (eqb_spec k' k); congruence.
Qed.

Lemma dict_lookup_set_other (d : dict K V) k v k' :
  k <> k' -> dict_lookup eqb (dict_set eqb d k v) k' = dict_lookup eqb d k'.
Proof.
  intros N. induction d as [|[k0 v0] d IH]; simpl.
  - destruct (eqb_spec k k'); congruence.
  - destruct (eqb_spec k0 k) as [->|N0]; simpl.
    + destruct (eqb_spec k k'); congruence.
    + destruct (eqb_spec k0 k'); congruence.
Qed.

Lemma dict_get_set_same (d : dict K V) k v dflt :
  dict_get eqb (dict_set eqb d k v) k dflt = v.
Proof. unfold dict_get. now rewrite dict_lookup_set_same. Qed.

Lemma dict_get_set_other (d : dict K V) k v k' dflt :
  k <> k' -> dict_get eqb (dict_set eqb d k v) k' dflt = dict_get eqb d k' dflt.
Proof. intros N. unfold dict_get. now rewrite dict_lookup_set_other. Qed.

Lemma dict_set_not_nil (d : dict K V) k v : dict_set eqb d k v <> [].
Proof.
  destruct d as [|[k' v'] d]; simpl; [discriminate|].
  destruct (eqb k' k); discriminate.
Qed.

Lemma dict_lookup_In (d : dict K V) k v :
  dict_lookup eqb d k = Some v -> In (k, v) d.
Proof.
  induction d as [|[k' v'] d IH]; simpl; [discriminate|].
  destruct (eqb_spec k' k) as [->|N]; intros H.
  - left. congruence.
  - right. auto.
Qed.

Lemma dict_lookup_None (d : dict K V) k :
  dict_lookup eqb d k = None <-> ~ In k (map fst d).
Proof.
  induction d as [|[k' v'] d IH]; simpl; [tauto|].
  destruct (eqb_spec k' k) as [->|N]; split; intros H.
  - discriminate.
  - exfalso. apply H. now left.
  - intros [E|I]; [congruence|]. now apply IH.
  - apply IH. intros I. apply H. now right.
Qed.

Lemma In_dict_lookup (d : dict K V) k v :
  NoDup (map fst d) -> In (k, v) d -> dict_lookup eqb d k = Some v.
Proof.
  induction d as [|[k' v'] d IH]; simpl; [tauto|].
  intros ND [E|I]; inversion ND as [|? ? Hn ND']; subst.
  - inversion E; subst. destruct (eqb_spec k k); congruence.
  - destruct (eqb_spec k' k) as [->|N]; [|auto].
    exfalso. apply Hn. apply (in_map fst) in I. exact I.
Qed.

(** The keys after [d[k] = v]. *)
Lemma dict_set_keys (d : dict K V) k v :
  map fst (dict_set eqb d k v)
  = match dict_lookup eqb d k with
    | Some _ => map fst d
    | None => map fst d ++ [k]
    end.
Proof.
  induction d as [|[k' v'] d IH]; simpl; [reflexivity|].
  destruct (eqb_spec k' k) as [->|N]; simpl; [reflexivity|].
  rewrite IH. now destruct (dict_lookup eqb d k).
Qed.

Lemma dict_set_NoDup (d : dict K V) k v :
  NoDup (map fst d) -> NoDup (map fst (dict_set eqb d k v)).
Proof.
  intros ND. rewrite dict_set_keys.
  destruct (dict_lookup eqb d k) eqn:L; [assumption|].
  apply dict_lookup_None in L.
  apply NoDup_app; [assumption|repeat constructor; simpl; tauto|].
  intros x Hx [<-|[]]. contradiction.
Qed.

Lemma In_dict_set (d : dict K V) k v k' v' :
  NoDup (map fst d) ->
  In (k', v') (dict_set eqb d k v)
  <-> (k' = k /\ v' = v) \/ (k' <> k /\ In (k', v') d).
Proof.
  intros ND. split.
  - intros I. apply In_dict_lookup in I; [|now apply dict_set_NoDup].
    destruct (eqb_spec k k') as [<-|N].
    + rewrite dict_lookup_set_same in I. left. split; congruence.
    + rewrite dict_lookup_set_other in I by assumption.
      right. split; [congruence|]. now apply dict_lookup_In.
  - intros [[-> ->]|[N I]]; apply dict_lookup_In.
    + apply dict_lookup_set_same.
    + rewrite dict_lookup_set_other by congruence. now apply In_dict_lookup.
Qed.
End DictFacts.

(** ** The counting loop *)

Lemma tally_counts_gen words : forall t,
  t_counts (fold_left count_word words t) = fold_left increment words (t_counts t).
Proof.
  induction words as [|w words IH]; intros t; simpl; [reflexivity|].
  now rewrite IH.
Qed.

Lemma tally_counts self words :
  t_counts (tally self words) = fold_left increment words (word_counts self).
Proof. unfold tally. now rewrite tally_counts_gen. Qed.

Lemma counter_get_holds c w n :
  dict_lookup String.eqb c w = holds n -> counter_get c w = n.
Proof.
  unfold counter_get, dict_get, holds. intros ->.
  destruct (Z.eqb_spec n 0); congruence.
Qed.

Lemma counter_get_increment_same c w :
  counter_get (increment c w) w = counter_get c w + 1.
Proof.
  unfold increment, counter_get at 1.
  now rewrite (dict_get_set_same _ String.eqb_spec).
Qed.

Lemma counter_get_increment_other c w w' :
  w <> w' -> counter_get (increment c w) w' = counter_get c w'.
Proof.
  intros N. unfold increment, counter_get at 1.
  now rewrite (dict_get_set_other _ String.eqb_spec) by assumption.
Qed.

Lemma increment_holds c t w n :
  0 <= n -> dict_lookup String.eqb c w = holds n ->
  dict_lookup String.eqb (increment c t) w
  = holds (n + if string_dec t w then 1 else 0).
Proof.
  intros Hn H. unfold increment.
  destruct (string_dec t w) as [->|N].
  - rewrite (dict_lookup_set_same _ String.eqb_spec).
    rewrite (counter_get_holds _ _ _ H). unfold holds.
    destruct (Z.eqb_spec (n + 1) 0); [lia|reflexivity].
  - rewrite (dict_lookup_set_other _ String.eqb_spec) by assumption.
    now rewrite Z.add_0_r.
Qed.

Lemma increments_hold words : forall c w n,
  0 <= n -> dict_lookup String.eqb c w = holds n ->
  dict_lookup String.eqb (fold_left increment words c) w
  = holds (n + Z.of_nat (count_occ string_dec words w)).
Proof.
  induction words as [|t words IH]; intros c w n Hn H; simpl.
  - now rewrite Z.add_0_r.
  - rewrite (IH _ w (n + if string_dec t w then 1 else 0)).
    + f_equal. destruct (string_dec t w); lia.
    + destruct (string_dec t w); lia.
    + now apply increment_holds.
Qed.

Lemma increments_not_nil words c :
  words <> [] -> fold_left increment words c <> [].
Proof.
  revert c. induction words as [|t words IH]; intros c H; [congruence|].
  simpl. destruct words as [|t' words'].
  - apply dict_set_not_nil.
  - apply IH. discriminate.
Qed.

(** ** What [add_words] does to each field *)

Section AddWordsFacts.
Variable set_iter : list string -> list string.

Lemma add_words_no_tokens s self :
  tokens s = [] -> add_words_traced set_iter s self = (self, None).
Proof. unfold add_words_traced. now intros ->. Qed.

Lemma add_words_word_counts s self :
  word_counts (add_words set_iter s self)
  = fold_left increment (tokens s) (word_counts self).
Proof.
  unfold add_words, add_words_traced.
  destruct (tokens s) as [|w ws] eqn:T; [reflexivity|].
  rewrite <- tally_counts.
  destruct (t_changed (tally self (w :: ws))); [reflexivity|].
  unfold _update_top_five_incremental. simpl.
  destruct (top_five self); reflexivity.
Qed.

Lemma add_words_freq_list s self :
  freq_list (add_words set_iter s self)
  = _update_frequency_counts (t_changes (tally self (tokens s)))
      (freq_list self).
Proof.
  unfold add_words, add_words_traced.
  destruct (tokens s) as [|w ws] eqn:T; [reflexivity|].
  destruct (t_changed (tally self (w :: ws))); [reflexivity|].
  unfold _update_top_five_incremental. simpl.
  destruct (top_five self); reflexivity.
Qed.

Lemma run_snoc ops o :
  run set_iter (ops ++ [o]) = step set_iter (run set_iter ops) o.
Proof. unfold run, run_from. now rewrite fold_left_app. Qed.

Lemma batches_snoc_add ops s :
  batches_since_reset (ops ++ [AddWords s]) = batches_since_reset ops ++ [s].
Proof. unfold batches_since_reset. now rewrite fold_left_app. Qed.

Lemma batches_snoc_clear ops : batches_since_reset (ops ++ [Clear]) = [].
Proof. unfold batches_since_reset. now rewrite fold_left_app. Qed.

(** The counter holds, for every word, the number of tokens equal to it
    in the batches since the last reset. *)
Lemma word_counts_tokens ops w :
  dict_lookup String.eqb (word_counts (run set_iter ops)) w
  = holds (Z.of_nat (count_occ string_dec
                       (flat_map tokens (batches_since_reset ops)) w)).
Proof.
  induction ops as [|o ops IH] using rev_ind; [reflexivity|].
  rewrite run_snoc. destruct o as [s|]; simpl.
  - rewrite batches_snoc_add, add_words_word_counts.
    rewrite (increments_hold _ _ _ _ (Nat2Z.is_nonneg _) IH).
    rewrite flat_map_app, count_occ_app. simpl. rewrite app_nil_r.
    f_equal. lia.
  - now rewrite batches_snoc_clear.
Qed.
End AddWordsFacts.

Lemma count_occ_filter_true {A} (dec : forall a b : A, {a = b} + {a <> b})
  (p : A -> bool) l w :
  p w = true -> count_occ dec (filter p l) w = count_occ dec l w.
Proof.
  intros Hw. induction l as [|x l IH]; simpl; [reflexivity|].
  destruct (p x) eqn:Px; simpl; destruct (dec x w) as [->|N]; congruence.
Qed.

Lemma count_tokens_pieces s w :
  w <> EmptyString ->
  count_occ string_dec (tokens s) w
  = count_occ string_dec (normalized_pieces s) w.
Proof.
  intros N. rewrite tokens_spec. unfold spec_tokens.
  apply count_occ_filter_true. destruct w; [congruence|reflexivity].
Qed.

Lemma count_flat_tokens_pieces batches w :
  w <> EmptyString ->
  count_occ string_dec (flat_map tokens batches) w
  = count_occ string_dec (flat_map normalized_pieces batches) w.
Proof.
  intros N. induction batches as [|s batches IH]; simpl; [reflexivity|].
  now rewrite !count_occ_app, IH, count_tokens_pieces.
Qed.

(** ** Count fidelity *)

(** C2. After any sequence of batches and resets, the dictionary returned by
    [get_all_frequencies] maps a non-empty word [w] to the exact number of
    comma-separated pieces, over all batches ingested since construction or
    the last reset, that equal [w] once trimmed and case-folded; a word with
    no such piece is not a key of the dictionary, and reading it from the
    [Counter] gives 0. *)
Theorem count_fidelity set_iter (ops : list op) (w : string) :
  w <> EmptyString ->
  dict_lookup String.eqb (get_all_frequencies (run set_iter ops)) w
  = holds (occurrences w ops)
  /\ counter_get (word_counts (run set_iter ops)) w = occurrences w ops.
Proof.
  intros N.
  assert (H : dict_lookup String.eqb (word_counts (run set_iter ops)) w
              = holds (occurrences w ops)).
  { rewrite word_counts_tokens. unfold occurrences.
    now rewrite count_flat_tokens_pieces. }
  split; [exact H|]. now apply counter_get_holds.
Qed.

(** ** Facts about sorting *)

Section SortFacts.
Context {A : Type}.
Variable lt : A -> A -> bool.

Lemma insert_sorted_perm x l : Permutation (insert_sorted lt x l) (x :: l).
Proof.
  induction l as [|y l IH]; simpl; [reflexivity|].
  destruct (lt y x); [|reflexivity].
  rewrite IH. apply perm_swap.
Qed.

Lemma sort_perm l : Permutation (sort lt l) l.
Proof.
  induction l as [|x l IH]; simpl; [reflexivity|].
  rewrite insert_sorted_perm. now constructor.
Qed.

Lemma sort_length l : List.length (sort lt l) = List.length l.
Proof. apply Permutation_length, sort_perm. Qed.

Lemma sort_In l x : In x (sort lt l) <-> In x l.
Proof.
  split; apply Permutation_in; [|symmetry]; apply sort_perm.
Qed.

Hypothesis lt_asym : forall a b, lt a b = true -> lt b a = false.
Hypothesis not_after_trans :
  forall a b c, not_after lt a b -> not_after lt b c -> not_after lt a c.

Lemma insert_sorted_sorted x l :
  StronglySorted (not_after lt) l ->
  StronglySorted (not_after lt) (insert_sorted lt x l).
Proof.
  induction 1 as [|y l Hl IH Hy]; simpl.
  - repeat constructor.
  - destruct (lt y x) eqn:E.
    + constructor; [assumption|].
      rewrite Forall_forall. intros z Hz.
      apply (Permutation_in _ (insert_sorted_perm x l)) in Hz.
      destruct Hz as [<-|Hz]; [now apply lt_asym|].
      rewrite Forall_forall in Hy. auto.
    + constructor; [now constructor|].
      constructor; [exact E|].
      eapply Forall_impl; [|exact Hy].
      intros z Hz. now apply (not_after_trans x y z).
Qed.

Lemma sort_sorted l : StronglySorted (not_after lt) (sort lt l).
Proof.
  induction l as [|x l IH]; simpl; [constructor|].
  now apply insert_sorted_sorted.
Qed.
End SortFacts.

(** Two sorted lists with the same elements are equal when the order is
    antisymmetric. *)
Lemma sorted_perm_unique {A} (R : A -> A -> Prop) :
  (forall a, R a a) ->
  (forall a b, R a b -> R b a -> a = b) ->
  forall l1 l2,
    StronglySorted R l1 -> StronglySorted R l2 -> Permutation l1 l2 -> l1 = l2.
Proof.
  intros Rrefl Ranti. induction l1 as [|a l1 IH]; intros l2 S1 S2 P.
  - now apply Permutation_nil in P.
  - destruct l2 as [|b l2].
    { symmetry in P. now apply Permutation_nil in P. }
    apply StronglySorted_inv in S1 as [S1 F1].
    apply StronglySorted_inv in S2 as [S2 F2].
    assert (E : a = b).
    { rewrite Forall_forall in F1, F2. apply Ranti.
      - assert (I : In b (a :: l1)).
        { apply (Permutation_in _ (Permutation_sym P)). now left. }
        destruct I as [->|I]; auto.
      - assert (I : In a (b :: l2)).
        { apply (Permutation_in _ P). now left. }
        destruct I as [->|I]; auto. }
    subst b. f_equal. apply IH; try assumption.
    now apply Permutation_cons_inv in P.
Qed.

(** ** Which branch of the top 5 update runs *)

Lemma set_add_not_nil w s : set_add w s <> [].
Proof.
  unfold set_add. destruct (existsb (String.eqb w) s) eqn:E.
  - destruct s; [discriminate|congruence].
  - destruct s; discriminate.
Qed.

Lemma count_word_changed t w :
  t_changed (count_word t w) = set_add w (t_changed t).
Proof.
  unfold count_word. simpl. fold (increment (t_counts t) w).
  rewrite counter_get_increment_same.
  destruct (Z.eqb_spec (counter_get (t_counts t) w)
              (counter_get (t_counts t) w + 1)); [lia|reflexivity].
Qed.

Lemma tally_changed_not_nil self words :
  words <> [] -> t_changed (tally self words) <> [].
Proof.
  unfold tally. generalize (mkTally (word_counts self) [] [] (total_words self)).
  induction words as [|w words IH]; intros t H; [congruence|].
  cbn [fold_left]. destruct words as [|w' words'].
  - cbn [fold_left]. rewrite count_word_changed. apply set_add_not_nil.
  - apply IH. discriminate.
Qed.

Lemma firstn_sort_not_nil (l : list (string * Z)) :
  l <> [] -> firstn 5 (sort key_lt l) <> [].
Proof.
  intros H E. apply (f_equal (@List.length _)) in E.
  rewrite length_firstn, sort_length in E.
  destruct l; [congruence|]. simpl in E. lia.
Qed.

Lemma insert_or_update_not_nil word freq cur :
  _insert_or_update_in_top5 word freq cur <> [].
Proof.
  unfold _insert_or_update_in_top5. apply firstn_sort_not_nil.
  destruct (filter _ cur); discriminate.
Qed.

Lemma reconcile_not_nil self changed : forall cur,
  cur <> [] -> reconcile self changed cur <> [].
Proof.
  unfold reconcile.
  induction changed as [|w changed IH]; intros cur H; simpl; [assumption|].
  apply IH. unfold reconcile_word.
  destruct (_should_be_in_top5 _ _ cur); [|assumption].
  apply insert_or_update_not_nil.
Qed.

Section TraceFacts.
Variable set_iter : list string -> list string.

Lemma add_words_traced_tokens s self :
  tokens s <> [] ->
  snd (add_words_traced set_iter s self)
  = Some (if is_nil (top_five self) then FullRebuild else Incremental)
  /\ top_five (fst (add_words_traced set_iter s self)) <> [].
Proof.
  intros T. unfold add_words_traced.
  destruct (tokens s) as [|w ws] eqn:E; [congruence|].
  pose proof (tally_changed_not_nil self (w :: ws) T) as C.
  pose proof (increments_not_nil (w :: ws) (word_counts self) T) as W.
  rewrite <- tally_counts in W.
  destruct (t_changed (tally self (w :: ws))) as [|c cs] eqn:Ec; [congruence|].
  unfold _update_top_five_incremental. simpl top_five.
  destruct (top_five self) as [|e es] eqn:Et; simpl.
  - split; [reflexivity|]. unfold _build_initial_top5. simpl.
    now apply firstn_sort_not_nil.
  - split; [reflexivity|]. apply reconcile_not_nil. discriminate.
Qed.

Lemma trace_from_expected ops : forall self,
  trace_from set_iter self ops
  = expected_trace (negb (is_nil (top_five self))) ops.
Proof.
  induction ops as [|[s|] ops IH]; intros self; simpl; [reflexivity| |].
  - rewrite <- tokens_spec.
    destruct (tokens s) as [|w ws] eqn:T.
    + rewrite add_words_no_tokens by assumption. now rewrite IH.
    + assert (N : tokens s <> []) by (rewrite T; discriminate).
      destruct (add_words_traced_tokens s self N) as [P Q].
      destruct (add_words_traced set_iter s self) as [self' p].
      simpl in P, Q. subst p. rewrite IH. f_equal.
      * now destruct (top_five self).
      * now destruct (top_five self').
  - now rewrite IH.
Qed.
End TraceFacts.

Lemma expected_rebuilds ops : forall populated,
  (List.length (filter is_full_rebuild (expected_trace populated ops))
   <= (if populated then 0 else 1) + resets ops)%nat.
Proof.
  unfold resets.
  induction ops as [|[s|] ops IH]; intros populated; simpl.
  - lia.
  - destruct (spec_tokens s).
    + simpl. apply IH.
    + specialize (IH true). destruct populated; simpl in *; lia.
  - specialize (IH false). simpl in *. lia.
Qed.

(** ** The full rebuild *)

(** C9, as stated, fails: a reset empties the top 5 list, and the next batch
    with a token rebuilds it from scratch a second time. *)
Lemma full_rebuild_runs_again_after_clear :
  ~ at_most_one_rebuild (fun l => l)
      [AddWords "apple"; Clear; AddWords "apple"].
Proof. unfold at_most_one_rebuild. vm_compute. lia. Qed.

(** C9, amended. The full rebuild runs on the first batch with a token after
    construction and on the first batch with a token after each reset, and on
    no other: every other batch with a token takes the incremental branch.
    So it runs at most once more than there are resets. *)
Theorem full_rebuild_once_per_reset set_iter (ops : list op) :
  trace set_iter ops = expected_trace false ops
  /\ (rebuild_count set_iter ops <= 1 + resets ops)%nat.
Proof.
  assert (E : trace set_iter ops = expected_trace false ops).
  { unfold trace. now rewrite trace_from_expected. }
  split; [exact E|].
  unfold rebuild_count. rewrite E. apply (expected_rebuilds ops false).
Qed.

(** ** Reset *)

(** C5. [clear] empties the word counts, the frequency count list and the top 5
    list together, whatever the state; what it returns is the state of a
    freshly constructed analyzer, so every query gives the result it gives
    there (empty list, 0, 0.0, empty mapping, empty sequence), and so does
    every query after any further operations. *)
Theorem clear_like_fresh set_iter (self : Analyzer) (ops : list op) :
  clear self = init
  /\ word_counts (clear self) = []
  /\ freq_list (clear self) = []
  /\ top_five (clear self) = []
  /\ get_top_five_most_frequent (clear self) = []
  /\ get_lowest_frequency (clear self) = 0
  /\ get_median_frequency (clear self) = Some 0%Q
  /\ get_all_frequencies (clear self) = []
  /\ get_frequency_counts (clear self) = []
  /\ run_from set_iter (clear self) ops = run set_iter ops.
Proof. repeat split. Qed.

(** ** Tokenization *)

(** C8. The tokens of a batch are its comma-separated pieces, each trimmed and
    case-folded, without the empty ones; a batch that is empty, made of
    whitespace only, or whose fields are all empty once trimmed has no token,
    and [add_words] returns the state it was given, without calling the
    top 5 update. *)
Theorem add_words_blank_is_noop set_iter (s : string) (self : Analyzer) :
  tokens s = spec_tokens s
  /\ (s = EmptyString \/ whitespace_only s = true \/ only_empty_fields s = true ->
      tokens s = []
      /\ add_words_traced set_iter s self = (self, None)
      /\ add_words set_iter s self = self).
Proof.
  split; [apply tokens_spec|]. intros H.
  assert (T : tokens s = []).
  { apply empty_fields_no_tokens.
    destruct H as [->|[H|H]]; [reflexivity| |assumption].
    now apply whitespace_only_empty_fields. }
  split; [exact T|]. unfold add_words.
  now rewrite add_words_no_tokens.
Qed.

Lemma split_not_nil s : Str.split s <> [].
Proof.
  destruct s as [|c s]; simpl; [discriminate|].
  destruct (Str.is_comma c); [discriminate|].
  destruct (Str.split s); discriminate.
Qed.

Lemma concat_cons sep x (l : list string) :
  l <> [] -> String.concat sep (x :: l) = (x ++ sep ++ String.concat sep l)%string.
Proof. destruct l; [congruence|reflexivity]. Qed.

(** Joining the pieces with commas gives the input back. *)
Lemma split_concat s : String.concat "," (Str.split s) = s.
Proof.
  induction s as [|c s IH]; [reflexivity|]. cbn [Str.split].
  pose proof (split_not_nil s) as N.
  destruct (Str.is_comma c) eqn:C.
  - unfold Str.is_comma in C. apply Ascii.eqb_eq in C. subst c.
    rewrite concat_cons by assumption. rewrite IH. reflexivity.
  - destruct (Str.split s) as [|p ps]; [congruence|].
    destruct ps as [|q qs].
    + cbn [String.concat] in *. now rewrite IH.
    + rewrite concat_cons by discriminate.
      rewrite concat_cons in IH by discriminate.
      rewrite <- IH. reflexivity.
Qed.

Lemma split_pieces_no_comma s :
  Forall (fun piece => no_comma piece = true) (Str.split s).
Proof.
  unfold no_comma.
  induction s as [|c s IH]; cbn [Str.split]; [repeat constructor|].
  destruct (Str.is_comma c) eqn:C; [constructor; [reflexivity|assumption]|].
  destruct (Str.split s) as [|p ps]; [repeat constructor; cbn; now rewrite C|].
  inversion IH as [|? ? Hp Hps]; subst.
  constructor; [|assumption]. cbn. now rewrite C, Hp.
Qed.

(** C10. The pieces of a batch are cut at its commas and nowhere else: they
    hold no comma and joined by commas they give the batch back; trimming a
    piece removes whitespace at its two ends only. So a batch without a comma
    that is not blank is one token, its trimmed and case-folded text,
    whatever whitespace that text has inside; in a fresh analyzer it becomes
    the only word, with count 1. *)
Theorem add_words_splits_at_commas_only set_iter (s : string) :
  String.concat "," (Str.split s) = s
  /\ Forall (fun piece => no_comma piece = true) (Str.split s)
  /\ (exists pre post,
        s = (pre ++ Str.strip s ++ post)%string
        /\ whitespace_only pre = true /\ whitespace_only post = true)
  /\ (no_comma s = true -> Str.truthy (Str.strip s) = true ->
      tokens s = [Str.lower (Str.strip s)]
      /\ get_all_frequencies (add_words set_iter s init)
         = [(Str.lower (Str.strip s), 1)]).
Proof.
  split; [apply split_concat|]. split; [apply split_pieces_no_comma|].
  split; [apply strip_decompose|].
  intros C T. split; [now apply tokens_single|].
  unfold get_all_frequencies.
  rewrite add_words_word_counts, tokens_single by assumption. reflexivity.
Qed.

(** ** The frequency count list *)

Lemma find_node_present fq change l i :
  _find_frequency_node fq l = Some i ->
  (let l' := add_to_count i change l in
   match nth_error l' i with
   | Some node => if count node <=? 0 then _remove_frequency_node i l' else l'
   | None => l'
   end) = bump fq change l.
Proof.
  revert i. induction l as [|n rest IH]; intros i; simpl; [discriminate|].
  destruct (frequency n =? fq) eqn:E.
  - intros [= <-]. simpl. now destruct (count n + change <=? 0).
  - destruct (_find_frequency_node fq rest) as [j|]; [|discriminate].
    intros [= <-]. simpl. specialize (IH j eq_refl). simpl in IH.
    rewrite <- IH.
    destruct (nth_error (add_to_count j change rest) j) as [node|];
      [|reflexivity].
    now destruct (count node <=? 0).
Qed.

Lemma find_node_absent fq l :
  _find_frequency_node fq l = None ->
  forall n, In n l -> frequency n <> fq.
Proof.
  induction l as [|m rest IH]; simpl; [tauto|].
  destruct (Z.eqb_spec (frequency m) fq) as [E|N]; [discriminate|].
  destruct (_find_frequency_node fq rest); [discriminate|].
  intros _ n [<-|I]; auto.
Qed.

Lemma update_frequency_count_cases l fq change :
  update_frequency_count l (fq, change)
  = if change =? 0 then l
    else match _find_frequency_node fq l with
         | Some _ => bump fq change l
         | None => if change >? 0
                   then insert_walk (mkNode fq change) l else l
         end.
Proof.
  unfold update_frequency_count.
  destruct (change =? 0); [reflexivity|].
  destruct (_find_frequency_node fq l) as [i|] eqn:F.
  - now apply find_node_present.
  - destruct (change >? 0); [|reflexivity]. now destruct l.
Qed.

Lemma node_count_cons n rest f :
  node_count (n :: rest) f
  = if frequency n =? f then count n else node_count rest f.
Proof. unfold node_count. simpl. now destruct (frequency n =? f). Qed.

Lemma node_count_absent l f :
  (forall n, In n l -> frequency n <> f) -> node_count l f = 0.
Proof.
  induction l as [|n rest IH]; intros H; [reflexivity|].
  rewrite node_count_cons.
  destruct (Z.eqb_spec (frequency n) f) as [E|N].
  - exfalso. apply (H n); [now left|assumption].
  - apply IH. intros m I. apply H. now right.
Qed.

Lemma node_count_present l f :
  node_count l f <> 0 ->
  exists n, In n l /\ frequency n = f /\ count n = node_count l f.
Proof.
  induction l as [|n rest IH]; [intros H; now contradiction H|].
  rewrite node_count_cons.
  destruct (Z.eqb_spec (frequency n) f) as [E|N]; intros H.
  - exists n. repeat split; [now left|assumption].
  - destruct (IH H) as [m [I [F C]]]. exists m. repeat split; auto. now right.
Qed.

Lemma descending_inv n rest :
  descending (n :: rest) ->
  descending rest /\ forall m, In m rest -> frequency m < frequency n.
Proof.
  intros D. apply StronglySorted_inv in D as [D F]. split; [exact D|].
  rewrite Forall_forall in F. intros m I. specialize (F m I). lia.
Qed.

Lemma descending_cons n rest :
  descending rest -> (forall m, In m rest -> frequency m < frequency n) ->
  descending (n :: rest).
Proof.
  intros D F. constructor; [exact D|]. rewrite Forall_forall.
  intros m I. specialize (F m I). lia.
Qed.

Lemma node_count_In l n :
  descending l -> In n l -> node_count l (frequency n) = count n.
Proof.
  induction l as [|m rest IH]; intros D I; [contradiction|].
  apply descending_inv in D as [D F]. rewrite node_count_cons.
  destruct I as [->|I].
  - now rewrite Z.eqb_refl.
  - specialize (F n I).
    destruct (Z.eqb_spec (frequency m) (frequency n)); [lia|auto].
Qed.

Lemma descending_NoDup l : descending l -> NoDup (map frequency l).
Proof.
  induction l as [|n rest IH]; intros D; simpl; [constructor|].
  apply descending_inv in D as [D F]. constructor; [|auto].
  intros I. apply in_map_iff in I as [m [E I]]. specialize (F m I). lia.
Qed.

Lemma In_bump fq change l m :
  In m (bump fq change l) ->
  In m l \/ (frequency m = fq /\ 0 < count m /\
             exists n, In n l /\ frequency n = fq /\ count m = count n + change).
Proof.
  induction l as [|n rest IH]; simpl; [tauto|].
  destruct (Z.eqb_spec (frequency n) fq) as [E|N].
  - destruct (Z.leb_spec (count n + change) 0) as [L|G].
    + intros I. left. now right.
    + intros [<-|I]; [|left; now right]. right. simpl.
      repeat split; [assumption|lia|]. exists n. auto.
  - intros [<-|I]; [left; now left|].
    destruct (IH I) as [J|[F [P [k [Ik [Fk Ck]]]]]]; [left; now right|].
    right. repeat split; [assumption|assumption|]. exists k. auto.
Qed.

Lemma bump_frequencies fq change l m :
  In m (bump fq change l) -> exists n, In n l /\ frequency n = frequency m.
Proof.
  intros I. apply In_bump in I as [I|[F [_ [n [In_ [Fn _]]]]]].
  - exists m. auto.
  - exists n. split; [assumption|congruence].
Qed.

Lemma bump_descending fq change l : descending l -> descending (bump fq change l).
Proof.
  induction l as [|n rest IH]; intros D; simpl; [constructor|].
  apply descending_inv in D as [D F].
  destruct (frequency n =? fq).
  - destruct (count n + change <=? 0); [assumption|].
    now apply descending_cons.
  - apply descending_cons; [auto|].
    intros m I. apply bump_frequencies in I as [k [Ik <-]]. auto.
Qed.

Lemma bump_positive fq change l :
  positive_counts l -> positive_counts (bump fq change l).
Proof.
  intros P m I. apply In_bump in I as [I|[_ [H _]]]; auto.
Qed.

Lemma bump_node_count_other fq change l f :
  f <> fq -> node_count (bump fq change l) f = node_count l f.
Proof.
  intros N. induction l as [|n rest IH]; simpl; [reflexivity|].
  destruct (Z.eqb_spec (frequency n) fq) as [E|N'].
  - rewrite (node_count_cons n rest).
    destruct (Z.eqb_spec (frequency n) f) as [E'|_]; [congruence|].
    destruct (count n + change <=? 0); [reflexivity|].
    rewrite node_count_cons. simpl.
    destruct (Z.eqb_spec (frequency n) f); [congruence|reflexivity].
  - rewrite !node_count_cons, IH. reflexivity.
Qed.

Lemma bump_node_count_same fq change l :
  descending l -> 0 <= node_count l fq + change ->
  (exists n, In n l /\ frequency n = fq) ->
  node_count (bump fq change l) fq = node_count l fq + change.
Proof.
  induction l as [|n rest IH]; intros D H [k [Ik Fk]]; [contradiction|].
  apply descending_inv in D as [D F]. simpl.
  rewrite (node_count_cons n rest) in *.
  destruct (Z.eqb_spec (frequency n) fq) as [E|N].
  - destruct (Z.leb_spec (count n + change) 0) as [L|G].
    + rewrite node_count_absent; [lia|].
      intros m I. specialize (F m I). lia.
    + rewrite node_count_cons. simpl. now rewrite E, Z.eqb_refl.
  - rewrite node_count_cons.
    destruct (Z.eqb_spec (frequency n) fq); [contradiction|].
    apply IH; try assumption.
    destruct Ik as [->|Ik]; [contradiction|]. exists k. auto.
Qed.

Lemma In_insert_walk new_node l m :
  In m (insert_walk new_node l) <-> m = new_node \/ In m l.
Proof.
  induction l as [|n rest IH]; simpl; [intuition congruence|].
  destruct (frequency n >? frequency new_node); simpl; [|intuition congruence].
  rewrite IH. intuition congruence.
Qed.

Lemma insert_walk_descending new_node l :
  descending l -> (forall n, In n l -> frequency n <> frequency new_node) ->
  descending (insert_walk new_node l).
Proof.
  induction l as [|n rest IH]; intros D A; simpl.
  - apply descending_cons; [constructor|contradiction].
  - pose proof (descending_inv _ _ D) as [D' F].
    destruct (Z.gtb_spec (frequency n) (frequency new_node)) as [G|L].
    + apply descending_cons.
      * apply IH; [assumption|]. intros m I. apply A. now right.
      * intros m I. apply In_insert_walk in I as [->|I]; [lia|auto].
    + apply descending_cons; [assumption|].
      assert (frequency n <> frequency new_node) by (apply A; now left).
      intros m [<-|I]; [lia|]. specialize (F m I). lia.
Qed.

Lemma insert_walk_node_count new_node l f :
  (forall n, In n l -> frequency n <> frequency new_node) ->
  node_count (insert_walk new_node l) f
  = if frequency new_node =? f then count new_node else node_count l f.
Proof.
  induction l as [|n rest IH]; intros A; simpl.
  - now rewrite node_count_cons.
  - assert (N : frequency n <> frequency new_node) by (apply A; now left).
    destruct (frequency n >? frequency new_node).
    + rewrite !node_count_cons, IH by (intros m I; apply A; now right).
      destruct (Z.eqb_spec (frequency n) f), (Z.eqb_spec (frequency new_node) f);
        congruence.
    + now rewrite !node_count_cons.
Qed.

(** One delta applied to a well-formed list leaves it well formed and moves
    the count at its frequency by the delta, provided the list does not go
    below zero there. *)
Lemma update_frequency_count_ok l fq change :
  descending l -> positive_counts l -> 0 <= node_count l fq + change ->
  let l' := update_frequency_count l (fq, change) in
  descending l' /\ positive_counts l'
  /\ forall f, node_count l' f
               = node_count l f + if f =? fq then change else 0.
Proof.
  intros D P H. cbv zeta. rewrite update_frequency_count_cases.
  destruct (Z.eqb_spec change 0) as [->|C0].
  { split; [assumption|split; [assumption|]].
    intros f. destruct (f =? fq); lia. }
  destruct (_find_frequency_node fq l) as [i|] eqn:F.
  - assert (Ex : exists n, In n l /\ frequency n = fq).
    { destruct (node_count_present l fq) as [n [I [E _]]]; [|eauto].
      intros Z0. clear -F Z0 P. revert i F.
      induction l as [|n rest IH]; simpl; [discriminate|]. intros i.
      rewrite node_count_cons in Z0.
      destruct (Z.eqb_spec (frequency n) fq) as [E|N].
      - specialize (P n (or_introl eq_refl)). lia.
      - destruct (_find_frequency_node fq rest) as [j|] eqn:Fj; [|discriminate].
        intros _. apply (IH (fun m I => P m (or_intror I)) Z0 j eq_refl). }
    split; [|split].
    + now apply bump_descending.
    + now apply bump_positive.
    + intros f. destruct (Z.eqb_spec f fq) as [->|N].
      * now apply bump_node_count_same.
      * rewrite bump_node_count_other by assumption. lia.
  - pose proof (find_node_absent _ _ F) as A.
    rewrite (node_count_absent l fq A) in H.
    destruct (Z.gtb_spec change 0) as [G|L]; [|lia].
    split; [|split].
    + now apply insert_walk_descending.
    + intros m I. apply In_insert_walk in I as [->|I]; [simpl; lia|auto].
    + intros f. rewrite insert_walk_node_count by assumption. simpl.
      rewrite (Z.eqb_sym fq f).
      destruct (Z.eqb_spec f fq) as [->|N]; [|lia].
      rewrite (node_count_absent l fq A). lia.
Qed.

(** All the deltas of one batch. *)
Lemma update_frequency_counts_ok changes : forall l,
  NoDup (map fst changes) ->
  descending l -> positive_counts l ->
  (forall fq, 0 <= node_count l fq + dict_get Z.eqb changes fq 0) ->
  let l' := _update_frequency_counts changes l in
  descending l' /\ positive_counts l'
  /\ forall f, node_count l' f = node_count l f + dict_get Z.eqb changes f 0.
Proof.
  unfold _update_frequency_counts.
  induction changes as [|[fq change] changes IH]; intros l ND D P H; simpl.
  { split; [assumption|split; [assumption|]].
    intros f. unfold dict_get. simpl. lia. }
  inversion ND as [|? ? Hfq ND']; subst.
  assert (Hget : forall f, dict_get Z.eqb ((fq, change) :: changes) f 0
                 = if f =? fq then change else dict_get Z.eqb changes f 0).
  { intros f. unfold dict_get. simpl. rewrite (Z.eqb_sym fq f).
    now destruct (f =? fq). }
  assert (H0 : 0 <= node_count l fq + change).
  { specialize (H fq). now rewrite Hget, Z.eqb_refl in H. }
  destruct (update_frequency_count_ok l fq change D P H0) as [D1 [P1 C1]].
  assert (Hrest : dict_get Z.eqb changes fq 0 = 0).
  { unfold dict_get.
    destruct (dict_lookup Z.eqb changes fq) eqn:L; [|reflexivity].
    apply (dict_lookup_In _ Z.eqb_spec) in L.
    exfalso. apply Hfq. apply (in_map fst) in L. exact L. }
  destruct (IH (update_frequency_count l (fq, change)) ND' D1 P1) as [D2 [P2 C2]].
  { intros f. rewrite C1. specialize (H f). rewrite Hget in H.
    destruct (Z.eqb_spec f fq) as [E|N]; [rewrite E, Hrest|]; lia. }
  split; [assumption|split; [assumption|]].
  intros f. rewrite C2, C1, Hget.
  destruct (Z.eqb_spec f fq) as [E|N]; [rewrite E, Hrest|]; lia.
Qed.

(** ** The deltas of a batch *)

Lemma words_with_cons e c f :
  words_with (e :: c) f = indicator (snd e =? f) + words_with c f.
Proof.
  unfold words_with, indicator. simpl.
  destruct (snd e =? f); simpl List.length; lia.
Qed.

Lemma words_with_nonneg c f : 0 <= words_with c f.
Proof. unfold words_with. lia. Qed.

Lemma words_with_set c w v f :
  words_with (dict_set String.eqb c w v) f
  = words_with c f
    - match dict_lookup String.eqb c w with
      | Some old => indicator (old =? f)
      | None => 0
      end
    + indicator (v =? f).
Proof.
  induction c as [|[k x] c IH]; cbn [dict_set dict_lookup].
  - rewrite words_with_cons. cbn [snd]. unfold words_with. simpl. lia.
  - destruct (String.eqb k w); rewrite !words_with_cons; cbn [snd];
      [|rewrite IH]; lia.
Qed.

Lemma In_dict_set_value {K V} (eqb : K -> K -> bool) (d : dict K V) k v e :
  In e (dict_set eqb d k v) -> snd e = v \/ In e d.
Proof.
  induction d as [|[k' v'] d IH]; simpl.
  - intros [<-|[]]. now left.
  - destruct (eqb k' k); simpl.
    + intros [<-|I]; [now left|right; now right].
    + intros [<-|I]; [right; now left|].
      destruct (IH I); [now left|right; now right].
Qed.

Lemma dict_get_set_Z d k v f :
  dict_get Z.eqb (dict_set Z.eqb d k v) f 0
  = if f =? k then v else dict_get Z.eqb d f 0.
Proof.
  destruct (Z.eqb_spec f k) as [->|N].
  - apply (dict_get_set_same _ Z.eqb_spec).
  - apply (dict_get_set_other _ Z.eqb_spec). congruence.
Qed.

Lemma counter_get_lookup c w :
  counter_get c w
  = match dict_lookup String.eqb c w with Some v => v | None => 0 end.
Proof. reflexivity. Qed.

Lemma count_word_inv wc0 t w : tally_inv wc0 t -> tally_inv wc0 (count_word t w).
Proof.
  intros [Hv Hk Hck Hc].
  assert (Hold : 0 <= counter_get (t_counts t) w).
  { rewrite counter_get_lookup.
    destruct (dict_lookup String.eqb (t_counts t) w) as [v|] eqn:L; [|lia].
    apply (dict_lookup_In _ String.eqb_spec) in L.
    specialize (Hv _ L). simpl in Hv. lia. }
  pose proof (counter_get_increment_same (t_counts t) w) as Hnew.
  unfold increment in Hnew.
  unfold count_word. rewrite Hnew.
  set (old := counter_get (t_counts t) w) in *.
  constructor; cbn [t_counts t_changes].
  - intros e I. apply In_dict_set_value in I as [->|I]; [lia|auto].
  - now apply (dict_set_NoDup _ String.eqb_spec).
  - apply (dict_set_NoDup _ Z.eqb_spec).
    destruct (old >? 0); [apply (dict_set_NoDup _ Z.eqb_spec)|]; assumption.
  - intros f. rewrite dict_get_set_Z, words_with_set.
    fold (indicator (old + 1 =? f)).
    assert (Hlook : match dict_lookup String.eqb (t_counts t) w with
                    | Some o => o = old /\ 1 <= old
                    | None => old = 0
                    end).
    { unfold old. rewrite counter_get_lookup.
      destruct (dict_lookup String.eqb (t_counts t) w) as [v|] eqn:L;
        [|reflexivity].
      apply (dict_lookup_In _ String.eqb_spec) in L.
      specialize (Hv _ L). simpl in Hv. split; [reflexivity|lia]. }
    destruct (dict_lookup String.eqb (t_counts t) w) as [o|].
    + destruct Hlook as [-> Hpos].
      destruct (Z.gtb_spec old 0) as [_|]; [|lia].
      rewrite !dict_get_set_Z, !Hc. unfold indicator.
      rewrite (Z.eqb_sym old f), (Z.eqb_sym (old + 1) f).
      destruct (Z.eqb_spec f (old + 1)), (Z.eqb_spec f old),
        (Z.eqb_spec (old + 1) old); subst; lia.
    + destruct (Z.gtb_spec old 0) as [|_]; [lia|].
      rewrite !Hc. unfold indicator. rewrite (Z.eqb_sym (old + 1) f).
      destruct (Z.eqb_spec f (old + 1)); subst; lia.
Qed.

Lemma tally_inv_fold wc0 words : forall t,
  tally_inv wc0 t -> tally_inv wc0 (fold_left count_word words t).
Proof.
  induction words as [|w words IH]; intros t H; simpl; [assumption|].
  apply IH. now apply count_word_inv.
Qed.

Lemma tally_inv_tally self words :
  NoDup (map fst (word_counts self)) ->
  (forall e, In e (word_counts self) -> 1 <= snd e) ->
  tally_inv (word_counts self) (tally self words).
Proof.
  intros K V. apply tally_inv_fold. constructor; simpl; try assumption.
  - constructor.
  - intros f. unfold dict_get. simpl. lia.
Qed.

(** ** The invariant of the frequency count list *)

Lemma hist_inv_init : hist_inv init.
Proof.
  constructor; simpl.
  - constructor.
  - intros n [].
  - constructor.
  - intros e [].
  - reflexivity.
Qed.

Section HistogramFacts.
Variable set_iter : list string -> list string.

Lemma hist_inv_add_words s self :
  hist_inv self -> hist_inv (add_words set_iter s self).
Proof.
  intros [D P K V C].
  pose proof (tally_inv_tally self (tokens s) K V) as [Tv Tk Tck Tc].
  rewrite tally_counts, <- add_words_word_counts with (set_iter := set_iter)
    in Tv, Tk, Tc.
  destruct (update_frequency_counts_ok (t_changes (tally self (tokens s)))
              (freq_list self) Tck D P) as [D' [P' C']].
  { intros f. rewrite Tc, C.
    pose proof (words_with_nonneg (word_counts (add_words set_iter s self)) f).
    lia. }
  rewrite <- add_words_freq_list with (set_iter := set_iter) in D', P', C'.
  constructor; try assumption.
  intros f. rewrite C', Tc, C. lia.
Qed.

Lemma hist_inv_run ops : hist_inv (run set_iter ops).
Proof.
  induction ops as [|o ops IH] using rev_ind; [apply hist_inv_init|].
  rewrite run_snoc. destruct o as [s|]; simpl.
  - now apply hist_inv_add_words.
  - apply hist_inv_init.
Qed.
End HistogramFacts.

(** ** Counting words through the frequency count list *)

Lemma zsum_indicator_absent v F :
  ~ In v F -> zsum (map (fun f => indicator (v =? f)) F) = 0.
Proof.
  induction F as [|g F IH]; intros N; simpl; [reflexivity|].
  rewrite IH by (intros I; apply N; now right).
  destruct (Z.eqb_spec v g) as [->|_]; [|reflexivity].
  exfalso. apply N. now left.
Qed.

Lemma zsum_indicator_present v F :
  NoDup F -> In v F -> zsum (map (fun f => indicator (v =? f)) F) = 1.
Proof.
  induction 1 as [|g F Hg ND IH]; intros I; [contradiction|]. simpl.
  destruct I as [->|I].
  - rewrite Z.eqb_refl, zsum_indicator_absent by assumption. reflexivity.
  - rewrite IH by assumption.
    destruct (Z.eqb_spec v g) as [->|_]; [contradiction|reflexivity].
Qed.

Lemma zsum_words_with wc F :
  NoDup F -> (forall e, In e wc -> In (snd e) F) ->
  zsum (map (words_with wc) F) = Z.of_nat (List.length wc).
Proof.
  intros ND. induction wc as [|e wc IH]; intros H.
  - clear. induction F as [|f F IH]; simpl; [reflexivity|].
    rewrite IH. reflexivity.
  - assert (E : zsum (map (words_with (e :: wc)) F)
                = zsum (map (fun f => indicator (snd e =? f)) F)
                  + zsum (map (words_with wc) F)).
    { clear. induction F as [|f F IH]; simpl; [reflexivity|].
      rewrite IH, words_with_cons. lia. }
    rewrite E, IH by (intros x I; apply H; now right).
    rewrite zsum_indicator_present; [|assumption|apply H; now left].
    simpl List.length. lia.
Qed.

Lemma filter_none {A} (p : A -> bool) l :
  (forall x, In x l -> p x = false) -> filter p l = [].
Proof.
  induction l as [|x l IH]; intros H; simpl; [reflexivity|].
  rewrite (H x) by now left. apply IH. intros y I. apply H. now right.
Qed.

Lemma filter_frequency l f :
  descending l ->
  filter (fun n => frequency n =? f) l
  = match find (fun n => frequency n =? f) l with
    | Some n => [n]
    | None => []
    end.
Proof.
  induction l as [|n rest IH]; intros D; simpl; [reflexivity|].
  apply descending_inv in D as [D F].
  destruct (Z.eqb_spec (frequency n) f) as [E|N]; [|auto].
  f_equal. apply filter_none.
  intros m I. specialize (F m I). apply Z.eqb_neq. lia.
Qed.

Lemma last_cons {A} (l : list A) (x d : A) : last (x :: l) d = last l x.
Proof.
  revert x d. induction l as [|y l IH]; intros x d; [reflexivity|].
  change (last (x :: y :: l) d) with (last (y :: l) d).
  now rewrite !IH.
Qed.

Lemma descending_last n rest m :
  descending (n :: rest) -> In m (n :: rest) ->
  frequency (last rest n) <= frequency m.
Proof.
  revert n m. induction rest as [|k rest IH]; intros n m D I.
  - destruct I as [<-|[]]. simpl. lia.
  - apply descending_inv in D as [D F].
    rewrite last_cons. destruct I as [<-|I].
    + assert (Hk : frequency (last rest k) <= frequency k)
        by (apply IH; [assumption|now left]).
      specialize (F k (or_introl eq_refl)). lia.
    + now apply IH.
Qed.

Lemma last_In {A} (l : list A) (d : A) : In (last l d) (d :: l).
Proof.
  revert d. induction l as [|x l IH]; intros d; [now left|].
  right. rewrite last_cons. apply IH.
Qed.

Lemma words_with_pos wc f :
  0 < words_with wc f <-> exists w, In (w, f) wc.
Proof.
  induction wc as [|[w v] wc IH].
  - split; [unfold words_with; simpl; lia|intros [w []]].
  - rewrite words_with_cons. unfold indicator. simpl snd.
    destruct (Z.eqb_spec v f) as [->|N]; split.
    + intros _. exists w. now left.
    + intros _. pose proof (words_with_nonneg wc f). lia.
    + intros H. assert (H' : 0 < words_with wc f) by lia.
      apply IH in H' as [w' I]. exists w'. now right.
    + intros [w' [E|I]]; [congruence|].
      assert (0 < words_with wc f) by (apply IH; eauto). lia.
Qed.

(** ** Histogram consistency *)

(** C3. In every reachable state the keys of the word counts are distinct,
    the counts of the histogram nodes sum to the number of words, and for
    every frequency held by at least one word the nodes holding that
    frequency are exactly one node, whose count is the number of words
    holding it. *)
Theorem histogram_consistent set_iter (ops : list op) :
  let self := run set_iter ops in
  NoDup (map fst (word_counts self))
  /\ zsum (map count (freq_list self))
     = Z.of_nat (List.length (word_counts self))
  /\ forall f, 0 < words_with (word_counts self) f ->
       filter (fun n => frequency n =? f) (freq_list self)
       = [mkNode f (words_with (word_counts self) f)].
Proof.
  intros self. destruct (hist_inv_run set_iter ops) as [D P K V C].
  fold self in D, P, K, V, C.
  split; [exact K|]. split.
  - rewrite <- (zsum_words_with (word_counts self) (map frequency (freq_list self))).
    + rewrite map_map. f_equal. apply map_ext_in.
      intros n I. now rewrite <- C, node_count_In.
    + now apply descending_NoDup.
    + intros [w v] I. simpl.
      assert (Hp : 0 < words_with (word_counts self) v)
        by (apply words_with_pos; eauto).
      rewrite <- C in Hp.
      destruct (node_count_present (freq_list self) v) as [n [In_ [F _]]];
        [lia|].
      rewrite <- F. now apply in_map.
  - intros f Hf. rewrite filter_frequency by assumption.
    rewrite <- C in *. unfold node_count in *.
    destruct (find (fun n => frequency n =? f) (freq_list self)) as [n|] eqn:E;
      [|lia].
    apply find_some in E as [_ E]. apply Z.eqb_eq in E.
    destruct n as [fn cn]. simpl in *. now subst.
Qed.

(** ** The shape of the frequency count list *)

Lemma bump_removes fq change l n :
  descending l -> In n l -> frequency n = fq -> count n + change <= 0 ->
  forall m, In m (bump fq change l) -> frequency m <> fq.
Proof.
  induction l as [|k rest IH]; intros D I F L m Im; [contradiction|].
  apply descending_inv in D as [D B]. simpl in Im.
  destruct (Z.eqb_spec (frequency k) fq) as [E|N].
  - destruct I as [->|I]; [|specialize (B n I); lia].
    destruct (Z.leb_spec (count n + change) 0); [|lia].
    specialize (B m Im). lia.
  - destruct I as [->|I]; [contradiction|].
    destruct Im as [<-|Im]; [assumption|]. now apply (IH D I F L).
Qed.

Lemma dict_lookup_firstn {K V} (eqb : K -> K -> bool) (d : dict K V) k n v :
  dict_lookup eqb (firstn n d) k = Some v -> dict_lookup eqb d k = Some v.
Proof.
  revert n. induction d as [|[k' v'] d IH]; intros n; destruct n; simpl;
    try discriminate.
  destruct (eqb k' k); [trivial|apply IH].
Qed.

Lemma NoDup_firstn {A} (l : list A) n : NoDup l -> NoDup (firstn n l).
Proof.
  intros ND. rewrite <- (firstn_skipn n l) in ND.
  now apply NoDup_app_remove_r in ND.
Qed.

Section HistogramShape.
Variable set_iter : list string -> list string.

(** The list stays well formed after each single delta of a batch. *)
Lemma deltas_keep_shape (self : Analyzer) (s : string) (k : nat) :
  hist_inv self ->
  let l := fold_left update_frequency_count
             (firstn k (t_changes (tally self (tokens s)))) (freq_list self) in
  descending l /\ positive_counts l.
Proof.
  intros [D P K V C].
  pose proof (tally_inv_tally self (tokens s) K V) as [_ _ Tck Tc].
  set (changes := t_changes (tally self (tokens s))) in *.
  destruct (update_frequency_counts_ok (firstn k changes) (freq_list self))
    as [D' [P' _]]; try assumption.
  - rewrite <- firstn_map. now apply NoDup_firstn.
  - intros f. pose proof (words_with_nonneg (word_counts self) f) as H0.
    rewrite C. unfold dict_get.
    destruct (dict_lookup Z.eqb (firstn k changes) f) as [v|] eqn:L; [|lia].
    apply dict_lookup_firstn in L.
    specialize (Tc f). unfold dict_get in Tc. rewrite L in Tc.
    pose proof (words_with_nonneg (t_counts (tally self (tokens s))) f). lia.
  - split; assumption.
Qed.
End HistogramShape.

(** C6. In every reachable state the nodes are strictly descending by
    frequency, no two share a frequency and every count is positive; the same
    holds after each single delta applied inside a batch; and a delta that
    brings the count of a node to 0 or below leaves no node with that
    frequency in the list that update returns. *)
Theorem histogram_nodes_well_formed set_iter (ops : list op) :
  (let l := freq_list (run set_iter ops) in
   descending l /\ NoDup (map frequency l) /\ positive_counts l)
  /\ (forall (s : string) (k : nat),
        let self := run set_iter ops in
        let l := fold_left update_frequency_count
                   (firstn k (t_changes (tally self (tokens s))))
                   (freq_list self) in
        descending l /\ NoDup (map frequency l) /\ positive_counts l)
  /\ (forall l fq change n,
        descending l -> In n l -> frequency n = fq -> change <> 0 ->
        count n + change <= 0 ->
        forall m, In m (update_frequency_count l (fq, change)) ->
                  frequency m <> fq).
Proof.
  pose proof (hist_inv_run set_iter ops) as H.
  split; [|split].
  - destruct H as [D P _ _ _].
    split; [assumption|split; [now apply descending_NoDup|assumption]].
  - intros s k. cbv zeta.
    destruct (deltas_keep_shape (run set_iter ops) s k H) as [D P].
    split; [assumption|split; [now apply descending_NoDup|assumption]].
  - intros l fq change n D I F C0 L m.
    rewrite update_frequency_count_cases.
    destruct (Z.eqb_spec change 0); [contradiction|].
    destruct (_find_frequency_node fq l) eqn:E.
    + now apply (bump_removes fq change l n).
    + exfalso. now apply (find_node_absent _ _ E n I).
Qed.

(** ** The lowest frequency *)

Lemma last_map {A B} (f : A -> B) (l : list A) (d : A) :
  last (map f l) (f d) = f (last l d).
Proof.
  revert d. induction l as [|x l IH]; intros d; [reflexivity|].
  simpl map. now rewrite !last_cons.
Qed.

(** C7. In every reachable state [get_lowest_frequency] is the frequency of
    the last node of the frequency count list, 0 when there is none; it is 0
    when no word is held (nothing ingested yet, or since the last reset); and
    otherwise it is the smallest count a word holds. *)
Theorem lowest_frequency_is_minimum set_iter (ops : list op) :
  let self := run set_iter ops in
  get_lowest_frequency self = last (map frequency (freq_list self)) 0
  /\ get_lowest_frequency init = 0
  /\ get_lowest_frequency (clear self) = 0
  /\ (word_counts self = [] -> get_lowest_frequency self = 0)
  /\ (word_counts self <> [] ->
      (exists w, In (w, get_lowest_frequency self) (word_counts self))
      /\ forall w f, In (w, f) (word_counts self) ->
                     get_lowest_frequency self <= f).
Proof.
  intros self. destruct (hist_inv_run set_iter ops) as [D P K V C].
  fold self in D, P, K, V, C. unfold get_lowest_frequency.
  split; [|split; [reflexivity|split; [reflexivity|split]]].
  - destruct (freq_list self) as [|n rest]; [reflexivity|].
    simpl map. now rewrite last_cons, last_map.
  - intros E. destruct (freq_list self) as [|n rest]; [reflexivity|].
    exfalso. specialize (P n (or_introl eq_refl)).
    rewrite <- (node_count_In (n :: rest) n D (or_introl eq_refl)) in P.
    rewrite C, E in P. unfold words_with in P. simpl in P. lia.
  - intros N. destruct (freq_list self) as [|n rest] eqn:E.
    + exfalso. destruct (word_counts self) as [|[w v] wc]; [congruence|].
      specialize (C v). rewrite words_with_cons in C. cbn [snd] in C.
      rewrite Z.eqb_refl in C. pose proof (words_with_nonneg wc v).
      change (node_count [] v) with 0 in C.
      change (indicator true) with 1 in C. lia.
    + split.
      * apply words_with_pos. rewrite <- C.
        rewrite (node_count_In _ _ D (last_In rest n)).
        apply P, last_In.
      * intros w f I.
        assert (Hp : 0 < words_with (word_counts self) f)
          by (apply words_with_pos; eauto).
        rewrite <- C in Hp.
        destruct (node_count_present (n :: rest) f) as [m [Im [F _]]]; [lia|].
        rewrite <- F. now apply descending_last.
Qed.

(** ** The median *)

Lemma even_mod2 n : Nat.even n = (n mod 2 =? 0)%nat.
Proof.
  pose proof (Nat.div_mod_eq n 2) as E.
  pose proof (Nat.mod_upper_bound n 2 ltac:(discriminate)) as B.
  rewrite E at 1. rewrite Nat.add_comm, Nat.even_add_mul_2.
  destruct (n mod 2)%nat as [|[|k]]; [reflexivity|reflexivity|lia].
Qed.

Lemma StronglySorted_weaken {A} (R R' : A -> A -> Prop) l :
  (forall a b, R a b -> R' a b) -> StronglySorted R l -> StronglySorted R' l.
Proof.
  intros H. induction 1 as [|a l S IH F]; constructor; [assumption|].
  eapply Forall_impl; [|exact F]. intros b. apply H.
Qed.

Lemma sort_Z_ascending l : StronglySorted Z.le (sort Z.ltb l).
Proof.
  apply (StronglySorted_weaken (not_after Z.ltb)).
  - unfold not_after. intros a b H. now apply Z.ltb_ge in H.
  - apply (sort_sorted Z.ltb).
    + intros a b H. apply Z.ltb_lt in H. apply Z.ltb_ge. lia.
    + unfold not_after. intros a b c H1 H2.
      apply Z.ltb_ge in H1, H2. apply Z.ltb_ge. lia.
Qed.

Lemma sort_Z_unique l ascending :
  Permutation ascending l -> StronglySorted Z.le ascending ->
  sort Z.ltb l = ascending.
Proof.
  intros P S. apply (sorted_perm_unique Z.le).
  - intros a. lia.
  - intros a b. lia.
  - apply sort_Z_ascending.
  - assumption.
  - rewrite P. apply sort_perm.
Qed.

(** A rational [n / 2^s] with [s] 0 or 1 whose numerator is below 2^53 is a
    float: rounding leaves it as it is. *)
Lemma binary64_dyadic (n s : Z) (d : positive) :
  Zpos d = 2 ^ s -> 0 <= s <= 1 -> Z.abs n < 2 ^ 53 ->
  binary64 (n # d) = Some (Qred (n # d)).
Proof.
  intros D S B. unfold binary64. cbn [Qnum Qden].
  destruct (Z.eqb_spec (Z.abs n) 0) as [Z0|NZ].
  { f_equal. change 0%Q with (Qred 0). symmetry. apply Qred_complete.
    assert (n = 0) by lia. subst n. reflexivity. }
  set (a := Z.abs n) in *.
  assert (Pa : 0 < a) by (unfold a; lia).
  set (L := Z.log2 a).
  assert (L0 : 0 <= L) by apply Z.log2_nonneg.
  assert (L52 : L < 53) by (now apply Z.log2_lt_pow2).
  destruct (Z.log2_spec a Pa) as [Lo Hi]. fold L in Lo, Hi.
  assert (Ld : Z.log2 (Z.pos d) = s).
  { rewrite D. apply Z.log2_pow2. lia. }
  rewrite Ld, D.
  (* the exponent *)
  assert (E : (a * 2 ^ Z.max 0 (- (L - s)) <? 2 ^ s * 2 ^ Z.max 0 (L - s))
              = false).
  { apply Z.ltb_ge.
    destruct (Z.le_gt_cases s L) as [C|C].
    - rewrite (Z.max_l 0 (- (L - s))), (Z.max_r 0 (L - s)) by lia.
      rewrite <- Z.pow_add_r by lia. replace (s + (L - s)) with L by lia.
      rewrite Z.pow_0_r. lia.
    - rewrite (Z.max_r 0 (- (L - s))), (Z.max_l 0 (L - s)) by lia.
      assert (L = 0 /\ s = 1) as [-> ->] by lia. simpl in *. lia. }
  rewrite E. clear E.
  (* the unit in the last place, and the significand *)
  set (k := 52 - L + s).
  assert (K : 0 <= k - s) by (unfold k; lia).
  replace (Z.max (L - s - 52) (-1074)) with (- k) by (unfold k; lia).
  rewrite Z.opp_involutive.
  rewrite (Z.max_r 0 k), (Z.max_l 0 (- k)) by lia.
  rewrite Z.pow_0_r, Z.mul_1_r.
  assert (N : a * 2 ^ k = (a * 2 ^ (k - s)) * 2 ^ s).
  { rewrite <- Z.mul_assoc, <- Z.pow_add_r by lia. do 2 f_equal. lia. }
  assert (P2 : 0 < 2 ^ s) by (apply Z.pow_pos_nonneg; lia).
  rewrite N, Z.div_mul, Z.mod_mul by lia.
  rewrite Z.mul_0_r.
  assert (G : (0 >? 2 ^ s) = false)
    by (rewrite Z.gtb_ltb; apply Z.ltb_ge; lia).
  assert (Q : (0 =? 2 ^ s) = false) by (apply Z.eqb_neq; lia).
  rewrite G, Q. cbn [orb andb].
  rewrite Z.log2_mul_pow2 by lia. fold L.
  assert (O : (k - s + L + - k >=? 1024) = false).
  { rewrite Z.geb_leb. apply Z.leb_gt. unfold k. lia. }
  rewrite O. f_equal. apply Qred_complete.
  unfold Qeq. cbn [Qnum Qden].
  assert (P2k : 0 < 2 ^ k) by (apply Z.pow_pos_nonneg; lia).
  rewrite Z2Pos.id, D by assumption.
  rewrite Z.mul_1_r.
  replace (Z.sgn n * (a * 2 ^ (k - s)) * 2 ^ s)
    with (Z.sgn n * a * (2 ^ (k - s) * 2 ^ s)) by ring.
  rewrite <- Z.pow_add_r by lia. replace (k - s + s) with k by lia.
  f_equal. unfold a. rewrite Z.mul_comm. apply Z.abs_sgn.
Qed.

Lemma nth_bounded (l : list Z) (i : nat) (b : Z) :
  0 < b -> (forall c, In c l -> Z.abs c < b) -> Z.abs (nth i l 0) < b.
Proof.
  intros B H. destruct (nth_in_or_default i l 0) as [I|E].
  - now apply H.
  - rewrite E. simpl. lia.
Qed.

(** The statistical median of counts below 2^52 is a float. *)
Lemma binary64_statistical_median (ascending : list Z) :
  (forall c, In c ascending -> Z.abs c < 2 ^ 52) ->
  binary64 (statistical_median ascending)
  = Some (Qred (statistical_median ascending)).
Proof.
  intros B. unfold statistical_median.
  destruct (List.length ascending) as [|n]; [reflexivity|].
  assert (P52 : 0 < 2 ^ 52) by lia.
  destruct (Nat.even (S n)).
  - set (left := nth (Nat.pred (Nat.div2 (S n))) ascending 0).
    set (right := nth (Nat.div2 (S n)) ascending 0).
    pose proof (nth_bounded ascending (Nat.pred (Nat.div2 (S n))) _ P52 B)
      as Bl.
    pose proof (nth_bounded ascending (Nat.div2 (S n)) _ P52 B) as Br.
    fold left in Bl. fold right in Br.
    change (inject_Z (left + right) / 2)%Q with ((left + right) * 1 # 2).
    apply (binary64_dyadic _ 1); [reflexivity|lia|].
    change (2 ^ 53) with (2 ^ 52 + 2 ^ 52). lia.
  - pose proof (nth_bounded ascending (Nat.div2 (S n)) _ P52 B) as Bc.
    apply (binary64_dyadic _ 0); [reflexivity|lia|].
    change (2 ^ 53) with (2 ^ 52 + 2 ^ 52). lia.
Qed.

(** C4. Whatever the state, [get_median_frequency] is the statistical median
    of the counts of the words, one value per word, as a float: for any
    ascending arrangement of these counts it is the float nearest to the
    central value when their number is odd, to the average of the two central
    values when it is even, and 0.0 when there is no word.  When every count
    is below 2^52 that float is the statistical median itself: the exact
    central value, or the exact average of the two central values. *)
Theorem median_is_statistical_median (self : Analyzer) (ascending : list Z) :
  Permutation ascending (map snd (word_counts self)) ->
  StronglySorted Z.le ascending ->
  get_median_frequency self = binary64 (statistical_median ascending)
  /\ ((forall c, In c ascending -> Z.abs c < 2 ^ 52) ->
      get_median_frequency self
      = Some (Qred (statistical_median ascending))).
Proof.
  intros P Asc.
  assert (M : get_median_frequency self
              = binary64 (statistical_median ascending)).
  { unfold get_median_frequency, statistical_median.
    pose proof (sort_Z_unique _ _ P Asc) as E.
    destruct (word_counts self) as [|e wc] eqn:W.
    - apply Permutation_sym, Permutation_nil in P. now subst.
    - rewrite E. clear E.
      assert (L : List.length ascending = S (List.length wc)).
      { rewrite (Permutation_length P). simpl. now rewrite length_map. }
      rewrite <- even_mod2, <- !Nat.div2_div.
      destruct (List.length ascending) as [|n] eqn:Ln; [discriminate|].
      destruct (Nat.even (S n)); [|reflexivity].
      now rewrite Nat.sub_1_r. }
  split; [exact M|].
  intros B. rewrite M. now apply binary64_statistical_median.
Qed.

(** ** The order of the top 5 list *)

Lemma str_ltb_lt a b : String.ltb a b = true <-> String_as_OT.lt a b.
Proof.
  rewrite <- String_as_OT.cmp_lt. unfold String.ltb, String_as_OT.cmp.
  destruct (String.compare a b); split; congruence.
Qed.

Lemma str_ltb_irrefl a : String.ltb a a = false.
Proof.
  destruct (String.ltb a a) eqn:E; [|reflexivity].
  apply str_ltb_lt in E. apply String_as_OT.lt_not_eq in E.
  exfalso. apply E. reflexivity.
Qed.

Lemma str_ltb_trans a b c :
  String.ltb a b = true -> String.ltb b c = true -> String.ltb a c = true.
Proof.
  rewrite !str_ltb_lt. apply String_as_OT.lt_trans.
Qed.

Lemma str_trichotomy a b :
  a = b \/ String.ltb a b = true \/ String.ltb b a = true.
Proof.
  unfold String.ltb. pose proof (String_as_OT.cmp_antisym b a) as A.
  pose proof (String_as_OT.cmp_eq a b) as Q.
  unfold String_as_OT.cmp in A, Q. rewrite A.
  destruct (String.compare a b); simpl; auto.
  left. now apply Q.
Qed.

Lemma outranks_iff w f w' f' :
  outranks (w, f) (w', f') <-> f' < f \/ (f = f' /\ String.ltb w w' = true).
Proof.
  unfold outranks, key_lt. simpl.
  rewrite orb_true_iff, andb_true_iff, Z.ltb_lt, Z.eqb_eq.
  split; (intros [H|[H1 H2]]; [left; lia|right; split; [lia|assumption]]).
Qed.

Lemma outranks_irrefl a : ~ outranks a a.
Proof.
  destruct a as [w f]. rewrite outranks_iff, str_ltb_irrefl.
  intros [H|[_ H]]; [lia|discriminate].
Qed.

Lemma outranks_trans a b c : outranks a b -> outranks b c -> outranks a c.
Proof.
  destruct a as [w1 f1], b as [w2 f2], c as [w3 f3].
  rewrite !outranks_iff. intros [H1|[E1 L1]] [H2|[E2 L2]]; try (left; lia).
  right. split; [lia|]. now apply (str_ltb_trans w1 w2 w3).
Qed.

Lemma outranks_total a b : a = b \/ outranks a b \/ outranks b a.
Proof.
  destruct a as [w1 f1], b as [w2 f2]. rewrite !outranks_iff.
  destruct (Z.lt_trichotomy f1 f2) as [H|[->|H]]; [lia| |lia].
  destruct (str_trichotomy w1 w2) as [->|[H|H]]; auto.
Qed.

Lemma outranks_asym a b : outranks a b -> ~ outranks b a.
Proof.
  intros H1 H2. apply (outranks_irrefl a). now apply (outranks_trans a b a).
Qed.

Lemma key_lt_false a b : key_lt a b = false <-> a = b \/ outranks b a.
Proof.
  split.
  - intros H. destruct (outranks_total a b) as [E|[O|O]]; auto.
    unfold outranks in O. congruence.
  - intros [->|O].
    + pose proof (outranks_irrefl b) as N. unfold outranks in N.
      now destruct (key_lt b b).
    + pose proof (outranks_asym b a O) as N. unfold outranks in N.
      now destruct (key_lt a b).
Qed.

Lemma key_lt_asym a b : key_lt a b = true -> key_lt b a = false.
Proof. intros H. apply key_lt_false. now right. Qed.

Lemma key_not_after_trans a b c :
  not_after key_lt a b -> not_after key_lt b c -> not_after key_lt a c.
Proof.
  unfold not_after. rewrite !key_lt_false.
  intros [->|H1] [->|H2]; auto. right. now apply (outranks_trans a b c).
Qed.

(** Sorting items that are pairwise different sorts them strictly. *)
Lemma sort_key_strict l :
  NoDup l -> StronglySorted outranks (sort key_lt l).
Proof.
  intros ND.
  assert (ND' : NoDup (sort key_lt l)).
  { apply (Permutation_NoDup (l := l)); [|assumption].
    symmetry. apply sort_perm. }
  pose proof (sort_sorted key_lt key_lt_asym key_not_after_trans l) as S.
  induction S as [|a s S IH F]; [constructor|].
  inversion ND' as [|? ? Ha NDs]; subst.
  constructor; [now apply IH|].
  rewrite Forall_forall in *. intros b I. specialize (F b I).
  unfold not_after in F. apply key_lt_false in F as [->|F]; [contradiction|].
  exact F.
Qed.

Lemma strict_sorted_NoDup l : StronglySorted outranks l -> NoDup l.
Proof.
  induction 1 as [|a l S IH F]; constructor; [|assumption].
  intros I. rewrite Forall_forall in F.
  now apply (outranks_irrefl a), F.
Qed.

Lemma StronglySorted_app_inv {A} (R : A -> A -> Prop) l1 l2 :
  StronglySorted R (l1 ++ l2) ->
  StronglySorted R l1 /\ StronglySorted R l2
  /\ forall a b, In a l1 -> In b l2 -> R a b.
Proof.
  induction l1 as [|x l1 IH]; simpl; intros S.
  - split; [constructor|split; [assumption|contradiction]].
  - apply StronglySorted_inv in S as [S F]. destruct (IH S) as [S1 [S2 C]].
    rewrite Forall_forall in F.
    split; [|split; [assumption|]].
    + constructor; [assumption|]. rewrite Forall_forall.
      intros y I. apply F, in_or_app. now left.
    + intros a b [<-|Ia] Ib; [|auto]. apply F, in_or_app. now right.
Qed.

(** Strictly sorted lists with the same items are equal. *)
Lemma strict_sorted_unique l1 l2 :
  StronglySorted outranks l1 -> StronglySorted outranks l2 ->
  (forall e, In e l1 <-> In e l2) -> l1 = l2.
Proof.
  intros S1 S2 H.
  apply (sorted_perm_unique (fun a b => a = b \/ outranks a b)).
  - intros a. now left.
  - intros a b [E|O1] [E'|O2]; auto. now destruct (outranks_asym a b).
  - apply (StronglySorted_weaken outranks); [intros; now right|assumption].
  - apply (StronglySorted_weaken outranks); [intros; now right|assumption].
  - apply NoDup_Permutation; auto using strict_sorted_NoDup.
Qed.

(** ** The top 5 of a set of items *)

Lemma full_rebuild_is_top5 X :
  NoDup X -> is_top5 (fun e => In e X) (full_rebuild X).
Proof.
  intros ND. unfold full_rebuild.
  pose proof (sort_key_strict X ND) as S.
  rewrite <- (firstn_skipn 5 (sort key_lt X)) in S.
  apply StronglySorted_app_inv in S as [S1 [_ C]].
  assert (Sub : forall e, In e (firstn 5 (sort key_lt X)) -> In e X).
  { intros e I. apply (sort_In key_lt). rewrite <- (firstn_skipn 5).
    apply in_or_app. now left. }
  constructor; [assumption|assumption| |].
  - rewrite length_firstn. lia.
  - intros e I N.
    assert (Is : In e (skipn 5 (sort key_lt X))).
    { apply (sort_In key_lt) in I. rewrite <- (firstn_skipn 5) in I.
      apply in_app_or in I as [I|I]; [contradiction|assumption]. }
    split; [|intros e' I'; now apply C].
    rewrite length_firstn.
    assert (0 < List.length (skipn 5 (sort key_lt X)))%nat
      by (destruct (skipn 5 (sort key_lt X)); [contradiction|simpl; lia]).
    rewrite length_skipn in *. lia.
Qed.

Lemma incl_or_missing (l1 l2 : list (string * Z)) :
  incl l1 l2 \/ exists x, In x l1 /\ ~ In x l2.
Proof.
  induction l1 as [|a l1 IH].
  - left. intros x [].
  - destruct (in_dec item_dec a l2) as [I|N].
    + destruct IH as [H|[x [I1 N2]]].
      * left. intros x [<-|Hx]; auto.
      * right. exists x. split; [now right|assumption].
    + right. exists a. split; [now left|assumption].
Qed.

Lemma is_top5_incl V L1 L2 :
  is_top5 V L1 -> is_top5 V L2 -> incl L1 L2.
Proof.
  intros [S1 So1 Le1 Co1] [S2 So2 Le2 Co2] e I.
  destruct (in_dec item_dec e L2) as [|N]; [assumption|exfalso].
  destruct (Co2 e (So1 e I) N) as [Len2 Out2].
  destruct (incl_or_missing L2 L1) as [Inc|[x [Ix Nx]]].
  - apply N.
    assert (Hle : (List.length L1 <= List.length L2)%nat) by lia.
    exact (@NoDup_length_incl _ L2 L1 (strict_sorted_NoDup L2 S2) Hle Inc e I).
  - destruct (Co1 x (So2 x Ix) Nx) as [_ Out1].
    apply (outranks_asym e x); auto.
Qed.

Lemma is_top5_unique V L1 L2 : is_top5 V L1 -> is_top5 V L2 -> L1 = L2.
Proof.
  intros H1 H2. apply strict_sorted_unique.
  - apply H1.
  - apply H2.
  - intros e. split; [apply (is_top5_incl V L1 L2)|apply (is_top5_incl V L2 L1)];
      assumption.
Qed.

Lemma is_top5_ext V V' L :
  (forall e, V e <-> V' e) -> is_top5 V L -> is_top5 V' L.
Proof.
  intros E [S So Le Co]. constructor; try assumption.
  - intros e I. now apply E, So.
  - intros e He. apply Co. now apply E.
Qed.

(** ** One word of the incremental update *)

Lemma should_be_in_top5_key word freq cur :
  _should_be_in_top5 word freq cur
  = ((List.length cur <? 5)%nat
     || match nth_error cur 4 with
        | Some e5 => key_lt (word, freq) e5
        | None => false
        end).
Proof.
  unfold _should_be_in_top5, key_lt.
  destruct (List.length cur <? 5)%nat; [reflexivity|]. cbn [orb].
  destruct (nth_error cur 4) as [[w5 f5]|]; [|reflexivity]. cbn [fst snd].
  destruct (Z.gtb_spec freq f5), (Z.ltb_spec (- freq) (- f5)),
    (Z.eqb_spec freq f5), (Z.eqb_spec (- freq) (- f5)); try lia; simpl;
    try reflexivity.
  now destruct (String.ltb word w5).
Qed.

Lemma sorted_last_outranked (cur : list (string * Z)) : forall i x,
  StronglySorted outranks cur ->
  nth_error cur i = Some x -> List.length cur = S i ->
  forall e, In e cur -> e = x \/ outranks e x.
Proof.
  induction cur as [|a cur IH]; intros i x S N L e I; [contradiction|].
  apply StronglySorted_inv in S as [S F]. rewrite Forall_forall in F.
  destruct i as [|i]; simpl in N, L.
  - destruct cur; [|discriminate]. destruct I as [<-|[]]. left. congruence.
  - destruct I as [<-|I].
    + right. apply F. now apply nth_error_In in N.
    + apply (IH i x); auto.
Qed.

Lemma filter_all {A} (p : A -> bool) l :
  (forall x, In x l -> p x = true) -> filter p l = l.
Proof.
  induction l as [|x l IH]; intros H; simpl; [reflexivity|].
  rewrite (H x) by now left. f_equal. apply IH. intros y I. apply H. now right.
Qed.

Lemma filter_word_length (cur : list (string * Z)) w :
  NoDup (map fst cur) ->
  (List.length cur
   <= S (List.length
           (filter (fun x => negb (String.eqb (fst x) w)) cur)))%nat.
Proof.
  induction cur as [|a cur IH]; intros ND; simpl; [lia|].
  inversion ND as [|? ? Ha ND']; subst.
  destruct (String.eqb_spec (fst a) w) as [E|N]; simpl.
  - rewrite filter_all; [lia|].
    intros x I. destruct (String.eqb_spec (fst x) w) as [E'|]; [|reflexivity].
    exfalso. apply Ha. rewrite E, <- E'. now apply in_map.
  - specialize (IH ND'). lia.
Qed.

Lemma should_false_last w f cur :
  (List.length cur <= 5)%nat -> _should_be_in_top5 w f cur = false ->
  List.length cur = 5%nat
  /\ exists e5, nth_error cur 4 = Some e5
                /\ ((w, f) = e5 \/ outranks e5 (w, f)).
Proof.
  intros L H. rewrite should_be_in_top5_key in H.
  apply orb_false_iff in H as [H1 H2]. apply Nat.ltb_ge in H1.
  split; [lia|].
  destruct (nth_error cur 4) as [e5|] eqn:N.
  - exists e5. split; [reflexivity|]. now apply key_lt_false.
  - apply nth_error_None in N. lia.
Qed.

Lemma should_true_last w f cur :
  List.length cur = 5%nat -> _should_be_in_top5 w f cur = true ->
  exists e5, nth_error cur 4 = Some e5 /\ outranks (w, f) e5.
Proof.
  intros L H. rewrite should_be_in_top5_key in H.
  apply orb_true_iff in H as [H|H]; [apply Nat.ltb_lt in H; lia|].
  destruct (nth_error cur 4) as [e5|]; [|discriminate]. now exists e5.
Qed.

Lemma higher_count_outranks w f e : fst e = w -> snd e < f -> outranks (w, f) e.
Proof.
  destruct e as [w' f']. simpl. intros -> H. apply outranks_iff. now left.
Qed.

Section ReconcileWord.
Variable V : string * Z -> Prop.
Variable cur : list (string * Z).
Variables (w : string) (f : Z).
Hypothesis cur_top5 : is_top5 V cur.
Hypothesis V_functional : functional V.
Hypothesis count_grew : forall e, V e -> fst e = w -> snd e < f.

(** A word that does not qualify is not among the top 5 of the items that
    hold its new count, and the list is left as it is. *)
Lemma reconcile_skip :
  _should_be_in_top5 w f cur = false -> is_top5 (with_item V w f) cur.
Proof.
  intros H. destruct cur_top5 as [S So Le Co].
  destruct (should_false_last w f cur Le H) as [L5 [e5 [N5 R5]]].
  pose proof (sorted_last_outranked cur 4 e5 S N5 L5) as Last.
  assert (No : ~ outranks (w, f) e5).
  { destruct R5 as [<-|O]; [apply outranks_irrefl|now apply outranks_asym]. }
  constructor; [assumption| |assumption|].
  - intros e I. right. split; [|auto].
    intros E. apply No.
    pose proof (higher_count_outranks w f e E (count_grew e (So e I) E)) as O.
    destruct (Last e I) as [<-|O']; [assumption|].
    now apply (outranks_trans _ e).
  - intros e [->|[Ne Ve]] Ni; [|now apply Co].
    split; [assumption|]. intros e' I'.
    destruct R5 as [<-|O].
    + exfalso. apply Ni. now apply nth_error_In in N5.
    + destruct (Last e' I') as [->|O']; [assumption|].
      now apply (outranks_trans _ e5).
Qed.

(** A word that qualifies is put at its place among the top 5. *)
Lemma reconcile_insert :
  _should_be_in_top5 w f cur = true ->
  is_top5 (with_item V w f) (_insert_or_update_in_top5 w f cur).
Proof.
  intros H. destruct cur_top5 as [S So Le Co].
  unfold _insert_or_update_in_top5.
  set (kept := filter (fun x => negb (String.eqb (fst x) w)) cur).
  set (X := kept ++ [(w, f)]).
  fold (full_rebuild X).
  assert (Kept : forall e, In e kept <-> In e cur /\ fst e <> w).
  { intros e. unfold kept. rewrite filter_In, negb_true_iff.
    now destruct (String.eqb_spec (fst e) w). }
  assert (InX : forall e, In e X <-> (In e cur /\ fst e <> w) \/ e = (w, f)).
  { intros e. unfold X. rewrite in_app_iff, Kept. simpl.
    intuition congruence. }
  assert (NDX : NoDup X).
  { apply NoDup_app.
    - apply NoDup_filter. now apply strict_sorted_NoDup.
    - repeat constructor. simpl. tauto.
    - intros e Ik [<-|[]]. apply Kept in Ik as [_ Ne]. now apply Ne. }
  destruct (full_rebuild_is_top5 X NDX) as [S' So' Le' Co'].
  constructor; [assumption| |assumption|].
  - intros e I. apply So', InX in I. destruct I as [[I Ne] | ->].
    + right. auto.
    + now left.
  - intros e Ve Ni.
    destruct (in_dec item_dec e X) as [Ix|Nx]; [now apply Co'|].
    destruct Ve as [->|[Ne Ve]].
    { exfalso. apply Nx, InX. now right. }
    assert (Nc : ~ In e cur).
    { intros I. apply Nx, InX. left. auto. }
    destruct (Co e Ve Nc) as [L5 Out].
    destruct (should_true_last w f cur L5 H) as [e5 [N5 O5]].
    assert (OutX : forall x, In x X -> outranks x e).
    { intros x Hx. apply InX in Hx. destruct Hx as [[I _] | ->]; [auto|].
      apply (outranks_trans _ e5); [assumption|].
      apply Out. now apply nth_error_In in N5. }
    split; [|intros e' I'; apply OutX, So', I'].
    unfold full_rebuild. rewrite length_firstn, sort_length.
    assert (NDk : NoDup (map fst cur)).
    { apply NoDup_map_NoDup_ForallPairs; [|now apply strict_sorted_NoDup].
      intros a b Ia Ib E. apply V_functional; auto. }
    pose proof (filter_word_length cur w NDk) as Lk. fold kept in Lk.
    unfold X. rewrite length_app. cbn [List.length]. lia.
Qed.

Lemma with_item_functional : functional (with_item V w f).
Proof.
  intros a b [->|[Na Va]] [->|[Nb Vb]] E; simpl in *;
    try reflexivity; try congruence. now apply V_functional.
Qed.
End ReconcileWord.

(** ** The loop of the incremental update *)

Section Reconcile.
Variables wc wc' : dict string Z.
Variable changed : list string.
Hypothesis keys_old : NoDup (map fst wc).
Hypothesis keys_new : NoDup (map fst wc').
Hypothesis grew :
  forall w v, In w changed -> In (w, v) wc -> v < counter_get wc' w.
Hypothesis present :
  forall w, In w changed -> In (w, counter_get wc' w) wc'.
Hypothesis unchanged :
  forall e, ~ In (fst e) changed -> (In e wc <-> In e wc').

Variable self : Analyzer.
Hypothesis self_counts : word_counts self = wc'.

Lemma same_key_same_item (d : dict string Z) a b :
  NoDup (map fst d) -> In a d -> In b d -> fst a = fst b -> a = b.
Proof.
  intros ND Ia Ib E. destruct a as [k v], b as [k' v']. simpl in E. subst k'.
  apply (In_dict_lookup _ String.eqb_spec _ _ _ ND) in Ia, Ib. congruence.
Qed.

Lemma mixed_functional done : functional (mixed wc wc' done).
Proof.
  intros a b [[Da Ia]|[Da Ia]] [[Db Ib]|[Db Ib]] E;
    try (rewrite E in Da; contradiction).
  - now apply (same_key_same_item wc').
  - now apply (same_key_same_item wc).
Qed.

Lemma mixed_step done w e :
  In w changed -> ~ In w done ->
  with_item (mixed wc wc' done) w (counter_get wc' w) e
  <-> mixed wc wc' (done ++ [w]) e.
Proof.
  intros Hc Hd. unfold with_item, mixed. rewrite in_app_iff. simpl.
  split.
  - intros [->|[Ne [[D I]|[D I]]]].
    + left. simpl. split; [auto|now apply present].
    + left. auto.
    + right. split; [|assumption]. intros [?|[?|[]]]; auto.
  - intros [[[D|[E|[]]] I]|[D I]].
    + destruct (string_dec (fst e) w) as [E|Ne].
      * left. apply (same_key_same_item wc'); auto.
      * right. auto.
    + left. apply (same_key_same_item wc'); auto.
    + right. split; [intros E; apply D; auto|].
      right. split; [|assumption]. intros I'. apply D. auto.
Qed.

Lemma reconcile_loop todo : forall done cur,
  NoDup (done ++ todo) -> incl todo changed ->
  is_top5 (mixed wc wc' done) cur ->
  is_top5 (mixed wc wc' (done ++ todo)) (reconcile self todo cur).
Proof.
  unfold reconcile.
  induction todo as [|w todo IH]; intros done cur ND Inc H; simpl.
  - now rewrite app_nil_r.
  - assert (Hc : In w changed) by (apply Inc; now left).
    assert (Hd : ~ In w done).
    { intros I. apply NoDup_remove_2 in ND. apply ND, in_or_app. now left. }
    replace (done ++ w :: todo) with ((done ++ [w]) ++ todo) in *
      by (now rewrite <- app_assoc).
    apply IH; [assumption|intros x I; apply Inc; now right|].
    apply (is_top5_ext _ _ _ (fun e => mixed_step done w e Hc Hd)).
    assert (G : forall e, mixed wc wc' done e -> fst e = w ->
                          snd e < counter_get wc' w).
    { intros [k v] [[D _]|[_ I]] E; simpl in *; subst k;
        [contradiction|now apply grew]. }
    unfold reconcile_word. rewrite self_counts.
    destruct (_should_be_in_top5 w (counter_get wc' w) cur) eqn:Sh.
    + apply reconcile_insert; auto using mixed_functional.
    + apply reconcile_skip; auto.
Qed.

(** The whole loop: from the top 5 of the old counts to the top 5 of the
    new ones, in whatever order the changed words come. *)
Lemma reconcile_all order cur :
  NoDup changed -> Permutation order changed ->
  is_top5 (fun e => In e wc) cur ->
  is_top5 (fun e => In e wc') (reconcile self order cur).
Proof.
  intros ND P H.
  assert (Start : is_top5 (mixed wc wc' []) cur).
  { apply (is_top5_ext (fun e => In e wc)); [|assumption].
    intros e. unfold mixed. simpl. tauto. }
  apply (reconcile_loop order [] cur) in Start.
  - apply (is_top5_ext (mixed wc wc' ([] ++ order))); [|assumption].
    intros e. unfold mixed. simpl. split.
    + intros [[_ I]|[D I]]; [assumption|]. apply unchanged; [|assumption].
      intros I'. apply D. now apply (Permutation_in _ (Permutation_sym P)).
    + intros I. destruct (in_dec string_dec (fst e) order) as [D|D]; auto.
      right. split; [assumption|]. apply unchanged; [|assumption].
      intros I'. apply D. now apply (Permutation_in _ (Permutation_sym P)).
  - simpl. now apply (Permutation_NoDup (Permutation_sym P)).
  - intros x I. now apply (Permutation_in _ P).
Qed.
End Reconcile.

(** ** The words a batch changes *)

Lemma set_add_In x w s : In x (set_add w s) <-> x = w \/ In x s.
Proof.
  unfold set_add. destruct (existsb (String.eqb w) s) eqn:E.
  - split; [auto|]. intros [->|I]; [|assumption].
    apply existsb_exists in E as [y [I Ey]].
    apply String.eqb_eq in Ey. now subst.
  - rewrite in_app_iff. simpl. intuition congruence.
Qed.

Lemma set_add_NoDup w s : NoDup s -> NoDup (set_add w s).
Proof.
  intros ND. unfold set_add. destruct (existsb (String.eqb w) s) eqn:E;
    [assumption|].
  apply NoDup_app; [assumption|repeat constructor; simpl; tauto|].
  intros x I [->|[]].
  assert (T : existsb (String.eqb x) s = true); [|congruence].
  apply existsb_exists. exists x. split; [assumption|apply String.eqb_refl].
Qed.

Lemma tally_changed_gen words : forall t,
  t_changed (fold_left count_word words t)
  = fold_left (fun s w => set_add w s) words (t_changed t).
Proof.
  induction words as [|w words IH]; intros t; [reflexivity|].
  cbn [fold_left]. now rewrite IH, count_word_changed.
Qed.

Lemma set_adds_In words : forall s x,
  In x (fold_left (fun s w => set_add w s) words s) <-> In x words \/ In x s.
Proof.
  induction words as [|w words IH]; intros s x; simpl; [tauto|].
  rewrite IH, set_add_In. intuition congruence.
Qed.

Lemma set_adds_NoDup words : forall s,
  NoDup s -> NoDup (fold_left (fun s w => set_add w s) words s).
Proof.
  induction words as [|w words IH]; intros s ND; simpl; [assumption|].
  apply IH. now apply set_add_NoDup.
Qed.

Lemma tally_changed_In self words x :
  In x (t_changed (tally self words)) <-> In x words.
Proof.
  unfold tally. rewrite tally_changed_gen, set_adds_In. simpl. tauto.
Qed.

Lemma tally_changed_NoDup self words : NoDup (t_changed (tally self words)).
Proof.
  unfold tally. rewrite tally_changed_gen. apply set_adds_NoDup. constructor.
Qed.

Lemma increments_keys words : forall c,
  NoDup (map fst c) -> NoDup (map fst (fold_left increment words c)).
Proof.
  induction words as [|w words IH]; intros c ND; simpl; [assumption|].
  apply IH. now apply (dict_set_NoDup _ String.eqb_spec).
Qed.

Lemma counter_get_increments words : forall c w,
  counter_get (fold_left increment words c) w
  = counter_get c w + Z.of_nat (count_occ string_dec words w).
Proof.
  induction words as [|t words IH]; intros c w; simpl; [lia|].
  rewrite IH. destruct (string_dec t w) as [->|N].
  - rewrite counter_get_increment_same. lia.
  - rewrite counter_get_increment_other by assumption. lia.
Qed.

Lemma lookup_increments_other words : forall c k,
  ~ In k words ->
  dict_lookup String.eqb (fold_left increment words c) k
  = dict_lookup String.eqb c k.
Proof.
  induction words as [|t words IH]; intros c k N; simpl; [reflexivity|].
  rewrite IH by (intros I; apply N; now right).
  apply (dict_lookup_set_other _ String.eqb_spec).
  intros E. apply N. now left.
Qed.

Lemma increments_present words : forall c w,
  In w words ->
  In (w, counter_get (fold_left increment words c) w)
     (fold_left increment words c).
Proof.
  induction words as [|t words IH]; intros c w I; [contradiction|]. simpl.
  destruct (in_dec string_dec w words) as [Iw|Nw]; [now apply IH|].
  destruct I as [->|I]; [|contradiction].
  apply (dict_lookup_In _ String.eqb_spec).
  rewrite counter_get_lookup, lookup_increments_other by assumption.
  unfold increment. now rewrite (dict_lookup_set_same _ String.eqb_spec).
Qed.

(** ** The invariant of the top 5 list *)

Lemma firstn_min_length {A} (l : list A) k :
  firstn (Nat.min k (List.length l)) l = firstn k l.
Proof.
  destruct (Nat.le_ge_cases k (List.length l)) as [H|H].
  - now rewrite Nat.min_l.
  - rewrite Nat.min_r by assumption.
    now rewrite firstn_all, firstn_all2.
Qed.

Section TopFive.
Variable set_iter : list string -> list string.
Hypothesis set_iter_perm : forall l, Permutation (set_iter l) l.

Lemma add_words_top_five s self :
  tokens s <> [] ->
  exists self',
    word_counts self' = word_counts (add_words set_iter s self)
    /\ top_five (add_words set_iter s self)
       = match top_five self with
         | [] => full_rebuild (word_counts self')
         | cur =>
             reconcile self'
               (set_iter (t_changed (tally self (tokens s)))) cur
         end.
Proof.
  intros T. rewrite add_words_word_counts, <- tally_counts.
  unfold add_words, add_words_traced.
  pose proof (tally_changed_not_nil self (tokens s) T) as C.
  destruct (tokens s) as [|w ws] eqn:E; [congruence|].
  destruct (t_changed (tally self (w :: ws))) as [|c cs] eqn:Ec; [congruence|].
  exists (mkAnalyzer (t_counts (tally self (w :: ws))) (top_five self)
            (_update_frequency_counts (t_changes (tally self (w :: ws)))
               (freq_list self))
            (t_total (tally self (w :: ws)))).
  split; [reflexivity|].
  unfold _update_top_five_incremental. cbn [top_five].
  destruct (top_five self); reflexivity.
Qed.

Lemma top_inv_add_words s self :
  hist_inv self -> top_inv self -> top_inv (add_words set_iter s self).
Proof.
  intros [_ _ K V _] H. unfold top_inv in *.
  destruct (tokens s) as [|t ts] eqn:T.
  { unfold add_words. now rewrite add_words_no_tokens. }
  assert (N : tokens s <> []) by (rewrite T; discriminate).
  destruct (add_words_top_five s self N) as [self' [W E]].
  rewrite E, <- W. clear E.
  rewrite add_words_word_counts in W.
  pose proof (increments_keys (tokens s) _ K) as K'. rewrite <- W in K'.
  destruct (top_five self) as [|e cur] eqn:Et.
  - apply full_rebuild_is_top5. now apply NoDup_map_inv in K'.
  - rewrite <- Et in *.
    apply (reconcile_all (word_counts self) (word_counts self')
             (t_changed (tally self (tokens s)))); try assumption.
    + intros w v I Iv. apply tally_changed_In in I.
      rewrite W, counter_get_increments.
      apply (In_dict_lookup _ String.eqb_spec _ _ _ K) in Iv.
      rewrite counter_get_lookup, Iv.
      apply (count_occ_In string_dec) in I. lia.
    + intros w I. apply tally_changed_In in I. rewrite W.
      now apply increments_present.
    + intros [k v] I. rewrite tally_changed_In in I. simpl in I.
      pose proof (lookup_increments_other (tokens s) (word_counts self) k I)
        as L. rewrite <- W in L.
      split; intros Hin.
      * apply (dict_lookup_In _ String.eqb_spec). rewrite L.
        now apply (In_dict_lookup _ String.eqb_spec).
      * apply (dict_lookup_In _ String.eqb_spec). rewrite <- L.
        now apply (In_dict_lookup _ String.eqb_spec).
    + reflexivity.
    + apply tally_changed_NoDup.
    + apply set_iter_perm.
Qed.

Lemma top_inv_run ops : top_inv (run set_iter ops).
Proof.
  induction ops as [|o ops IH] using rev_ind.
  - constructor; simpl; [constructor|contradiction|lia|contradiction].
  - rewrite run_snoc. destruct o as [s|]; simpl.
    + apply top_inv_add_words; [apply hist_inv_run|assumption].
    + constructor; simpl; [constructor|contradiction|lia|contradiction].
Qed.

(** C1. After any sequence of batches and resets, whatever the order in
    which the changed words of a batch are visited, the top 5 list is the
    first min(5, number of words) items of the word counts sorted by
    frequency descending, then word ascending; it is the list a full
    rebuild would give; no word occurs in it twice and it has at most 5
    items. *)
Theorem top_five_matches_full_rebuild (ops : list op) :
  let self := run set_iter ops in
  get_top_five_most_frequent self
  = firstn (Nat.min 5 (List.length (word_counts self)))
      (sort key_lt (word_counts self))
  /\ get_top_five_most_frequent self = _build_initial_top5 self
  /\ NoDup (map fst (get_top_five_most_frequent self))
  /\ List.length (get_top_five_most_frequent self)
     = Nat.min 5 (List.length (word_counts self)).
Proof.
  intros self. unfold get_top_five_most_frequent, _build_initial_top5.
  pose proof (top_inv_run ops) as T. fold self in T.
  destruct (hist_inv_run set_iter ops) as [_ _ K _ _]. fold self in K.
  assert (E : top_five self = full_rebuild (word_counts self)).
  { apply (is_top5_unique (fun e => In e (word_counts self))); [exact T|].
    apply full_rebuild_is_top5. now apply NoDup_map_inv in K. }
  unfold full_rebuild in E.
  rewrite <- (sort_length key_lt (word_counts self)), firstn_min_length.
  split; [exact E|]. split; [exact E|]. split.
  - apply NoDup_map_NoDup_ForallPairs; [|apply strict_sorted_NoDup, T].
    intros a b Ia Ib Eab.
    apply (same_key_same_item (word_counts self)); auto; now apply T.
  - rewrite E, length_firstn. reflexivity.
Qed.
End TopFive.

(** ** The scenarios of the specification, run on the model *)

Local Open Scope string_scope.

Lemma reversed_perm l : Permutation (reversed l) l.
Proof. apply Permutation_sym, Permutation_rev. Qed.

Lemma in_order_perm l : Permutation (in_order l) l.
Proof. apply Permutation_refl. Qed.

Example scenario_1 :
  let self := run in_order [AddWords batch1] in
  get_all_frequencies self = [("apple", 2); ("banana", 1); ("cherry", 1)]%string
  /\ get_top_five_most_frequent self
     = [("apple", 2); ("banana", 1); ("cherry", 1)]%string
  /\ get_frequency_counts self = [(2, 1); (1, 2)]
  /\ get_lowest_frequency self = 1
  /\ get_median_frequency self = Some 1%Q.
Proof. vm_compute. repeat split. Qed.

Example scenario_2 :
  let self := run reversed [AddWords batch1; AddWords batch2] in
  get_top_five_most_frequent self
  = [("apple", 2); ("banana", 2); ("cherry", 2);
     ("elderberry", 1); ("fig", 1)]%string
  /\ get_median_frequency self = Some 2%Q.
Proof. vm_compute. repeat split. Qed.

Example scenario_3 :
  get_top_five_most_frequent
    (run reversed [AddWords batch1; AddWords batch2; AddWords batch3])
  = get_top_five_most_frequent
      (run reversed [AddWords batch1; AddWords batch2]).
Proof. vm_compute. reflexivity. Qed.

Example scenario_4 :
  let self := run in_order [AddWords batch1; AddWords batch2; Clear] in
  get_top_five_most_frequent self = []
  /\ get_lowest_frequency self = 0
  /\ get_median_frequency self = Some 0%Q.
Proof. vm_compute. repeat split. Qed.

Example scenario_5 :
  get_frequency_counts
    (run in_order [AddWords "kiwi, kiwi, kiwi"; AddWords "kiwi,kiwi,kiwi,kiwi"])
  = [(7, 1)].
Proof. vm_compute. reflexivity. Qed.

(** The median is a float: a count of 2^53 + 1 reads 9007199254740992.0,
    the average of 2^53 - 2 and 2^53 - 1 reads 9007199254740990.0, and a
    count of 2^1024 raises [OverflowError]. *)
Example median_of_large_counts :
  get_median_frequency (mkAnalyzer [("a", 2 ^ 53 + 1)] [] [] 0)
  = Some (inject_Z 9007199254740992)
  /\ get_median_frequency
       (mkAnalyzer [("a", 2 ^ 53 - 2); ("b", 2 ^ 53 - 1)] [] [] 0)
     = Some (inject_Z 9007199254740990)
  /\ get_median_frequency (mkAnalyzer [("a", 2 ^ 1024)] [] [] 0) = None.
Proof. vm_compute. repeat split. Qed.

(** ** The theorems at concrete inputs *)

Lemma top_five_matches_full_rebuild_witness :
  let self := run reversed [AddWords batch1; AddWords batch2; AddWords batch3] in
  get_top_five_most_frequent self
  = firstn (Nat.min 5 (List.length (word_counts self)))
      (sort key_lt (word_counts self))
  /\ get_top_five_most_frequent self = _build_initial_top5 self
  /\ NoDup (map fst (get_top_five_most_frequent self))
  /\ List.length (get_top_five_most_frequent self)
     = Nat.min 5 (List.length (word_counts self)).
Proof.
  exact (top_five_matches_full_rebuild reversed reversed_perm
           [AddWords batch1; AddWords batch2; AddWords batch3]).
Defined.

Lemma count_fidelity_witness :
  "apple"%string <> EmptyString
  /\ dict_lookup String.eqb
       (get_all_frequencies
          (run in_order [AddWords batch1; AddWords " APPLE ,, fig"]))
       "apple"
     = Some 3.
Proof.
  split; [discriminate|].
  exact (proj1 (count_fidelity in_order
                  [AddWords batch1; AddWords " APPLE ,, fig"] "apple"
                  ltac:(discriminate))).
Defined.

Lemma median_is_statistical_median_witness :
  let self := run in_order [AddWords batch1] in
  Permutation [1; 1; 2] (map snd (word_counts self))
  /\ StronglySorted Z.le [1; 1; 2]
  /\ (forall c, In c [1; 1; 2] -> Z.abs c < 2 ^ 52)
  /\ get_median_frequency self = Some (Qred (statistical_median [1; 1; 2])).
Proof.
  assert (P : Permutation [1; 1; 2]
                (map snd (word_counts (run in_order [AddWords batch1])))).
  { change (Permutation [1; 1; 2] [2; 1; 1]).
    apply (perm_trans (l' := [1; 2; 1])).
    - apply perm_skip, perm_swap.
    - apply perm_swap. }
  assert (S : StronglySorted Z.le [1; 1; 2]).
  { repeat constructor; lia. }
  assert (B : forall c, In c [1; 1; 2] -> Z.abs c < 2 ^ 52).
  { intros c [E|[E|[E|[]]]]; subst c; simpl; lia. }
  split; [exact P|]. split; [exact S|]. split; [exact B|].
  exact (proj2 (median_is_statistical_median _ _ P S) B).
Defined.

Lemma add_words_splits_at_commas_only_witness :
  no_comma "  New York " = true
  /\ Str.truthy (Str.strip "  New York ") = true
  /\ tokens "  New York " = ["new york"%string]
  /\ get_all_frequencies (add_words in_order "  New York " init)
     = [("new york"%string, 1)].
Proof.
  split; [reflexivity|]. split; [reflexivity|].
  exact (proj2 (proj2 (proj2
           (add_words_splits_at_commas_only in_order "  New York ")))
           eq_refl eq_refl).
Defined.

Lemma add_words_blank_is_noop_witness :
  only_empty_fields " , ,," = true
  /\ add_words in_order " , ,," (run in_order [AddWords batch1])
     = run in_order [AddWords batch1].
Proof.
  split; [reflexivity|].
  exact (proj2 (proj2 (proj2 (add_words_blank_is_noop in_order " , ,,"
                                (run in_order [AddWords batch1]))
                         (or_intror (or_intror eq_refl))))).
Defined.

Local Close Scope string_scope.

(** * Further properties of the code *)

(** ** The total number of words *)

Lemma tally_total_gen words : forall t,
  t_total (fold_left count_word words t)
  = t_total t + Z.of_nat (List.length words).
Proof.
  induction words as [|w words IH]; intros t; cbn [fold_left List.length].
  - lia.
  - rewrite IH. unfold count_word. cbn [t_total]. lia.
Qed.

Lemma add_words_total set_iter s self :
  total_words (add_words set_iter s self)
  = total_words self + Z.of_nat (List.length (tokens s)).
Proof.
  unfold add_words, add_words_traced.
  destruct (tokens s) as [|w ws] eqn:T; [simpl; lia|].
  assert (E : t_total (tally self (w :: ws))
              = total_words self + Z.of_nat (List.length (w :: ws))).
  { unfold tally. now rewrite tally_total_gen. }
  destruct (t_changed (tally self (w :: ws))); [exact E|].
  unfold _update_top_five_incremental. cbn [top_five].
  destruct (top_five self); exact E.
Qed.

Lemma zsum_app l1 l2 : zsum (l1 ++ l2) = zsum l1 + zsum l2.
Proof.
  induction l1 as [|x l1 IH]; simpl; [reflexivity|]. rewrite IH. lia.
Qed.

Lemma zsum_dict_set c w v :
  zsum (map snd (dict_set String.eqb c w v))
  = zsum (map snd c) - counter_get c w + v.
Proof.
  unfold counter_get, dict_get.
  induction c as [|[k x] c IH]; cbn [dict_set dict_lookup].
  - simpl. lia.
  - destruct (String.eqb k w); cbn [map snd zsum fold_right].
    + lia.
    + fold (zsum (map snd (dict_set String.eqb c w v))).
      fold (zsum (map snd c)). rewrite IH. lia.
Qed.

Lemma zsum_increments words : forall c,
  zsum (map snd (fold_left increment words c))
  = zsum (map snd c) + Z.of_nat (List.length words).
Proof.
  induction words as [|w words IH]; intros c; cbn [fold_left List.length].
  - lia.
  - rewrite IH. unfold increment. rewrite zsum_dict_set. lia.
Qed.

(** X1. [total_words] counts the tokens: in every reachable state it is the
    sum of the counts of all words, and it is the number of tokens of the
    batches ingested since construction or the last [clear]. *)
Theorem total_words_is_sum_of_counts set_iter (ops : list op) :
  let self := run set_iter ops in
  total_words self = zsum (map snd (word_counts self))
  /\ total_words self
     = Z.of_nat (List.length (flat_map tokens (batches_since_reset ops))).
Proof.
  induction ops as [|o ops [IH1 IH2]] using rev_ind; [split; reflexivity|].
  cbv zeta. rewrite run_snoc. destruct o as [s|]; cbn [step].
  - rewrite add_words_total, add_words_word_counts, zsum_increments.
    rewrite batches_snoc_add, flat_map_app, length_app. simpl flat_map.
    rewrite app_nil_r. split; lia.
  - rewrite batches_snoc_clear. split; reflexivity.
Qed.

Lemma reported_word_count_tokens s :
  reported_word_count s = List.length (tokens s).
Proof. unfold reported_word_count, tokens. now rewrite length_map. Qed.

(** X2. The number of words the interactive front end reports as added after
    a batch is the number by which [add_words] raised [total_words], and the
    number by which the sum of all counts grew; this holds in any state. *)
Theorem reported_count_is_what_was_added set_iter (s : string)
  (self : Analyzer) :
  total_words (add_words set_iter s self)
  = total_words self + Z.of_nat (reported_word_count s)
  /\ zsum (map snd (word_counts (add_words set_iter s self)))
     = zsum (map snd (word_counts self)) + Z.of_nat (reported_word_count s).
Proof.
  rewrite reported_word_count_tokens, add_words_total, add_words_word_counts.
  split; [reflexivity|apply zsum_increments].
Qed.

(** ** The histogram recomputed from the word counts *)

Lemma StronglySorted_map {A B} (f : A -> B) (R : B -> B -> Prop) l :
  StronglySorted (fun a b => R (f a) (f b)) l -> StronglySorted R (map f l).
Proof.
  induction 1 as [|a l S IH F]; simpl; constructor; [assumption|].
  rewrite Forall_forall in *. intros y I.
  apply in_map_iff in I as [x [<- I]]. auto.
Qed.

Lemma sort_gtb_descending l : StronglySorted Z.ge (sort Z.gtb l).
Proof.
  apply (StronglySorted_weaken (not_after Z.gtb)).
  - unfold not_after. intros a b H. destruct (Z.gtb_spec b a); [discriminate|lia].
  - apply (sort_sorted Z.gtb).
    + intros a b H. destruct (Z.gtb_spec a b); [|discriminate].
      destruct (Z.gtb_spec b a); [lia|reflexivity].
    + unfold not_after. intros a b c H1 H2.
      destruct (Z.gtb_spec b a); [discriminate|].
      destruct (Z.gtb_spec c b); [discriminate|].
      destruct (Z.gtb_spec c a); [lia|reflexivity].
Qed.

Lemma In_distinct_frequencies wc f :
  In f (distinct_frequencies wc) <-> exists w, In (w, f) wc.
Proof.
  unfold distinct_frequencies. rewrite sort_In, nodup_In, in_map_iff. split.
  - intros [[w v] [E I]]. simpl in E. subst v. now exists w.
  - intros [w I]. now exists (w, f).
Qed.

Lemma hist_frequencies self :
  hist_inv self ->
  map frequency (freq_list self) = distinct_frequencies (word_counts self).
Proof.
  intros [D P K V C]. apply (sorted_perm_unique Z.ge).
  - intros a. lia.
  - intros a b. lia.
  - apply StronglySorted_map.
    apply (StronglySorted_weaken (fun a b => frequency a > frequency b));
      [intros; lia|exact D].
  - apply sort_gtb_descending.
  - apply NoDup_Permutation.
    + now apply descending_NoDup.
    + unfold distinct_frequencies.
      apply (Permutation_NoDup (l := nodup Z.eq_dec (map snd (word_counts self)))).
      * symmetry. apply sort_perm.
      * apply NoDup_nodup.
    + intros f. rewrite In_distinct_frequencies, <- words_with_pos, <- C.
      rewrite in_map_iff. split.
      * intros [n [<- I]]. rewrite node_count_In by assumption. now apply P.
      * intros H. destruct (node_count_present (freq_list self) f) as [n [I [F _]]];
          [lia|]. now exists n.
Qed.

Lemma hist_node_counts self n :
  hist_inv self -> In n (freq_list self) ->
  count n = words_with (word_counts self) (frequency n).
Proof. intros [D _ _ _ C] I. now rewrite <- C, node_count_In. Qed.

(** X3. In every reachable state the histogram read by
    [get_frequency_counts] is the one a brute-force pass over the word counts
    gives: one pair per distinct frequency held by a word, highest frequency
    first, with the number of words holding it. *)
Theorem frequency_counts_match_brute_force set_iter (ops : list op) :
  get_frequency_counts (run set_iter ops)
  = brute_histogram (word_counts (run set_iter ops)).
Proof.
  pose proof (hist_inv_run set_iter ops) as H.
  unfold get_frequency_counts, brute_histogram.
  rewrite <- (hist_frequencies _ H), map_map.
  apply map_ext_in. intros n I. now rewrite (hist_node_counts _ n H I).
Qed.

Lemma zsum_weighted_absent v F :
  ~ In v F -> zsum (map (fun f => f * indicator (v =? f)) F) = 0.
Proof.
  induction F as [|g F IH]; intros N; simpl; [reflexivity|].
  rewrite IH by (intros I; apply N; now right).
  destruct (Z.eqb_spec v g) as [->|_]; [|unfold indicator; lia].
  exfalso. apply N. now left.
Qed.

Lemma zsum_weighted_present v F :
  NoDup F -> In v F -> zsum (map (fun f => f * indicator (v =? f)) F) = v.
Proof.
  induction 1 as [|g F Hg ND IH]; intros I; [contradiction|]. simpl.
  destruct I as [->|I].
  - rewrite Z.eqb_refl, zsum_weighted_absent by assumption.
    unfold indicator. lia.
  - rewrite IH by assumption.
    destruct (Z.eqb_spec v g) as [->|_]; [contradiction|unfold indicator; lia].
Qed.

Lemma zsum_weighted_words_with wc F :
  NoDup F -> (forall e, In e wc -> In (snd e) F) ->
  zsum (map (fun f => f * words_with wc f) F) = zsum (map snd wc).
Proof.
  intros ND. induction wc as [|e wc IH]; intros H.
  - clear. induction F as [|f F IH]; simpl; [reflexivity|].
    rewrite IH. unfold words_with. simpl. lia.
  - assert (E : zsum (map (fun f => f * words_with (e :: wc) f) F)
                = zsum (map (fun f => f * indicator (snd e =? f)) F)
                  + zsum (map (fun f => f * words_with wc f) F)).
    { clear. induction F as [|f F IH]; simpl; [reflexivity|].
      rewrite IH, words_with_cons. lia. }
    rewrite E, IH by (intros x I; apply H; now right).
    rewrite zsum_weighted_present; [|assumption|apply H; now left].
    simpl. lia.
Qed.

Lemma run_total_words set_iter ops :
  total_words (run set_iter ops)
  = zsum (map snd (word_counts (run set_iter ops))).
Proof.
  induction ops as [|o ops IH] using rev_ind; [reflexivity|].
  rewrite run_snoc. destruct o as [s|]; cbn [step]; [|reflexivity].
  rewrite add_words_total, add_words_word_counts, zsum_increments. lia.
Qed.

(** X4. In every reachable state the histogram accounts for every token: the
    sum over its nodes of frequency times count is [total_words]. *)
Theorem histogram_weighs_total_words set_iter (ops : list op) :
  zsum (map (fun n => frequency n * count n) (freq_list (run set_iter ops)))
  = total_words (run set_iter ops).
Proof.
  pose proof (hist_inv_run set_iter ops) as H.
  rewrite run_total_words.
  rewrite <- (zsum_weighted_words_with (word_counts (run set_iter ops))
                (map frequency (freq_list (run set_iter ops)))).
  - rewrite map_map. f_equal. apply map_ext_in.
    intros n I. now rewrite (hist_node_counts _ n H I).
  - apply descending_NoDup, H.
  - intros [w v] I. rewrite (hist_frequencies _ H).
    apply In_distinct_frequencies. now exists w.
Qed.

(** ** The state as a function of the tokens *)

Lemma word_counts_run set_iter ops :
  word_counts (run set_iter ops)
  = fold_left increment (tokens_since_reset ops) [].
Proof.
  unfold tokens_since_reset.
  induction ops as [|o ops IH] using rev_ind; [reflexivity|].
  rewrite run_snoc. destruct o as [s|]; cbn [step].
  - rewrite add_words_word_counts, batches_snoc_add, flat_map_app, fold_left_app.
    rewrite IH. simpl flat_map. now rewrite app_nil_r.
  - now rewrite batches_snoc_clear.
Qed.

Lemma node_eta n : mkNode (frequency n) (count n) = n.
Proof. now destruct n. Qed.

Lemma hist_canonical self :
  hist_inv self ->
  freq_list self
  = map (fun f => mkNode f (words_with (word_counts self) f))
      (distinct_frequencies (word_counts self)).
Proof.
  intros H. rewrite <- (hist_frequencies _ H), map_map.
  rewrite <- (map_id (freq_list self)) at 1.
  apply map_ext_in. intros n I.
  now rewrite <- (hist_node_counts _ n H I), node_eta.
Qed.

Section Canonical.
Variable set_iter : list string -> list string.
Hypothesis set_iter_perm : forall l, Permutation (set_iter l) l.

Lemma run_top_five ops :
  top_five (run set_iter ops) = full_rebuild (word_counts (run set_iter ops)).
Proof.
  apply (is_top5_unique (fun e => In e (word_counts (run set_iter ops)))).
  - now apply top_inv_run.
  - apply full_rebuild_is_top5.
    apply (NoDup_map_inv fst), (hist_inv_run set_iter ops).
Qed.

Lemma run_canonical ops :
  run set_iter ops = state_of_counts (word_counts (run set_iter ops)).
Proof.
  pose proof (run_top_five ops) as T.
  pose proof (hist_canonical _ (hist_inv_run set_iter ops)) as F.
  pose proof (run_total_words set_iter ops) as W.
  destruct (run set_iter ops) as [wc top fl tw]. simpl in *.
  unfold state_of_counts. congruence.
Qed.

Lemma run_of_tokens ops ops' :
  tokens_since_reset ops = tokens_since_reset ops' ->
  run set_iter ops = run set_iter ops'.
Proof.
  intros E. rewrite (run_canonical ops), (run_canonical ops').
  now rewrite !word_counts_run, E.
Qed.

End Canonical.

(** X5. Every reachable state is the state recomputed from its word counts
    alone, and it depends only on the sequence of tokens ingested since
    construction or the last [clear]: neither how the tokens were cut into
    batches nor the order in which Python visits the set of changed words
    matters.  Two runs that ingested the same tokens, each under an iteration
    order of its own, end in the same state, which is the state recomputed
    from the counts of these tokens. *)
Theorem state_depends_on_tokens_only
  (set_iter set_iter' : list string -> list string) (ops ops' : list op) :
  (forall l, Permutation (set_iter l) l) ->
  (forall l, Permutation (set_iter' l) l) ->
  tokens_since_reset ops = tokens_since_reset ops' ->
  run set_iter ops = state_of_counts (word_counts (run set_iter ops))
  /\ run set_iter ops
     = state_of_counts (fold_left increment (tokens_since_reset ops) [])
  /\ run set_iter ops = run set_iter' ops'.
Proof.
  intros SP SP' E.
  split; [now apply run_canonical|].
  split.
  - rewrite (run_canonical set_iter SP ops) at 1.
    now rewrite word_counts_run.
  - rewrite (run_canonical set_iter SP ops), (run_canonical set_iter' SP' ops').
    now rewrite !word_counts_run, E.
Qed.

Lemma split_app_comma s1 s2 :
  Str.split (s1 ++ "," ++ s2)%string = Str.split s1 ++ Str.split s2.
Proof.
  induction s1 as [|c s1 IH]; [reflexivity|].
  cbn [String.append Str.split] in *.
  destruct (Str.is_comma c); [now rewrite IH|].
  rewrite IH. pose proof (split_not_nil s1) as N.
  destruct (Str.split s1) as [|p ps]; [congruence|reflexivity].
Qed.

Lemma tokens_app_comma s1 s2 :
  tokens (s1 ++ "," ++ s2)%string = tokens s1 ++ tokens s2.
Proof.
  unfold tokens. now rewrite split_app_comma, filter_app, map_app.
Qed.

(** X6. Cutting a batch in two at a comma changes nothing: ingesting
    [s1 + "," + s2] at once leaves the analyzer in the state that ingesting
    [s1] and then [s2] leaves it in (word counts, top 5 list, histogram and
    total). *)
Theorem batch_can_be_cut_at_a_comma set_iter (ops : list op)
  (s1 s2 : string) :
  (forall l, Permutation (set_iter l) l) ->
  run set_iter (ops ++ [AddWords (s1 ++ "," ++ s2)%string])
  = run set_iter (ops ++ [AddWords s1; AddWords s2]).
Proof.
  intros P. apply (run_of_tokens set_iter P). unfold tokens_since_reset.
  replace (ops ++ [AddWords s1; AddWords s2])
    with ((ops ++ [AddWords s1]) ++ [AddWords s2])
    by (now rewrite <- app_assoc).
  rewrite !batches_snoc_add, !flat_map_app. cbn [flat_map].
  rewrite !app_nil_r, tokens_app_comma. now rewrite app_assoc.
Qed.

(** ** The order of the tokens *)

Lemma sort_key_perm l l' :
  Permutation l l' -> sort key_lt l = sort key_lt l'.
Proof.
  intros P. apply (sorted_perm_unique (not_after key_lt)).
  - intros a. unfold not_after. apply key_lt_false. now left.
  - unfold not_after. intros a b H1 H2.
    apply key_lt_false in H1 as [E|O1]; [now symmetry|].
    apply key_lt_false in H2 as [E|O2]; [assumption|].
    now destruct (outranks_asym a b).
  - apply sort_sorted; [apply key_lt_asym|apply key_not_after_trans].
  - apply sort_sorted; [apply key_lt_asym|apply key_not_after_trans].
  - rewrite !sort_perm. exact P.
Qed.

Lemma words_with_perm wc wc' f :
  Permutation wc wc' -> words_with wc f = words_with wc' f.
Proof.
  induction 1 as [|e l l' P IH|a b l|l1 l2 l3 P1 IH1 P2 IH2].
  - reflexivity.
  - rewrite !words_with_cons. lia.
  - rewrite !words_with_cons. lia.
  - congruence.
Qed.

Lemma distinct_frequencies_perm wc wc' :
  Permutation wc wc' -> distinct_frequencies wc = distinct_frequencies wc'.
Proof.
  intros P. apply (sorted_perm_unique Z.ge).
  - intros a. lia.
  - intros a b. lia.
  - apply sort_gtb_descending.
  - apply sort_gtb_descending.
  - apply NoDup_Permutation.
    + apply (Permutation_NoDup (Permutation_sym (sort_perm Z.gtb _))).
      apply NoDup_nodup.
    + apply (Permutation_NoDup (Permutation_sym (sort_perm Z.gtb _))).
      apply NoDup_nodup.
    + intros f. rewrite !In_distinct_frequencies.
      split; intros [w I]; exists w;
        [apply (Permutation_in _ P)|apply (Permutation_in _ (Permutation_sym P))];
        assumption.
Qed.

Lemma zsum_perm l l' : Permutation l l' -> zsum l = zsum l'.
Proof.
  induction 1; simpl in *; lia.
Qed.

Lemma state_of_counts_perm wc wc' :
  Permutation wc wc' ->
  top_five (state_of_counts wc) = top_five (state_of_counts wc')
  /\ freq_list (state_of_counts wc) = freq_list (state_of_counts wc')
  /\ total_words (state_of_counts wc) = total_words (state_of_counts wc')
  /\ sort Z.ltb (map snd wc) = sort Z.ltb (map snd wc').
Proof.
  intros P. unfold state_of_counts, full_rebuild. cbn [top_five freq_list total_words].
  split; [now rewrite (sort_key_perm _ _ P)|]. split; [|split].
  - rewrite (distinct_frequencies_perm _ _ P). apply map_ext.
    intros f. now rewrite (words_with_perm _ _ f P).
  - apply zsum_perm. now apply Permutation_map.
  - apply sort_Z_unique; [|apply sort_Z_ascending].
    rewrite sort_perm. now apply Permutation_map.
Qed.

Lemma increments_lookup words k :
  dict_lookup String.eqb (fold_left increment words []) k
  = holds (Z.of_nat (count_occ string_dec words k)).
Proof.
  now rewrite (increments_hold words [] k 0 (Z.le_refl 0) eq_refl).
Qed.

Lemma increments_perm words words' :
  Permutation words words' ->
  Permutation (fold_left increment words []) (fold_left increment words' []).
Proof.
  intros P.
  assert (K : forall ws, NoDup (map fst (fold_left increment ws [])))
    by (intros ws; apply increments_keys; constructor).
  apply NoDup_Permutation; try (apply (NoDup_map_inv fst), K).
  assert (L : forall k, dict_lookup String.eqb (fold_left increment words []) k
                        = dict_lookup String.eqb (fold_left increment words' []) k).
  { intros k. rewrite !increments_lookup.
    now rewrite (proj1 (Permutation_count_occ string_dec _ _) P). }
  intros [k v]. split; intros I; apply (dict_lookup_In _ String.eqb_spec).
  - rewrite <- L. now apply (In_dict_lookup _ String.eqb_spec).
  - rewrite L. now apply (In_dict_lookup _ String.eqb_spec).
Qed.

(** X7. The answers do not depend on the order in which the tokens came: two
    runs that ingested the same tokens, in any order and in any batches, give
    the same top 5 list, histogram, lowest frequency, median and total, and
    the same count for every word. *)
Theorem answers_ignore_token_order set_iter (ops ops' : list op) :
  (forall l, Permutation (set_iter l) l) ->
  Permutation (tokens_since_reset ops) (tokens_since_reset ops') ->
  let a := run set_iter ops in
  let b := run set_iter ops' in
  get_top_five_most_frequent a = get_top_five_most_frequent b
  /\ get_frequency_counts a = get_frequency_counts b
  /\ get_lowest_frequency a = get_lowest_frequency b
  /\ get_median_frequency a = get_median_frequency b
  /\ total_words a = total_words b
  /\ forall w, counter_get (word_counts a) w = counter_get (word_counts b) w.
Proof.
  intros SP P. cbv zeta.
  set (a := run set_iter ops). set (b := run set_iter ops').
  assert (W : Permutation (word_counts a) (word_counts b)).
  { unfold a, b. rewrite !word_counts_run. now apply increments_perm. }
  destruct (state_of_counts_perm _ _ W) as [T [F [N M]]].
  assert (Ca : state_of_counts (word_counts a) = a)
    by (symmetry; apply (run_canonical set_iter SP ops)).
  assert (Cb : state_of_counts (word_counts b) = b)
    by (symmetry; apply (run_canonical set_iter SP ops')).
  rewrite Ca, Cb in T, F, N.
  unfold get_top_five_most_frequent, get_frequency_counts,
    get_lowest_frequency, get_median_frequency.
  rewrite T, F, N, M.
  assert (E : word_counts a = [] <-> word_counts b = []).
  { split; intros H; rewrite H in W;
      [apply Permutation_nil in W|apply Permutation_sym, Permutation_nil in W];
      assumption. }
  repeat (split; [reflexivity|]). split; [|split; [reflexivity|]].
  - rewrite (Permutation_length (sort_perm Z.ltb (map snd (word_counts b)))).
    rewrite <- (Permutation_length (Permutation_map snd W)).
    rewrite <- (Permutation_length (sort_perm Z.ltb (map snd (word_counts a)))).
    rewrite <- M.
    destruct (word_counts a) as [|x xs], (word_counts b) as [|y ys];
      try reflexivity.
    all: exfalso; destruct E as [E1 E2];
      first [now specialize (E1 eq_refl)|now specialize (E2 eq_refl)].
  - intros w. unfold a, b. rewrite !word_counts_run, !counter_get_lookup.
    rewrite !increments_lookup.
    now rewrite (proj1 (Permutation_count_occ string_dec _ _) P).
Qed.

(** ** The highest frequency *)

Lemma outranks_frequency a b : outranks a b -> snd b <= snd a.
Proof.
  destruct a as [w f], b as [w' f']. rewrite outranks_iff. simpl. lia.
Qed.

Lemma top5_head_is_max V w f rest :
  is_top5 V ((w, f) :: rest) -> forall e, V e -> snd e <= f.
Proof.
  intros [S So Le Co] e Ve.
  apply StronglySorted_inv in S as [_ F]. rewrite Forall_forall in F.
  destruct (in_dec item_dec e ((w, f) :: rest)) as [[<-|I]|N].
  - simpl. lia.
  - apply (outranks_frequency (w, f) e). now apply F.
  - destruct (Co e Ve N) as [_ O].
    apply (outranks_frequency (w, f) e), O. now left.
Qed.

(** X8. The two lists agree on the highest frequency: in every reachable
    state the top 5 list and the histogram are both empty, or the frequency
    of the first top 5 entry is the frequency of the head node of the
    histogram, and no word has a higher count. *)
Theorem top_entry_matches_histogram_head set_iter (ops : list op) :
  (forall l, Permutation (set_iter l) l) ->
  let self := run set_iter ops in
  match get_top_five_most_frequent self, get_frequency_counts self with
  | [], [] => word_counts self = []
  | (w, f) :: _, (fq, _) :: _ =>
      f = fq /\ forall e, In e (word_counts self) -> snd e <= f
  | _, _ => False
  end.
Proof.
  intros SP self.
  pose proof (top_inv_run set_iter SP ops) as T.
  pose proof (hist_inv_run set_iter ops) as H.
  fold self in T, H. unfold top_inv in T.
  unfold get_top_five_most_frequent, get_frequency_counts.
  destruct H as [D P K V C].
  destruct (top_five self) as [|[w f] rest] eqn:Et.
  - assert (W : word_counts self = []).
    { destruct (word_counts self) as [|e wc]; [reflexivity|exfalso].
      destruct (top5_complete _ _ T e (or_introl eq_refl)) as [L _];
        [intros []|discriminate]. }
    destruct (freq_list self) as [|n fl]; [exact W|]. simpl.
    specialize (P n (or_introl eq_refl)).
    rewrite <- (node_count_In (n :: fl) n D (or_introl eq_refl)), C, W in P.
    unfold words_with in P. simpl in P. lia.
  - pose proof (top5_head_is_max _ w f rest T) as Max. cbv beta in Max.
    assert (Iw : In (w, f) (word_counts self))
      by (apply (top5_sound _ _ T); now left).
    assert (Hf : 0 < words_with (word_counts self) f)
      by (apply words_with_pos; eauto).
    rewrite <- C in Hf.
    destruct (node_count_present (freq_list self) f) as [m [Im [Fm _]]]; [lia|].
    destruct (freq_list self) as [|n fl]; [contradiction|]. simpl.
    split; [|exact Max].
    assert (Hn : 0 < words_with (word_counts self) (frequency n)).
    { rewrite <- C, (node_count_In (n :: fl) n D (or_introl eq_refl)).
      apply P. now left. }
    apply words_with_pos in Hn as [w' Iw'].
    specialize (Max _ Iw'). simpl in Max.
    apply descending_inv in D as [_ B].
    destruct Im as [->|Im]; [lia|]. specialize (B m Im). lia.
Qed.

(** ** The keys of the word counts *)

Lemma isspace_lower_char c : Str.isspace (Str.lower_char c) = Str.isspace c.
Proof. destruct c as [[] [] [] [] [] [] [] []]; vm_compute; reflexivity. Qed.

Lemma is_comma_lower_char c : Str.is_comma (Str.lower_char c) = Str.is_comma c.
Proof. destruct c as [[] [] [] [] [] [] [] []]; vm_compute; reflexivity. Qed.

Lemma lower_char_idem c : Str.lower_char (Str.lower_char c) = Str.lower_char c.
Proof. destruct c as [[] [] [] [] [] [] [] []]; vm_compute; reflexivity. Qed.

Lemma lower_idem s : Str.lower (Str.lower s) = Str.lower s.
Proof.
  induction s as [|c s IH]; cbn [Str.lower]; [reflexivity|].
  now rewrite lower_char_idem, IH.
Qed.

Lemma lstrip_lower s : Str.lstrip (Str.lower s) = Str.lower (Str.lstrip s).
Proof.
  induction s as [|c s IH]; cbn [Str.lower Str.lstrip]; [reflexivity|].
  rewrite isspace_lower_char. now destruct (Str.isspace c).
Qed.

Lemma rstrip_cons c t :
  Str.rstrip (String c t)
  = match Str.rstrip t with
    | EmptyString => if Str.isspace c then EmptyString else String c EmptyString
    | r => String c r
    end.
Proof. reflexivity. Qed.

Lemma rstrip_lower s : Str.rstrip (Str.lower s) = Str.lower (Str.rstrip s).
Proof.
  induction s as [|c s IH]; [reflexivity|].
  cbn [Str.lower]. rewrite !rstrip_cons, IH, isspace_lower_char.
  destruct (Str.rstrip s); cbn [Str.lower]; [|reflexivity].
  now destruct (Str.isspace c).
Qed.

Lemma strip_lower s : Str.strip (Str.lower s) = Str.lower (Str.strip s).
Proof. unfold Str.strip. now rewrite lstrip_lower, rstrip_lower. Qed.

Lemma rstrip_idem s : Str.rstrip (Str.rstrip s) = Str.rstrip s.
Proof.
  induction s as [|c s IH]; [reflexivity|]. rewrite (rstrip_cons c s).
  destruct (Str.rstrip s) as [|d r] eqn:R.
  - destruct (Str.isspace c) eqn:Hc; [reflexivity|].
    rewrite rstrip_cons. cbn [Str.rstrip]. now rewrite Hc.
  - rewrite rstrip_cons, IH. reflexivity.
Qed.

Lemma rstrip_head c t :
  Str.isspace c = false ->
  Str.rstrip (String c t) = String c (Str.rstrip t).
Proof.
  intros H. rewrite rstrip_cons.
  destruct (Str.rstrip t); [now rewrite H|reflexivity].
Qed.

Lemma lstrip_head s :
  match Str.lstrip s with
  | EmptyString => True
  | String c _ => Str.isspace c = false
  end.
Proof.
  induction s as [|c s IH]; cbn [Str.lstrip]; [exact I|].
  destruct (Str.isspace c) eqn:Hc; [exact IH|exact Hc].
Qed.

Lemma strip_idem s : Str.strip (Str.strip s) = Str.strip s.
Proof.
  unfold Str.strip. pose proof (lstrip_head s) as H.
  destruct (Str.lstrip s) as [|c t]; [reflexivity|].
  rewrite (rstrip_head c t H). cbn [Str.lstrip]. rewrite H.
  rewrite (rstrip_head c _ H). now rewrite rstrip_idem.
Qed.

Lemma all_chars_app p a b :
  all_chars p (a ++ b)%string = all_chars p a && all_chars p b.
Proof.
  induction a as [|c a IH]; cbn [String.append all_chars]; [reflexivity|].
  now rewrite IH, andb_assoc.
Qed.

Lemma no_comma_strip s : no_comma s = true -> no_comma (Str.strip s) = true.
Proof.
  destruct (strip_decompose s) as [pre [post [E _]]].
  unfold no_comma. intros H. rewrite E, !all_chars_app in H.
  apply andb_true_iff in H as [_ H]. now apply andb_true_iff in H as [H _].
Qed.

Lemma no_comma_lower s : no_comma (Str.lower s) = no_comma s.
Proof.
  unfold no_comma. induction s as [|c s IH]; cbn [Str.lower all_chars];
    [reflexivity|].
  now rewrite is_comma_lower_char, IH.
Qed.

Lemma tokens_normalized s w :
  In w (tokens s) ->
  w <> EmptyString /\ no_comma w = true
  /\ Str.strip w = w /\ Str.lower w = w.
Proof.
  intros I. split; [now apply (tokens_truthy s)|].
  unfold tokens in I. apply in_map_iff in I as [p [<- I]].
  apply filter_In in I as [I _].
  pose proof (split_pieces_no_comma s) as F. rewrite Forall_forall in F.
  specialize (F p I). cbv beta in F.
  split; [|split].
  - rewrite no_comma_lower. now apply no_comma_strip.
  - now rewrite strip_lower, strip_idem.
  - apply lower_idem.
Qed.

Lemma run_keys_are_tokens set_iter ops k v :
  In (k, v) (word_counts (run set_iter ops)) ->
  In k (tokens_since_reset ops) /\ 1 <= v.
Proof.
  intros I. pose proof (hist_inv_run set_iter ops) as [_ _ K V _].
  split; [|apply (V _ I)].
  apply (In_dict_lookup _ String.eqb_spec _ _ _ K) in I.
  rewrite word_counts_tokens in I. unfold holds in I.
  apply (count_occ_In string_dec). unfold tokens_since_reset.
  destruct (Z.eqb_spec (Z.of_nat (count_occ string_dec
              (flat_map tokens (batches_since_reset ops)) k)) 0);
    [discriminate|lia].
Qed.

(** X9. Every key of the dictionary [get_all_frequencies] returns is a
    normalized word: it is not empty, holds no comma, has no whitespace at
    either end and is its own lower-case form, and its count is at least 1;
    ingesting the key as a batch gives back that one word. *)
Theorem keys_are_normalized set_iter (ops : list op) (k : string) (v : Z) :
  In (k, v) (get_all_frequencies (run set_iter ops)) ->
  k <> EmptyString /\ no_comma k = true
  /\ Str.strip k = k /\ Str.lower k = k
  /\ 1 <= v /\ tokens k = [k].
Proof.
  intros I. apply run_keys_are_tokens in I as [I V].
  unfold tokens_since_reset in I. apply in_flat_map in I as [s [_ I]].
  destruct (tokens_normalized s k I) as [N [C [S L]]].
  repeat (split; [assumption|]).
  rewrite tokens_single; [now rewrite S, L|assumption|].
  rewrite S. now destruct k.
Qed.

(** ** What a batch leaves in place *)

Lemma dict_set_keys_extend (c : dict string Z) w v :
  exists new_keys,
    map fst (dict_set String.eqb c w v) = map fst c ++ new_keys.
Proof.
  rewrite dict_set_keys; [|apply String.eqb_spec].
  destruct (dict_lookup String.eqb c w).
  - exists []. now rewrite app_nil_r.
  - now exists [w].
Qed.

Lemma increments_keys_extend words : forall c,
  exists new_keys,
    map fst (fold_left increment words c) = map fst c ++ new_keys.
Proof.
  induction words as [|w words IH]; intros c; cbn [fold_left].
  - exists []. now rewrite app_nil_r.
  - destruct (IH (increment c w)) as [k2 E2].
    destruct (dict_set_keys_extend c w (counter_get c w + 1)) as [k1 E1].
    exists (k1 ++ k2). rewrite E2. unfold increment. now rewrite E1, app_assoc.
Qed.

(** X10. A batch never removes a word, never moves a word already held to
    another place in the dictionary, and never lowers a count: the keys after
    [add_words] are the keys before, in the same order, followed by the new
    words, and every word's count grows by the number of times the batch
    holds it. This holds in any state. *)
Theorem add_words_only_grows set_iter (s : string) (self : Analyzer) :
  (exists new_keys,
     map fst (word_counts (add_words set_iter s self))
     = map fst (word_counts self) ++ new_keys)
  /\ forall w,
       counter_get (word_counts (add_words set_iter s self)) w
       = counter_get (word_counts self) w
         + Z.of_nat (count_occ string_dec (tokens s) w)
       /\ counter_get (word_counts self) w
          <= counter_get (word_counts (add_words set_iter s self)) w.
Proof.
  rewrite add_words_word_counts. split; [apply increments_keys_extend|].
  intros w. rewrite counter_get_increments. split; lia.
Qed.

(** ** The operations on the frequency count list, on any list *)

(** X11. [_find_frequency_node] returns the first node that holds the
    frequency, and returns nothing only when no node holds it. *)
Theorem find_frequency_node_finds_first (fq : Z)
  (l : list FrequencyCountNode) :
  match _find_frequency_node fq l with
  | Some i =>
      exists n, nth_error l i = Some n /\ frequency n = fq
                /\ forall j m, (j < i)%nat -> nth_error l j = Some m ->
                               frequency m <> fq
  | None => forall n, In n l -> frequency n <> fq
  end.
Proof.
  induction l as [|a l IH]; cbn [_find_frequency_node]; [intros n []|].
  destruct (Z.eqb_spec (frequency a) fq) as [E|N].
  - exists a. repeat split; [assumption|]. intros j m Hj. lia.
  - destruct (_find_frequency_node fq l) as [i|]; cbn [option_map].
    + destruct IH as [n [Hn [Fn First]]].
      exists n. repeat split; [assumption|assumption|].
      intros [|j] m Hj Hm; simpl in Hm.
      * now injection Hm as <-.
      * apply (First j m); [lia|assumption].
    + intros n [<-|I]; auto.
Qed.

Lemma insert_walk_place new_node l :
  exists before after,
    l = before ++ after
    /\ insert_walk new_node l = before ++ new_node :: after
    /\ (forall n, In n before -> frequency n > frequency new_node)
    /\ match after with
       | n :: _ => frequency n <= frequency new_node
       | [] => True
       end.
Proof.
  induction l as [|a l [before [after [E [W [B A]]]]]]; cbn [insert_walk].
  - exists [], []. split; [reflexivity|]. split; [reflexivity|].
    split; [intros n []|exact I].
  - destruct (Z.gtb_spec (frequency a) (frequency new_node)) as [G|L].
    + exists (a :: before), after. simpl. rewrite <- E, W.
      split; [reflexivity|]. split; [reflexivity|]. split; [|assumption].
      intros n [<-|I]; [lia|auto].
    + exists [], (a :: l). split; [reflexivity|]. split; [reflexivity|].
      split; [intros n []|assumption].
Qed.

Lemma insert_node_is_walk fq cnt l :
  _insert_frequency_node fq cnt l = insert_walk (mkNode fq cnt) l.
Proof. now destruct l. Qed.

(** X12. [_insert_frequency_node] puts the new node after every node with a
    higher frequency and before the first node whose frequency is not higher,
    leaving the other nodes in place; on a list in non-increasing order of
    frequency the result is in non-increasing order too. *)
Theorem insert_frequency_node_places_node (fq cnt : Z)
  (l : list FrequencyCountNode) :
  (exists before after,
     l = before ++ after
     /\ _insert_frequency_node fq cnt l = before ++ mkNode fq cnt :: after
     /\ (forall n, In n before -> frequency n > fq)
     /\ match after with n :: _ => frequency n <= fq | [] => True end)
  /\ (StronglySorted (fun a b => frequency a >= frequency b) l ->
      StronglySorted (fun a b => frequency a >= frequency b)
        (_insert_frequency_node fq cnt l)).
Proof.
  rewrite insert_node_is_walk.
  destruct (insert_walk_place (mkNode fq cnt) l)
    as [before [after [E [W [B A]]]]].
  split; [now exists before, after|].
  intros S. rewrite W. rewrite E in S. clear E W.
  induction before as [|b before IH]; simpl in *.
  - constructor; [assumption|]. rewrite Forall_forall. intros m I.
    destruct after as [|a after]; [contradiction|].
    apply StronglySorted_inv in S as [_ F]. rewrite Forall_forall in F.
    destruct I as [<-|I]; [simpl in *; lia|].
    specialize (F m I). simpl in *. lia.
  - apply StronglySorted_inv in S as [S F]. rewrite Forall_forall in F.
    constructor; [apply IH; auto|].
    rewrite Forall_forall. intros m I. apply in_app_or in I as [I|[<-|I]].
    + apply F, in_or_app. now left.
    + specialize (B b (or_introl eq_refl)). simpl. lia.
    + apply F, in_or_app. now right.
Qed.

Lemma remove_at_middle before n after :
  _remove_frequency_node (List.length before) (before ++ n :: after)
  = before ++ after.
Proof.
  induction before as [|b before IH]; simpl; [reflexivity|]. now rewrite IH.
Qed.

Lemma find_at_middle fq before n after :
  (forall m, In m before -> frequency m <> fq) -> frequency n = fq ->
  _find_frequency_node fq (before ++ n :: after) = Some (List.length before).
Proof.
  intros B F. induction before as [|b before IH]; simpl.
  - destruct (Z.eqb_spec (frequency n) fq); [reflexivity|contradiction].
  - destruct (Z.eqb_spec (frequency b) fq) as [E|_].
    + exfalso. apply (B b); [now left|assumption].
    + rewrite IH; [reflexivity|]. intros m I. apply B. now right.
Qed.

(** X13. Inserting a node for a frequency no node holds, finding it and
    removing it gives the list back: the node found is the one inserted, and
    [_remove_frequency_node] unlinks that node and no other. *)
Theorem insert_find_remove_round_trip (fq cnt : Z)
  (l : list FrequencyCountNode) :
  (forall n, In n l -> frequency n <> fq) ->
  exists i,
    _find_frequency_node fq (_insert_frequency_node fq cnt l) = Some i
    /\ nth_error (_insert_frequency_node fq cnt l) i = Some (mkNode fq cnt)
    /\ _remove_frequency_node i (_insert_frequency_node fq cnt l) = l.
Proof.
  intros A. rewrite insert_node_is_walk.
  destruct (insert_walk_place (mkNode fq cnt) l)
    as [before [after [E [W [B _]]]]].
  exists (List.length before). rewrite W. split; [|split].
  - apply find_at_middle; [|reflexivity].
    intros m I. apply A. rewrite E. apply in_or_app. now left.
  - rewrite nth_error_app2 by lia. now rewrite Nat.sub_diag.
  - now rewrite remove_at_middle.
Qed.

Lemma find_frequency_node_spec_some fq l i :
  _find_frequency_node fq l = Some i ->
  exists n, In n l /\ frequency n = fq.
Proof.
  revert i. induction l as [|a l IH]; cbn [_find_frequency_node];
    [discriminate|].
  intros i. destruct (Z.eqb_spec (frequency a) fq) as [E|N].
  - intros _. exists a. split; [now left|assumption].
  - destruct (_find_frequency_node fq l) as [j|]; [|discriminate].
    intros _. destruct (IH j eq_refl) as [n [I F]].
    exists n. split; [now right|assumption].
Qed.

(** X14. Applying a delta never leaves a node with a count of 0 or less in a
    list whose counts are positive, whatever the delta; and a delta of 0, or a
    negative delta for a frequency no node holds, leaves the list exactly as
    it is. *)
Theorem update_never_leaves_empty_bucket (l : list FrequencyCountNode)
  (fq change : Z) :
  (positive_counts l -> positive_counts (update_frequency_count l (fq, change)))
  /\ (change = 0 -> update_frequency_count l (fq, change) = l)
  /\ ((forall n, In n l -> frequency n <> fq) -> change <= 0 ->
      update_frequency_count l (fq, change) = l).
Proof.
  rewrite update_frequency_count_cases. split; [|split].
  - intros P. destruct (change =? 0); [assumption|].
    destruct (_find_frequency_node fq l); [now apply bump_positive|].
    destruct (Z.gtb_spec change 0); [|assumption].
    intros m I. apply In_insert_walk in I as [->|I]; [simpl; lia|auto].
  - intros ->. reflexivity.
  - intros A L. destruct (change =? 0); [reflexivity|].
    destruct (_find_frequency_node fq l) as [i|] eqn:F.
    + exfalso. pose proof (find_frequency_node_spec_some fq l i F) as [n [I E]].
      now apply (A n).
    + destruct (Z.gtb_spec change 0); [lia|reflexivity].
Qed.

(** ** [_insert_or_update_in_top5] on any list *)

Lemma sort_key_sorted l : StronglySorted (not_after key_lt) (sort key_lt l).
Proof. apply sort_sorted; [apply key_lt_asym|apply key_not_after_trans]. Qed.

Lemma firstn_sorted {A} (R : A -> A -> Prop) n l :
  StronglySorted R l -> StronglySorted R (firstn n l).
Proof.
  intros S. rewrite <- (firstn_skipn n l) in S.
  now apply StronglySorted_app_inv in S as [S1 _].
Qed.

Lemma In_firstn {A} n (l : list A) x : In x (firstn n l) -> In x l.
Proof.
  intros I. rewrite <- (firstn_skipn n l). apply in_or_app. now left.
Qed.

Lemma filter_full_length {A} (p : A -> bool) l :
  List.length (filter p l) = List.length l -> filter p l = l.
Proof.
  induction l as [|a l IH]; [reflexivity|]. simpl.
  pose proof (filter_length_le p l).
  destruct (p a); simpl; intros E; [|lia]. f_equal. apply IH. lia.
Qed.

(** X15. Whatever list it is given, [_insert_or_update_in_top5] returns at
    most 5 entries sorted by frequency descending, then word ascending; the
    entries are entries of the list for other words, or the new entry: no
    older entry of the word is left. Words that were distinct stay distinct.
    And when [_should_be_in_top5] accepted the word against a list of at most
    5 entries, the new entry is in the result. *)
Theorem insert_or_update_in_top5_result (word : string) (freq : Z)
  (cur : list (string * Z)) :
  let result := _insert_or_update_in_top5 word freq cur in
  (List.length result <= 5)%nat
  /\ StronglySorted (not_after key_lt) result
  /\ (forall e, In e result ->
        e = (word, freq) \/ (In e cur /\ fst e <> word))
  /\ (NoDup (map fst cur) -> NoDup (map fst result))
  /\ ((List.length cur <= 5)%nat ->
      _should_be_in_top5 word freq cur = true -> In (word, freq) result).
Proof.
  cbv zeta. unfold _insert_or_update_in_top5.
  set (kept := filter (fun x => negb (String.eqb (fst x) word)) cur).
  set (X := kept ++ [(word, freq)]).
  assert (Kept : forall e, In e kept <-> In e cur /\ fst e <> word).
  { intros e. unfold kept. rewrite filter_In, negb_true_iff.
    now destruct (String.eqb_spec (fst e) word). }
  split; [rewrite length_firstn; lia|].
  split; [apply firstn_sorted, sort_key_sorted|].
  split; [|split].
  - intros e I. apply In_firstn, sort_In in I. unfold X in I.
    apply in_app_or in I as [I|[<-|[]]]; [right; now apply Kept|now left].
  - intros ND.
    assert (NDX : NoDup (map fst X)).
    { unfold X. rewrite map_app. apply NoDup_app.
      - unfold kept. clear -ND. induction cur as [|a cur IH]; simpl;
          [constructor|].
        inversion ND as [|? ? Ha ND']; subst.
        destruct (negb (String.eqb (fst a) word)); simpl; [|auto].
        constructor; [|auto]. intros I. apply Ha.
        apply in_map_iff in I as [x [E I]]. apply filter_In in I as [I _].
        rewrite <- E. now apply in_map.
      - repeat constructor. simpl. tauto.
      - intros k I [<-|[]]. apply in_map_iff in I as [x [E I]].
        apply Kept in I as [_ N]. now apply N. }
    assert (NDs : NoDup (map fst (sort key_lt X))).
    { apply (Permutation_NoDup (l := map fst X)); [|assumption].
      apply Permutation_map. symmetry. apply sort_perm. }
    rewrite <- (firstn_skipn 5 (sort key_lt X)), map_app in NDs.
    now apply NoDup_app_remove_r in NDs.
  - intros L5 Sh.
    assert (Ix : In (word, freq) (sort key_lt X)).
    { apply sort_In. unfold X. apply in_or_app. right. now left. }
    rewrite <- (firstn_skipn 5 (sort key_lt X)) in Ix.
    apply in_app_or in Ix as [Ix|Ix]; [assumption|exfalso].
    assert (Lk : (List.length kept <= List.length cur)%nat)
      by apply filter_length_le.
    assert (LX : List.length (sort key_lt X) = S (List.length kept)).
    { rewrite sort_length. unfold X. rewrite length_app. simpl. lia. }
    assert (Ls : (0 < List.length (skipn 5 (sort key_lt X)))%nat)
      by (destruct (skipn 5 (sort key_lt X)); [contradiction|simpl; lia]).
    rewrite length_skipn in Ls.
    assert (L5' : List.length cur = 5%nat) by lia.
    assert (Lk5 : List.length kept = 5%nat) by lia.
    destruct (should_true_last word freq cur L5' Sh) as [e5 [N5 O5]].
    assert (E : kept = cur) by (apply filter_full_length; fold kept; lia).
    assert (I5 : In e5 (sort key_lt X)).
    { apply sort_In. unfold X. apply in_or_app. left. rewrite E.
      now apply nth_error_In in N5. }
    pose proof (sort_key_sorted X) as S.
    rewrite <- (firstn_skipn 5 (sort key_lt X)) in S, I5.
    apply StronglySorted_app_inv in S as [_ [_ C]].
    assert (Single : forall z, In z (skipn 5 (sort key_lt X)) -> z = (word, freq)).
    { assert (L1 : List.length (skipn 5 (sort key_lt X)) = 1%nat)
        by (rewrite length_skipn; lia).
      destruct (skipn 5 (sort key_lt X)) as [|z [|z' zs]]; try discriminate.
      destruct Ix as [->|[]]. intros z' [<-|[]]. reflexivity. }
    apply in_app_or in I5 as [I5|I5].
    + specialize (C e5 (word, freq) I5 Ix). unfold not_after in C.
      unfold outranks in O5. congruence.
    + apply Single in I5. subst e5. now apply (outranks_irrefl (word, freq)).
Qed.

(** ** Whitespace around a batch *)

Lemma tokens_leading_space c s :
  Str.isspace c = true -> tokens (String c s) = tokens s.
Proof.
  intros H. unfold tokens. cbn [Str.split].
  rewrite (space_not_comma c H). pose proof (split_not_nil s) as N.
  destruct (Str.split s) as [|p ps]; [congruence|].
  assert (E : Str.strip (String c p) = Str.strip p).
  { unfold Str.strip. cbn [Str.lstrip]. now rewrite H. }
  cbn [filter]. cbv beta. rewrite E.
  destruct (Str.truthy (Str.strip p)); cbn [map]; cbv beta; now rewrite ?E.
Qed.










(** ** Batches built by joining words *)

Lemma tokens_join_cons w batch :
  batch <> [] ->
  tokens (join_words (w :: batch)) = tokens w ++ tokens (join_words batch).
Proof.
  intros N. unfold join_words. rewrite concat_cons by assumption.
  change (w ++ ", " ++ String.concat ", " batch)%string
    with (w ++ "," ++ String " " (String.concat ", " batch))%string.
  rewrite tokens_app_comma. f_equal.
  now apply tokens_leading_space.
Qed.

(** X17. A batch built as the performance test builds it, by joining words
    with [", "], is read back word by word: when no word holds a comma and
    none is blank, the tokens of the joined text are the words, each trimmed
    and in lower case, in the same order. *)
Theorem joined_batch_reads_back (batch : list string) :
  (forall w, In w batch ->
     no_comma w = true /\ Str.truthy (Str.strip w) = true) ->
  tokens (join_words batch) = map (fun w => Str.lower (Str.strip w)) batch.
Proof.
  induction batch as [|w batch IH]; intros H; [reflexivity|].
  destruct (H w (or_introl eq_refl)) as [C T].
  destruct batch as [|w' batch'].
  - unfold join_words. cbn [String.concat map]. now apply tokens_single.
  - rewrite tokens_join_cons by discriminate.
    rewrite (tokens_single w C T), IH; [reflexivity|].
    intros x I. apply H. now right.
Qed.

(** ** The linked lists in the store *)

Section PtrFacts.
Context {P : Type}.
Implicit Types (h : Ptr.store P) (c : Ptr.cell P) (l : Ptr.llist P).

Lemma update_length a f h : List.length (Ptr.update a f h) = List.length h.
Proof.
  revert a. induction h as [|c h IH]; intros [|a]; simpl; auto.
Qed.

Lemma nth_update_same a f h :
  nth_error (Ptr.update a f h) a = option_map f (nth_error h a).
Proof.
  revert a. induction h as [|c h IH]; intros [|a]; simpl; auto.
Qed.

Lemma nth_update_other a b f h :
  a <> b -> nth_error (Ptr.update a f h) b = nth_error h b.
Proof.
  revert a b. induction h as [|c h IH]; intros [|a] [|b] N; simpl; auto;
    try congruence.
Qed.

Lemma chain_frame h h' before addrs vals after :
  (forall a, In a addrs -> nth_error h' a = nth_error h a) ->
  Ptr.chain h before addrs vals after -> Ptr.chain h' before addrs vals after.
Proof.
  revert before vals. induction addrs as [|a addrs IH];
    intros before [|v vals] F C; simpl in *; try assumption.
  destruct C as [Ca C]. split.
  - rewrite F by now left. exact Ca.
  - apply IH; [|assumption]. intros b I. apply F. now right.
Qed.

Lemma chain_length h before addrs vals after :
  Ptr.chain h before addrs vals after -> List.length addrs = List.length vals.
Proof.
  revert before vals. induction addrs as [|a addrs IH];
    intros before [|v vals] C; simpl in *; try tauto.
  destruct C as [_ C]. f_equal. eauto.
Qed.

Lemma chain_valid h before addrs vals after a :
  Ptr.chain h before addrs vals after -> In a addrs ->
  (a < List.length h)%nat.
Proof.
  revert before vals. induction addrs as [|b addrs IH];
    intros before [|v vals] C I; simpl in *; try tauto.
  destruct C as [Cb C]. destruct I as [<-|I]; [|eauto].
  apply nth_error_Some. congruence.
Qed.

Lemma last_or_snoc addrs a before : last_or (addrs ++ [a]) before = Some a.
Proof. unfold last_or. now rewrite rev_app_distr. Qed.

Lemma last_or_cons a addrs before :
  last_or (a :: addrs) before = last_or addrs (Some a).
Proof.
  unfold last_or. simpl. destruct (rev addrs); reflexivity.
Qed.

Lemma chain_app h before s1 s2 v1 v2 after :
  List.length s1 = List.length v1 ->
  Ptr.chain h before (s1 ++ s2) (v1 ++ v2) after
  <-> Ptr.chain h before s1 v1 (Ptr.first_or s2 after)
      /\ Ptr.chain h (last_or s1 before) s2 v2 after.
Proof.
  revert before v1. induction s1 as [|a s1 IH]; intros before [|v v1] L;
    try discriminate; simpl in *.
  - unfold last_or. simpl. tauto.
  - rewrite last_or_cons, IH by congruence.
    assert (E : Ptr.first_or (s1 ++ s2) after
                = Ptr.first_or s1 (Ptr.first_or s2 after))
      by (destruct s1; reflexivity).
    rewrite E. tauto.
Qed.

(** Redirecting the [next] of the last node of a chain. *)
Lemma chain_set_after h before addrs a vals after after' :
  NoDup (addrs ++ [a]) ->
  Ptr.chain h before (addrs ++ [a]) vals after ->
  Ptr.chain (Ptr.update a (Ptr.set_next after') h) before (addrs ++ [a])
    vals after'.
Proof.
  intros ND C. pose proof (chain_length _ _ _ _ _ C) as L.
  rewrite length_app in L. simpl in L.
  assert (Ex : exists v1 v, vals = v1 ++ [v] /\ List.length addrs = List.length v1).
  { destruct (rev vals) as [|v rv] eqn:R.
    - apply (f_equal (@List.length P)) in R. rewrite length_rev in R.
      simpl in R. lia.
    - exists (rev rv), v. apply (f_equal (@rev P)) in R.
      rewrite rev_involutive in R. simpl in R. split; [assumption|].
      subst vals. rewrite length_app, length_rev in *. simpl in L. lia. }
  destruct Ex as [v1 [v [-> L1]]].
  apply chain_app in C as [C1 C2]; [|assumption]. apply chain_app; [assumption|].
  simpl in *. destruct C2 as [Ca _]. split.
  - apply (chain_frame h); [|assumption].
    intros b I. apply nth_update_other. intros ->.
    apply NoDup_remove_2 in ND. rewrite app_nil_r in ND. contradiction.
  - split; [|exact I]. now rewrite nth_update_same, Ca.
Qed.

(** Redirecting the [prev] of the first node of a chain. *)
Lemma chain_set_before h before before' a addrs vals after :
  NoDup (a :: addrs) ->
  Ptr.chain h before (a :: addrs) vals after ->
  Ptr.chain (Ptr.update a (Ptr.set_prev before') h) before' (a :: addrs)
    vals after.
Proof.
  intros ND C. destruct vals as [|v vals]; [contradiction|].
  simpl in *. destruct C as [Ca C]. split.
  - now rewrite nth_update_same, Ca.
  - apply (chain_frame h); [|assumption].
    intros b I. apply nth_update_other. intros ->.
    now inversion ND.
Qed.

Lemma walk_chain h addrs : forall before vals fuel,
  Ptr.chain h before addrs vals None ->
  (List.length addrs <= fuel)%nat ->
  Ptr.walk fuel h (Ptr.first_or addrs None) = Some vals.
Proof.
  induction addrs as [|a addrs IH]; intros before [|v vals] fuel C L;
    simpl in *; try tauto.
  - now destruct fuel.
  - destruct fuel as [|fuel]; [lia|]. destruct C as [Ca C].
    cbn [Ptr.walk]. rewrite Ca. cbn [Ptr.payload Ptr.next].
    rewrite (IH (Some a) vals fuel C) by lia. reflexivity.
Qed.

Lemma walk_back_chain h addrs : forall vals after fuel,
  Ptr.chain h None addrs vals after ->
  (List.length addrs <= fuel)%nat ->
  Ptr.walk_back fuel h (last_or addrs None) = Some (rev vals).
Proof.
  induction addrs as [|a addrs IH] using rev_ind; intros vals after fuel C L.
  - destruct vals; [|contradiction]. now destruct fuel.
  - pose proof (chain_length _ _ _ _ _ C) as Len.
    rewrite length_app in Len, L. simpl in Len, L.
    destruct (rev vals) as [|v rv] eqn:R.
    { apply (f_equal (@List.length P)) in R. rewrite length_rev in R.
      simpl in R. lia. }
    assert (E : vals = rev rv ++ [v]).
    { apply (f_equal (@rev P)) in R. now rewrite rev_involutive in R. }
    subst vals. rewrite length_app, length_rev in Len. simpl in Len.
    apply chain_app in C as [C1 C2]; [|rewrite length_rev; lia].
    simpl in C2. destruct C2 as [Ca _].
    rewrite last_or_snoc. destruct fuel as [|fuel]; [lia|].
    cbn [Ptr.walk_back]. rewrite Ca. cbn [Ptr.payload Ptr.prev].
    rewrite (IH (rev rv) (Some a) fuel C1) by lia.
    now rewrite rev_involutive.
Qed.

Lemma linked_bound l addrs vals :
  Ptr.linked l addrs vals ->
  (List.length addrs <= List.length (Ptr.cells l))%nat.
Proof.
  intros [ND _ _ C].
  rewrite <- (length_seq (List.length (Ptr.cells l)) 0).
  apply NoDup_incl_length; [assumption|].
  intros a I. apply in_seq. split; [lia|].
  simpl. now apply (chain_valid _ _ _ _ _ a C).
Qed.
End PtrFacts.

Section PtrAppend.
Context {P : Type}.

Lemma linked_fresh (l : Ptr.llist P) addrs vals :
  Ptr.linked l addrs vals -> ~ In (List.length (Ptr.cells l)) addrs.
Proof.
  intros [_ _ _ C] I. apply (chain_valid _ _ _ _ _ _ C) in I. lia.
Qed.

Lemma chain_extend (h : Ptr.store P) extra before addrs vals after :
  Ptr.chain h before addrs vals after ->
  Ptr.chain (h ++ extra) before addrs vals after.
Proof.
  intros C. apply (chain_frame h); [|assumption].
  intros a I. apply nth_error_app1. now apply (chain_valid _ _ _ _ _ a C).
Qed.

Lemma vals_snoc (h : Ptr.store P) before addrs t vals after :
  Ptr.chain h before (addrs ++ [t]) vals after ->
  exists vf vt, vals = vf ++ [vt] /\ List.length addrs = List.length vf.
Proof.
  intros C. apply chain_length in C. rewrite length_app in C. simpl in C.
  destruct (rev vals) as [|v rv] eqn:R.
  - apply (f_equal (@List.length P)) in R. rewrite length_rev in R.
    simpl in R. lia.
  - exists (rev rv), v. apply (f_equal (@rev P)) in R.
    rewrite rev_involutive in R. simpl in R. split; [assumption|].
    subst vals. rewrite length_app, length_rev in *. simpl in C. lia.
Qed.

(** Linking a new node after the tail. *)
Lemma append_linked (l : Ptr.llist P) addrs vals x :
  Ptr.linked l addrs vals ->
  exists l',
    Ptr.append_node l x = Some l'
    /\ Ptr.linked l' (addrs ++ [List.length (Ptr.cells l)]) (vals ++ [x])
    /\ List.length (Ptr.cells l') = S (List.length (Ptr.cells l))
    /\ forall a, (a < List.length (Ptr.cells l))%nat -> ~ In a addrs ->
                 nth_error (Ptr.cells l') a = nth_error (Ptr.cells l) a.
Proof.
  intros L. pose proof (linked_fresh l addrs vals L) as Fresh.
  destruct L as [ND Hd Tl C]. set (n := List.length (Ptr.cells l)) in *.
  assert (NDn : NoDup (addrs ++ [n])).
  { apply NoDup_app; [assumption|repeat constructor; simpl; tauto|].
    intros a I [<-|[]]. contradiction. }
  unfold Ptr.append_node. fold n.
  destruct addrs as [|a0 rest] eqn:Ea.
  - simpl in Hd. rewrite Hd. destruct vals; [|contradiction].
    eexists. split; [reflexivity|]. split; [|split].
    + constructor; simpl; try reflexivity; [assumption|].
      split; [|exact I]. rewrite nth_error_app2 by (fold n; lia).
      fold n. now rewrite Nat.sub_diag.
    + simpl. rewrite length_app. simpl. fold n. lia.
    + intros a La _. simpl. now apply nth_error_app1.
  - rewrite <- Ea in *. assert (Ne : addrs <> []) by (subst; discriminate).
    destruct (exists_last Ne) as [front [t Ef]].
    assert (Hd' : exists a, Ptr.head l = Some a)
      by (exists a0; now rewrite Hd, Ea).
    destruct Hd' as [ah Hh]. rewrite Hh.
    assert (Tt : Ptr.tail l = Some t).
    { rewrite Tl, Ef, rev_app_distr. reflexivity. }
    rewrite Tt.
    assert (Nt : t <> n).
    { intros ->. apply Fresh. rewrite Ef. apply in_or_app. right. now left. }
    eexists. split; [reflexivity|]. split; [|split].
    + constructor; cbn [Ptr.cells Ptr.head Ptr.tail].
      * assumption.
      * rewrite Hh in Hd. rewrite Hd, Ea. reflexivity.
      * now rewrite rev_app_distr.
      * destruct (vals_snoc _ _ _ _ _ _ ltac:(rewrite Ef in C; exact C))
          as [vf [vt [Ev Lv]]].
        apply chain_app.
        { rewrite (chain_length _ _ _ _ _ C). reflexivity. }
        split.
        -- apply (chain_frame
                    (Ptr.update t (Ptr.set_next (Some n))
                       (Ptr.cells l ++ [Ptr.mkCell x None None]))).
           { intros a I. apply nth_update_other. intros <-. contradiction. }
           rewrite Ef. eapply chain_set_after; [now rewrite <- Ef|].
           rewrite <- Ef. apply chain_extend. exact C.
        -- simpl. split; [|exact I].
           rewrite nth_update_same, nth_update_other by assumption.
           rewrite nth_error_app2 by (fold n; lia). fold n.
           rewrite Nat.sub_diag. simpl.
           rewrite Ef, last_or_snoc. reflexivity.
    + cbn [Ptr.cells]. rewrite !update_length, length_app. simpl. fold n. lia.
    + intros a La Na. cbn [Ptr.cells].
      rewrite nth_update_other by (fold n in La; lia).
      rewrite nth_update_other.
      * now apply nth_error_app1.
      * intros <-. apply Na. rewrite Ef. apply in_or_app. right. now left.
Qed.

Lemma rebuild_from items : forall (l : Ptr.llist P) addrs vals,
  Ptr.linked l addrs vals ->
  exists l',
    fold_left
      (fun st x =>
         match st with Some l => Ptr.append_node l x | None => None end)
      items (Some l) = Some l'
    /\ Ptr.linked l'
         (addrs ++ seq (List.length (Ptr.cells l)) (List.length items))
         (vals ++ items)
    /\ forall a, (a < List.length (Ptr.cells l))%nat -> ~ In a addrs ->
                 nth_error (Ptr.cells l') a = nth_error (Ptr.cells l) a.
Proof.
  induction items as [|x items IH]; intros l addrs vals L.
  - exists l. simpl. rewrite !app_nil_r. auto.
  - destruct (append_linked l addrs vals x L) as [l1 [E1 [L1 [Len1 Old1]]]].
    destruct (IH l1 _ _ L1) as [l' [E' [L' Old']]].
    exists l'. cbn [fold_left]. rewrite E1. split; [exact E'|]. split.
    + rewrite Len1 in L'. cbn [List.length seq].
      now rewrite <- !app_assoc in L'.
    + intros a La Na. rewrite Old'.
      * now apply Old1.
      * lia.
      * intros I. apply in_app_or in I as [I|[<-|[]]]; [contradiction|lia].
Qed.

(** X18. [_rebuild_top5_linked_list] followed by
    [get_top_five_most_frequent] gives the list back: the rebuild never
    follows a missing reference, the nodes it links form a well-formed doubly
    linked list holding the items in order, the walk from the head along
    [next] reads the items, the walk from the tail along [prev] reads them in
    reverse, and the objects that were in the store before are untouched. *)
Theorem rebuild_then_read_round_trip (h : Ptr.store P) (items : list P) :
  exists l,
    Ptr.rebuild h items = Some l
    /\ Ptr.linked l (seq (List.length h) (List.length items)) items
    /\ (forall fuel, (List.length items <= fuel)%nat ->
          Ptr.walk fuel (Ptr.cells l) (Ptr.head l) = Some items
          /\ Ptr.walk_back fuel (Ptr.cells l) (Ptr.tail l)
             = Some (rev items))
    /\ forall a, (a < List.length h)%nat ->
                 nth_error (Ptr.cells l) a = nth_error h a.
Proof.
  assert (L0 : Ptr.linked (Ptr.mkList h None None) [] (@nil P)).
  { constructor; simpl; auto. constructor. }
  destruct (rebuild_from items _ _ _ L0) as [l [E [L Old]]].
  simpl in L, Old. exists l. split; [exact E|]. split; [exact L|]. split.
  - intros fuel F. destruct L as [ND Hd Tl C].
    rewrite Hd, Tl. split.
    + replace (hd_error (seq (List.length h) (List.length items)))
        with (Ptr.first_or (seq (List.length h) (List.length items)) None)
        by (destruct (seq _ _); reflexivity).
      apply (walk_chain _ _ None); [assumption|now rewrite length_seq].
    + change (hd_error (rev (seq (List.length h) (List.length items))))
        with (last_or (seq (List.length h) (List.length items)) None).
      apply (walk_back_chain _ _ _ None); [assumption|now rewrite length_seq].
  - intros a La. apply Old; [assumption|intros []].
Qed.
End PtrAppend.

Section PtrEdit.
Context {P : Type}.

Lemma last_or_none_iff addrs : last_or addrs None = None <-> addrs = [].
Proof.
  unfold last_or. split.
  - destruct (rev addrs) eqn:R; [|discriminate]. intros _.
    apply (f_equal (@rev nat)) in R. now rewrite rev_involutive in R.
  - now intros ->.
Qed.

Lemma last_or_app_cons before a rest d :
  last_or (before ++ a :: rest) d = last_or (a :: rest) d.
Proof.
  unfold last_or. rewrite rev_app_distr. simpl.
  destruct (rev rest); reflexivity.
Qed.

Lemma hd_rev_app_nonempty (before after : list nat) x :
  after <> [] ->
  hd_error (rev (before ++ x :: after)) = hd_error (rev (before ++ after)).
Proof.
  intros N. destruct (exists_last N) as [front [t ->]].
  rewrite !rev_app_distr. simpl. now rewrite rev_app_distr.
Qed.

Lemma NoDup_app_disjoint {A} (l1 l2 : list A) a :
  NoDup (l1 ++ l2) -> In a l1 -> In a l2 -> False.
Proof.
  induction l1 as [|x l1 IH]; simpl; intros ND I1 I2; [contradiction|].
  inversion ND as [|? ? Hx ND']; subst. destruct I1 as [->|I1]; [|auto].
  apply Hx, in_or_app. now right.
Qed.

Lemma list_last_cases {A} (l : list A) :
  l = [] \/ exists front x, l = front ++ [x].
Proof.
  destruct l as [|a l]; [now left|right].
  destruct (@exists_last _ (a :: l)) as [front [x E]]; [discriminate|].
  now exists front, x.
Qed.

(** Unlinking the node between [front] and [back]. *)
Lemma remove_linked (l : Ptr.llist P) front node back vf v vb :
  List.length front = List.length vf ->
  Ptr.linked l (front ++ node :: back) (vf ++ v :: vb) ->
  exists l',
    Ptr.remove_node l node = Some l'
    /\ Ptr.linked l' (front ++ back) (vf ++ vb)
    /\ List.length (Ptr.cells l') = List.length (Ptr.cells l).
Proof.
  intros Len [ND Hd Tl C].
  apply chain_app in C as [C1 C2]; [|assumption].
  cbn [Ptr.chain] in C2. destruct C2 as [Cn C2].
  pose proof (NoDup_remove_1 _ _ _ ND) as ND'.
  pose proof (NoDup_remove_2 _ _ _ ND) as Nn.
  assert (NDb : NoDup back) by (now apply NoDup_app_remove_l in ND').
  assert (Dfb : forall a, In a front -> In a back -> False)
    by (intros a; now apply NoDup_app_disjoint).
  unfold Ptr.remove_node. rewrite Cn. cbn [Ptr.prev Ptr.next].
  destruct (list_last_cases front) as [Ef|[fr [p Ef]]].
  - (* the node is the head *)
    subst front. destruct vf; [|discriminate].
    change (last_or [] None) with (@None nat) in *. cbn [app] in *.
    destruct back as [|b0 back'].
    + destruct vb; [|contradiction]. cbn. eexists. split; [reflexivity|].
      split; [|reflexivity]. constructor; simpl; auto.
    + cbn [Ptr.first_or]. cbv iota beta. eexists. split; [reflexivity|].
      split; [|cbn [Ptr.cells]; now rewrite update_length].
      constructor; cbn [Ptr.cells Ptr.head Ptr.tail].
      * exact NDb.
      * reflexivity.
      * rewrite Tl. apply (hd_rev_app_nonempty [] (b0 :: back') node).
        discriminate.
      * eapply chain_set_before; [exact NDb|exact C2].
  - (* the node has a predecessor [p] *)
    assert (Ip : In p front) by (rewrite Ef; apply in_or_app; right; now left).
    assert (Nf : front <> []) by (rewrite Ef; now destruct fr).
    assert (Hh : hd_error (front ++ node :: back) = hd_error (front ++ back))
      by (destruct front; [congruence|reflexivity]).
    replace (last_or front None) with (Some p)
      by (now rewrite Ef, last_or_snoc).
    assert (C1' : Ptr.chain
                    (Ptr.update p (Ptr.set_next (Ptr.first_or back None))
                       (Ptr.cells l))
                    None front vf (Ptr.first_or back None)).
    { rewrite Ef. eapply chain_set_after.
      - rewrite <- Ef. now apply NoDup_app_remove_r in ND'.
      - rewrite <- Ef. exact C1. }
    destruct back as [|b0 back'].
    + destruct vb; [|contradiction]. cbn [Ptr.first_or] in *. cbv iota beta.
      eexists. split; [reflexivity|].
      split; [|cbn [Ptr.cells]; now rewrite update_length].
      constructor; cbn [Ptr.cells Ptr.head Ptr.tail].
      * exact ND'.
      * now rewrite Hd, Hh.
      * rewrite app_nil_r, Ef, rev_app_distr. reflexivity.
      * apply chain_app; [assumption|]. split; [exact C1'|exact I].
    + cbn [Ptr.first_or] in *. cbv iota beta.
      eexists. split; [reflexivity|].
      split; [|cbn [Ptr.cells]; now rewrite !update_length].
      constructor; cbn [Ptr.cells Ptr.head Ptr.tail].
      * exact ND'.
      * now rewrite Hd, Hh.
      * rewrite Tl. apply hd_rev_app_nonempty. discriminate.
      * apply chain_app; [assumption|]. split.
        -- apply (chain_frame
                    (Ptr.update p (Ptr.set_next (Some b0)) (Ptr.cells l)));
             [|exact C1'].
           intros a Ia. apply nth_update_other. intros <-.
           apply (Dfb b0); [assumption|now left].
        -- replace (last_or front None) with (Some p)
             by (now rewrite Ef, last_or_snoc).
           eapply chain_set_before; [exact NDb|].
           apply (chain_frame (Ptr.cells l)); [|exact C2].
           intros a Ia. apply nth_update_other. intros <-.
           now apply (Dfb p).
Qed.
End PtrEdit.

Section PtrLink.
Context {P : Type}.

Lemma hd_rev_cons (x : nat) (l : list nat) :
  l <> [] -> hd_error (rev (x :: l)) = hd_error (rev l).
Proof. intros N. apply (hd_rev_app_nonempty [] l x N). Qed.

Lemma chain_cons (h : Ptr.store P) before a addrs v vals after :
  nth_error h a = Some (Ptr.mkCell v (Ptr.first_or addrs after) before) ->
  Ptr.chain h (Some a) addrs vals after ->
  Ptr.chain h before (a :: addrs) (v :: vals) after.
Proof. intros H C. split; assumption. Qed.

(** Linking the fresh node at [n] before the node [cur]. *)
Lemma link_before_linked (l : Ptr.llist P) front cur back vf vc vb n x :
  List.length front = List.length vf ->
  Ptr.linked l (front ++ cur :: back) (vf ++ vc :: vb) ->
  ~ In n (front ++ cur :: back) ->
  nth_error (Ptr.cells l) n = Some (Ptr.mkCell x None None) ->
  exists l',
    Ptr.link_before l n cur = Some l'
    /\ Ptr.linked l' (front ++ n :: cur :: back) (vf ++ x :: vc :: vb)
    /\ List.length (Ptr.cells l') = List.length (Ptr.cells l).
Proof.
  intros Len [ND Hd Tl C] Fresh Hn.
  apply chain_app in C as [C1 C2]; [|assumption].
  pose proof C2 as C2full.
  cbn [Ptr.chain] in C2. destruct C2 as [Cc C2].
  assert (Ncur : n <> cur).
  { intros ->. apply Fresh, in_or_app. right. now left. }
  assert (Nfront : forall a, In a front -> a <> n).
  { intros a I ->. apply Fresh, in_or_app. now left. }
  assert (Nback : forall a, In a (cur :: back) -> a <> n).
  { intros a I ->. apply Fresh, in_or_app. now right. }
  assert (NDcb : NoDup (cur :: back)) by (now apply NoDup_app_remove_l in ND).
  assert (NDf : NoDup front) by (now apply NoDup_app_remove_r in ND).
  assert (Dis : forall a, In a front -> In a (cur :: back) -> False)
    by (intros a; now apply NoDup_app_disjoint).
  assert (NDnew : NoDup (front ++ n :: cur :: back)).
  { apply NoDup_app; [assumption| |].
    - constructor; [|assumption]. intros I. now apply (Nback n).
    - intros a If [E|Ib]; [subst a; now apply (Nfront n)|now apply (Dis a)]. }
  set (h := Ptr.cells l) in *.
  set (h2 := Ptr.update n (Ptr.set_prev (last_or front None))
               (Ptr.update n (Ptr.set_next (Some cur)) h)).
  assert (Hn2 : nth_error h2 n
                = Some (Ptr.mkCell x (Some cur) (last_or front None))).
  { unfold h2. now rewrite !nth_update_same, Hn. }
  assert (F2 : forall a, a <> n -> nth_error h2 a = nth_error h a).
  { intros a Na. unfold h2. now rewrite !nth_update_other by congruence. }
  unfold Ptr.link_before. fold h. rewrite Cc. cbn [Ptr.prev]. fold h2.
  destruct (list_last_cases front) as [Ef|[fr [p Ef]]].
  - subst front. destruct vf; [|discriminate].
    change (last_or [] None) with (@None nat) in *. cbn [app] in *.
    cbv iota beta. eexists. split; [reflexivity|].
    split; [|cbn [Ptr.cells]; unfold h2; now rewrite !update_length].
    constructor; cbn [Ptr.cells Ptr.head Ptr.tail].
    + exact NDnew.
    + reflexivity.
    + rewrite Tl. symmetry. apply hd_rev_cons. discriminate.
    + apply chain_cons.
      * rewrite nth_update_other by congruence. exact Hn2.
      * eapply chain_set_before; [exact NDcb|].
        apply (chain_frame h); [|exact C2full].
        intros a I. apply F2. now apply Nback.
  - assert (Ip : In p front) by (rewrite Ef; apply in_or_app; right; now left).
    assert (Lp : last_or front None = Some p)
      by (now rewrite Ef, last_or_snoc).
    assert (Hh : hd_error (front ++ cur :: back)
                 = hd_error (front ++ n :: cur :: back))
      by (rewrite Ef; now destruct fr).
    rewrite Lp in *. cbv iota beta. eexists. split; [reflexivity|].
    split; [|cbn [Ptr.cells]; unfold h2; now rewrite !update_length].
    constructor; cbn [Ptr.cells Ptr.head Ptr.tail].
    + exact NDnew.
    + now rewrite Hd, Hh.
    + rewrite Tl.
      rewrite (hd_rev_app_nonempty front (cur :: back) n) by discriminate.
      reflexivity.
    + apply chain_app; [assumption|]. split.
      * apply (chain_frame (Ptr.update p (Ptr.set_next (Some n)) h2)).
        { intros a I. apply nth_update_other. intros <-.
          apply (Dis cur); [assumption|now left]. }
        rewrite Ef. eapply chain_set_after; [now rewrite <- Ef|].
        rewrite <- Ef. apply (chain_frame h); [|exact C1].
        intros a I. apply F2. now apply Nfront.
      * rewrite Lp. apply chain_cons.
        -- rewrite !nth_update_other; [exact Hn2| |congruence].
           intros <-. now apply (Nfront p).
        -- eapply chain_set_before; [exact NDcb|].
           apply (chain_frame h); [|exact C2full].
           intros a I. rewrite nth_update_other.
           ++ apply F2. now apply Nback.
           ++ intros <-. now apply (Dis p).
Qed.

(** Writing the data of the node between [front] and [back]. *)
Lemma chain_set_payload (h : Ptr.store P) before front a back vf v vb v'
  after :
  List.length front = List.length vf ->
  NoDup (front ++ a :: back) ->
  Ptr.chain h before (front ++ a :: back) (vf ++ v :: vb) after ->
  Ptr.chain (Ptr.update a (Ptr.set_payload v') h) before
    (front ++ a :: back) (vf ++ v' :: vb) after.
Proof.
  intros Len ND C.
  apply chain_app in C as [C1 C2]; [|assumption].
  apply chain_app; [assumption|].
  cbn [Ptr.chain] in *. destruct C2 as [Ca C2]. split; [|split].
  - apply (chain_frame h); [|assumption].
    intros b I. apply nth_update_other. intros <-.
    now apply NoDup_remove_2 in ND; apply ND, in_or_app; left.
  - now rewrite nth_update_same, Ca.
  - apply (chain_frame h); [|assumption].
    intros b I. apply nth_update_other. intros <-.
    now apply NoDup_remove_2 in ND; apply ND, in_or_app; right.
Qed.
End PtrLink.

(** ** The frequency count list in the store *)

Lemma find_chain fq h addrs : forall before vals fuel,
  Ptr.chain h before addrs vals None ->
  (List.length addrs <= fuel)%nat ->
  Ptr.find_node fuel h (Ptr.first_or addrs None) fq
  = Some match _find_frequency_node fq vals with
         | Some i => nth_error addrs i
         | None => None
         end.
Proof.
  induction addrs as [|a addrs IH]; intros before [|v vals] fuel C L;
    simpl in C; try contradiction.
  - now destruct fuel.
  - destruct fuel as [|fuel]; [simpl in L; lia|]. destruct C as [Ca C].
    cbn [Ptr.first_or Ptr.find_node _find_frequency_node].
    rewrite Ca. cbn [Ptr.payload Ptr.next].
    destruct (frequency v =? fq); [reflexivity|].
    rewrite (IH (Some a) vals fuel C) by (simpl in L; lia).
    now destruct (_find_frequency_node fq vals).
Qed.

Lemma seek_chain fq h addrs : forall before vals fuel,
  Ptr.chain h before addrs vals None ->
  (List.length addrs <= fuel)%nat ->
  Ptr.seek fuel h (Ptr.first_or addrs None) fq
  = Some (Ptr.first_or (skipn (lead fq vals) addrs) None).
Proof.
  induction addrs as [|a addrs IH]; intros before [|v vals] fuel C L;
    simpl in C; try contradiction.
  - now destruct fuel.
  - destruct fuel as [|fuel]; [simpl in L; lia|]. destruct C as [Ca C].
    cbn [Ptr.first_or Ptr.seek lead].
    rewrite Ca. cbn [Ptr.payload Ptr.next].
    destruct (frequency v >? fq); [|reflexivity].
    rewrite (IH (Some a) vals fuel C) by (simpl in L; lia). reflexivity.
Qed.

Lemma insert_walk_lead x vals :
  insert_walk x vals
  = firstn (lead (frequency x) vals) vals
    ++ x :: skipn (lead (frequency x) vals) vals.
Proof.
  induction vals as [|v vals IH]; cbn [insert_walk lead]; [reflexivity|].
  destruct (frequency v >? frequency x); [|reflexivity].
  cbn [firstn skipn app]. now rewrite <- IH.
Qed.

Lemma lead_le fq vals : (lead fq vals <= List.length vals)%nat.
Proof.
  induction vals as [|v vals IH]; cbn [lead List.length]; [lia|].
  destruct (frequency v >? fq); lia.
Qed.

(** [_insert_frequency_node] on the store does what [insert_walk] does on
    the list of nodes. *)
Lemma insert_linked (l : Ptr.llist FrequencyCountNode) addrs vals fq cnt
  fuel :
  Ptr.linked l addrs vals -> (List.length addrs <= fuel)%nat ->
  exists l' addrs',
    Ptr.insert_node fuel l fq cnt = Some l'
    /\ Ptr.linked l' addrs' (insert_walk (mkNode fq cnt) vals)
    /\ List.length (Ptr.cells l') = S (List.length (Ptr.cells l)).
Proof.
  intros L F. pose proof L as [ND Hd Tl C].
  pose proof (chain_length _ _ _ _ _ C) as Len.
  pose proof (linked_fresh _ _ _ L) as Fresh.
  set (k := lead fq vals).
  assert (Kle : (k <= List.length vals)%nat) by apply lead_le.
  rewrite insert_walk_lead. cbn [frequency]. fold k.
  unfold Ptr.insert_node.
  destruct addrs as [|a0 rest] eqn:Ea.
  { (* empty list *)
    simpl in Hd. rewrite Hd. destruct vals; [|contradiction].
    destruct (append_linked l [] [] (mkNode fq cnt) L) as [l' [E [L' [Ln _]]]].
    exists l', [List.length (Ptr.cells l)]. now rewrite E. }
  rewrite <- Ea in *.
  assert (Sk : Ptr.seek fuel (Ptr.cells l) (Ptr.head l) fq
               = Some (Ptr.first_or (skipn k addrs) None)).
  { rewrite Hd. replace (hd_error addrs) with (Ptr.first_or addrs None)
      by (now rewrite Ea).
    apply (seek_chain fq _ _ None vals fuel C F). }
  rewrite Sk.
  assert (Hh : exists a, Ptr.head l = Some a) by (exists a0; now rewrite Hd, Ea).
  destruct Hh as [ah Hh].
  assert (Hm : forall (X Y : option (Ptr.llist FrequencyCountNode)),
             match Ptr.head l with None => X | Some _ => Y end = Y)
    by (intros X Y; now rewrite Hh).
  rewrite Hm. clear Hm.
  destruct (skipn k addrs) as [|cur back] eqn:Es.
  { (* every node has a higher frequency: link after the tail *)
    cbn [Ptr.first_or].
    destruct (append_linked l addrs vals (mkNode fq cnt) L)
      as [l' [E [L' [Ln _]]]].
    exists l', (addrs ++ [List.length (Ptr.cells l)]).
    split; [exact E|]. split; [|exact Ln].
    assert (Kall : (List.length addrs <= k)%nat).
    { apply (f_equal (@List.length nat)) in Es. rewrite length_skipn in Es.
      simpl in Es. lia. }
    rewrite firstn_all2, skipn_all2 by lia. exact L'. }
  (* link before [cur] *)
  cbn [Ptr.first_or].
  set (n := List.length (Ptr.cells l)) in *.
  set (cell0 := Ptr.mkCell (mkNode fq cnt) None None).
  set (l1 := Ptr.mkList (Ptr.cells l ++ [cell0]) (Ptr.head l) (Ptr.tail l)).
  assert (Ea' : addrs = firstn k addrs ++ cur :: back)
    by (now rewrite <- Es, firstn_skipn).
  assert (Klt : (k < List.length addrs)%nat).
  { apply (f_equal (@List.length nat)) in Es. rewrite length_skipn in Es.
    simpl in Es. lia. }
  destruct (skipn k vals) as [|vc vb] eqn:Ev.
  { apply (f_equal (@List.length FrequencyCountNode)) in Ev.
    rewrite length_skipn in Ev. simpl in Ev. lia. }
  assert (Ev' : vals = firstn k vals ++ vc :: vb)
    by (now rewrite <- Ev, firstn_skipn).
  assert (L1 : Ptr.linked l1 (firstn k addrs ++ cur :: back)
                 (firstn k vals ++ vc :: vb)).
  { rewrite <- Ea', <- Ev'. constructor; cbn [Ptr.cells Ptr.head Ptr.tail];
      try assumption. now apply chain_extend. }
  destruct (link_before_linked l1 (firstn k addrs) cur back
              (firstn k vals) vc vb n (mkNode fq cnt)) as [l' [E [L' Ln]]].
  - rewrite !length_firstn. lia.
  - exact L1.
  - now rewrite <- Ea'.
  - unfold l1. cbn [Ptr.cells]. rewrite nth_error_app2 by (fold n; lia).
    fold n. now rewrite Nat.sub_diag.
  - exists l', (firstn k addrs ++ n :: cur :: back).
    split; [exact E|]. split; [exact L'|].
    rewrite Ln. unfold l1. cbn [Ptr.cells]. rewrite length_app. simpl.
    fold n. lia.
Qed.

Lemma find_index_valid fq vals i :
  _find_frequency_node fq vals = Some i ->
  exists v, nth_error vals i = Some v.
Proof.
  revert i. induction vals as [|a vals IH]; intros i;
    cbn [_find_frequency_node]; [discriminate|].
  destruct (frequency a =? fq).
  - intros [= <-]. now exists a.
  - destruct (_find_frequency_node fq vals) as [j|]; [|discriminate].
    intros [= <-]. destruct (IH j eq_refl) as [v Hv]. now exists v.
Qed.

Lemma add_to_count_middle change vf v vb :
  add_to_count (List.length vf) change (vf ++ v :: vb)
  = vf ++ mkNode (frequency v) (count v + change) :: vb.
Proof.
  induction vf as [|a vf IH]; simpl; [reflexivity|]. now rewrite IH.
Qed.

Lemma nth_error_middle {A} (front : list A) x back :
  nth_error (front ++ x :: back) (List.length front) = Some x.
Proof.
  rewrite nth_error_app2 by lia. now rewrite Nat.sub_diag.
Qed.

(** One delta on the store does what [update_frequency_count] does on the
    list of nodes. *)
Lemma update_count_linked (l : Ptr.llist FrequencyCountNode) addrs vals item
  fuel :
  Ptr.linked l addrs vals -> (List.length addrs <= fuel)%nat ->
  exists l' addrs',
    Ptr.update_count fuel l item = Some l'
    /\ Ptr.linked l' addrs' (update_frequency_count vals item).
Proof.
  intros L F. destruct item as [fq change].
  unfold Ptr.update_count, update_frequency_count.
  destruct (change =? 0); [now exists l, addrs|].
  pose proof L as [ND Hd Tl C].
  pose proof (chain_length _ _ _ _ _ C) as Len.
  assert (Fd : Ptr.find_node fuel (Ptr.cells l) (Ptr.head l) fq
               = Some match _find_frequency_node fq vals with
                      | Some i => nth_error addrs i
                      | None => None
                      end).
  { rewrite Hd. replace (hd_error addrs) with (Ptr.first_or addrs None)
      by (now destruct addrs).
    apply (find_chain fq _ _ None vals fuel C F). }
  rewrite Fd. clear Fd.
  destruct (_find_frequency_node fq vals) as [i|] eqn:Fi.
  - destruct (find_index_valid _ _ _ Fi) as [v Hv].
    destruct (nth_error_split _ _ Hv) as [vf [vb [Ev Lv]]].
    assert (Ha : exists node, nth_error addrs i = Some node).
    { destruct (nth_error addrs i) eqn:E; [eauto|].
      apply nth_error_None in E.
      assert (i < List.length vals)%nat by (apply nth_error_Some; congruence).
      lia. }
    destruct Ha as [node Ha]. rewrite Ha.
    destruct (nth_error_split _ _ Ha) as [front [back [Ea La]]].
    subst addrs vals. rewrite <- Lv.
    assert (Lfv : List.length front = List.length vf) by lia.
    pose proof C as C'.
    apply chain_app in C' as [_ C2]; [|assumption].
    cbn [Ptr.chain] in C2. destruct C2 as [Cn _].
    rewrite Cn. cbn [Ptr.payload].
    rewrite add_to_count_middle, nth_error_middle. cbn [count].
    set (v' := mkNode (frequency v) (count v + change)).
    set (l2 := Ptr.mkList (Ptr.update node (Ptr.set_payload v') (Ptr.cells l))
                 (Ptr.head l) (Ptr.tail l)).
    assert (L2 : Ptr.linked l2 (front ++ node :: back) (vf ++ v' :: vb)).
    { constructor; unfold l2; cbn [Ptr.cells Ptr.head Ptr.tail];
        try assumption.
      eapply chain_set_payload; [exact Lfv|exact ND|exact C]. }
    destruct (count v + change <=? 0).
    + destruct (remove_linked l2 front node back vf v' vb Lfv L2)
        as [l' [E [L' _]]].
      exists l', (front ++ back). rewrite remove_at_middle. now split.
    + exists l2, (front ++ node :: back). now split.
  - destruct (change >? 0); [|now exists l, addrs].
    destruct (insert_linked l addrs vals fq change fuel L F)
      as [l' [addrs' [E [L' _]]]].
    exists l', addrs'. split; [exact E|].
    now rewrite insert_node_is_walk.
Qed.

Lemma update_counts_linked changes :
  forall (l : Ptr.llist FrequencyCountNode) addrs vals,
  Ptr.linked l addrs vals ->
  exists l' addrs',
    Ptr.update_counts l changes = Some l'
    /\ Ptr.linked l' addrs' (_update_frequency_counts changes vals).
Proof.
  unfold Ptr.update_counts, _update_frequency_counts.
  induction changes as [|item changes IH]; intros l addrs vals L.
  - now exists l, addrs.
  - destruct (update_count_linked l addrs vals item
                (List.length (Ptr.cells l)) L (linked_bound _ _ _ L))
      as [l1 [addrs1 [E1 L1]]].
    destruct (IH l1 addrs1 _ L1) as [l' [addrs' [E' L']]].
    exists l', addrs'. cbn [fold_left]. rewrite E1. now split.
Qed.

Lemma walk_linked {P} (l : Ptr.llist P) addrs vals fuel :
  Ptr.linked l addrs vals -> (List.length addrs <= fuel)%nat ->
  Ptr.walk fuel (Ptr.cells l) (Ptr.head l) = Some vals
  /\ Ptr.walk_back fuel (Ptr.cells l) (Ptr.tail l) = Some (rev vals).
Proof.
  intros [ND Hd Tl C] F. rewrite Hd, Tl. split.
  - replace (hd_error addrs) with (Ptr.first_or addrs None)
      by (now destruct addrs).
    now apply (walk_chain _ _ None).
  - change (hd_error (rev addrs)) with (last_or addrs None).
    now apply (walk_back_chain _ _ _ None).
Qed.

Lemma lowest_linked (l : Ptr.llist FrequencyCountNode) addrs vals :
  Ptr.linked l addrs vals ->
  Ptr.lowest_frequency l
  = Some match vals with
         | [] => 0
         | n :: rest => frequency (last rest n)
         end.
Proof.
  intros [ND Hd Tl C]. unfold Ptr.lowest_frequency. rewrite Tl.
  destruct (list_last_cases addrs) as [->|[front [t ->]]].
  - now destruct vals.
  - rewrite rev_app_distr. cbn [rev app hd_error].
    destruct (vals_snoc _ _ _ _ _ _ C) as [vf [vt [-> Lf]]].
    apply chain_app in C as [_ C2]; [|assumption].
    cbn [Ptr.chain] in C2. destruct C2 as [Ct _]. rewrite Ct.
    cbn [option_map Ptr.payload]. do 2 f_equal.
    destruct vf as [|v0 vf]; [reflexivity|]. cbn [app].
    rewrite <- (last_cons (vf ++ [vt]) v0 v0). cbn [app].
    change (v0 :: vf ++ [vt]) with ((v0 :: vf) ++ [vt]).
    now rewrite last_last.
Qed.

(** ** The analyzer with its lists in the store *)

Lemma rebuild_linked {P} (h : Ptr.store P) (items : list P) :
  exists l addrs, Ptr.rebuild h items = Some l /\ Ptr.linked l addrs items.
Proof.
  assert (L0 : Ptr.linked (Ptr.mkList h None None) [] (@nil P)).
  { constructor; simpl; auto. constructor. }
  destruct (rebuild_from items _ _ _ L0) as [l [E [L _]]].
  exists l. eexists. split; [exact E|exact L].
Qed.

Lemma linked_empty {P} (h : Ptr.store P) :
  Ptr.linked (Ptr.mkList h None None) [] [].
Proof. constructor; simpl; auto. constructor. Qed.

Lemma tally_view st self words :
  s_counts st = word_counts self -> s_total st = total_words self ->
  tally (counts_view st) words = tally self words.
Proof. intros Hc Ht. unfold tally, counts_view. simpl. now rewrite Hc, Ht. Qed.

Lemma reconcile_counts_only a b changed : forall cur,
  word_counts a = word_counts b ->
  reconcile a changed cur = reconcile b changed cur.
Proof.
  unfold reconcile. induction changed as [|w changed IH]; intros cur H;
    [reflexivity|].
  cbn [fold_left]. rewrite (IH _ H). f_equal.
  unfold reconcile_word. now rewrite H.
Qed.

Lemma represents_queries st self :
  represents st self ->
  stored_top_five st = Some (get_top_five_most_frequent self)
  /\ stored_frequency_counts st = Some (get_frequency_counts self)
  /\ stored_lowest_frequency st = Some (get_lowest_frequency self).
Proof.
  intros [_ _ [ta Lt] [fa Lf]].
  unfold stored_top_five, stored_frequency_counts, stored_lowest_frequency.
  destruct (walk_linked _ _ _ _ Lt (linked_bound _ _ _ Lt)) as [Wt _].
  destruct (walk_linked _ _ _ _ Lf (linked_bound _ _ _ Lf)) as [Wf _].
  rewrite Wt, Wf. split; [reflexivity|]. split; [reflexivity|].
  now rewrite (lowest_linked _ _ _ Lf).
Qed.

Section StoredFacts.
Variable set_iter : list string -> list string.

Lemma stored_add_words_represents s st self :
  represents st self ->
  exists st',
    stored_add_words set_iter s st = Some st'
    /\ represents st' (add_words set_iter s self).
Proof.
  intros R. pose proof R as [Hc Ht [ta Lt] [fa Lf]].
  unfold stored_add_words, add_words, add_words_traced.
  destruct (tokens s) as [|w ws]; [now exists st|].
  rewrite (tally_view st self (w :: ws) Hc Ht).
  set (t := tally self (w :: ws)).
  destruct (update_counts_linked (t_changes t) _ _ _ Lf)
    as [freq' [fa' [Ef Lf']]].
  rewrite Ef.
  destruct (t_changed t) as [|c cs].
  { eexists. split; [reflexivity|]. constructor; cbn; eauto. }
  unfold stored_update_top_five. cbn [s_top s_counts s_total s_freq].
  destruct (walk_linked _ _ _ _ Lt (linked_bound _ _ _ Lt)) as [Wt _].
  rewrite Wt. unfold _update_top_five_incremental. cbn [top_five].
  set (self1 := mkAnalyzer (t_counts t) (top_five self)
                  (_update_frequency_counts (t_changes t) (freq_list self))
                  (t_total t)).
  set (st1 := mkStored (t_counts t) (t_total t) (s_top st) freq').
  destruct (top_five self) as [|e cur] eqn:Et.
  - destruct (rebuild_linked (Ptr.cells (s_top st))
                (_build_initial_top5 (counts_view st1)))
      as [top' [ta' [Er Lr]]].
    rewrite Er. eexists. split; [reflexivity|].
    constructor; cbn; eauto.
  - assert (Erec : reconcile (counts_view st1) (set_iter (c :: cs)) (e :: cur)
                   = reconcile self1 (set_iter (c :: cs)) (e :: cur))
      by (now apply reconcile_counts_only).
    rewrite Erec.
    destruct (rebuild_linked (Ptr.cells (s_top st))
                (reconcile self1 (set_iter (c :: cs)) (e :: cur)))
      as [top' [ta' [Er Lr]]].
    rewrite Er. eexists. split; [reflexivity|].
    constructor; cbn; eauto.
Qed.

Lemma stored_run_represents ops :
  exists st,
    stored_run set_iter ops = Some st /\ represents st (run set_iter ops).
Proof.
  induction ops as [|o ops [st [E R]]] using rev_ind.
  - exists stored_init. split; [reflexivity|].
    constructor; cbn; try reflexivity; exists []; apply linked_empty.
  - unfold stored_run in *. rewrite fold_left_app, E, run_snoc.
    cbn [fold_left stored_step]. destruct o as [s|]; cbn [step].
    + now apply stored_add_words_represents.
    + exists (stored_clear st). split; [reflexivity|].
      constructor; cbn; try reflexivity; exists []; apply linked_empty.
Qed.

(** X19. [add_words] as the source runs it, on node objects linked by [next]
    and [prev], does what the model on plain lists does: from an object that
    holds a state it never follows a missing reference and no loop runs out
    of fuel, and the object it leaves holds the state the model computes,
    with both lists well-formed doubly linked lists. *)
Theorem stored_add_words_refines (s : string) (st : Stored)
  (self : Analyzer) :
  represents st self ->
  exists st',
    stored_add_words set_iter s st = Some st'
    /\ represents st' (add_words set_iter s self)
    /\ stored_top_five st'
       = Some (get_top_five_most_frequent (add_words set_iter s self))
    /\ stored_frequency_counts st'
       = Some (get_frequency_counts (add_words set_iter s self))
    /\ stored_lowest_frequency st'
       = Some (get_lowest_frequency (add_words set_iter s self)).
Proof.
  intros R. destruct (stored_add_words_represents s st self R) as [st' [E R']].
  exists st'. split; [exact E|]. split; [exact R'|].
  now apply represents_queries.
Qed.

(** X20. After any sequence of batches and resets from construction, the
    object with its linked lists answers as the model does: the run never
    fails, and walking the top 5 list, walking the frequency count list and
    reading the tail give the model's top 5, histogram and lowest
    frequency. *)
Theorem stored_run_refines (ops : list op) :
  exists st,
    stored_run set_iter ops = Some st
    /\ s_counts st = get_all_frequencies (run set_iter ops)
    /\ s_total st = total_words (run set_iter ops)
    /\ stored_top_five st
       = Some (get_top_five_most_frequent (run set_iter ops))
    /\ stored_frequency_counts st
       = Some (get_frequency_counts (run set_iter ops))
    /\ stored_lowest_frequency st
       = Some (get_lowest_frequency (run set_iter ops)).
Proof.
  destruct (stored_run_represents ops) as [st [E R]].
  exists st. split; [exact E|].
  split; [apply R|]. split; [apply R|]. now apply represents_queries.
Qed.
End StoredFacts.

(** ** The operations on the frequency count list, one by one *)

Lemma find_frequency_node_hit fq l : forall i n,
  _find_frequency_node fq l = Some i -> nth_error l i = Some n ->
  frequency n = fq.
Proof.
  induction l as [|a l IH]; intros i n; cbn [_find_frequency_node];
    [discriminate|].
  destruct (Z.eqb_spec (frequency a) fq) as [E|N].
  - intros [= <-] [= <-]. exact E.
  - destruct (_find_frequency_node fq l) as [j|] eqn:Fj; [|discriminate].
    intros [= <-] Hn. now apply (IH j n).
Qed.

Lemma find_frequency_node_miss fq l :
  _find_frequency_node fq l = None -> forall n, In n l -> frequency n <> fq.
Proof.
  induction l as [|a l IH]; cbn [_find_frequency_node]; [now intros _ n []|].
  destruct (Z.eqb_spec (frequency a) fq) as [E|N]; [discriminate|].
  destruct (_find_frequency_node fq l) as [j|]; [discriminate|].
  intros _ n [<-|I]; [exact N|now apply IH].
Qed.

(** X21. [_find_frequency_node] on the node objects returns the node the
    search on the list of nodes points at: following [next] from the head of
    a well-formed list it never meets a missing reference, it returns the
    object of the first node with the frequency, and no object when no node
    holds the frequency. *)
Theorem store_find_matches_list (l : Ptr.llist FrequencyCountNode)
  (addrs : list nat) (vals : list FrequencyCountNode) (fq : Z) (fuel : nat) :
  Ptr.linked l addrs vals -> (List.length addrs <= fuel)%nat ->
  match _find_frequency_node fq vals with
  | Some i =>
      exists node c,
        Ptr.find_node fuel (Ptr.cells l) (Ptr.head l) fq = Some (Some node)
        /\ nth_error addrs i = Some node
        /\ nth_error (Ptr.cells l) node = Some c
        /\ nth_error vals i = Some (Ptr.payload c)
        /\ frequency (Ptr.payload c) = fq
  | None =>
      Ptr.find_node fuel (Ptr.cells l) (Ptr.head l) fq = Some None
      /\ forall n, In n vals -> frequency n <> fq
  end.
Proof.
  intros L F. pose proof L as [ND Hd Tl C].
  pose proof (chain_length _ _ _ _ _ C) as Len.
  assert (Fd : Ptr.find_node fuel (Ptr.cells l) (Ptr.head l) fq
               = Some match _find_frequency_node fq vals with
                      | Some i => nth_error addrs i
                      | None => None
                      end).
  { rewrite Hd. replace (hd_error addrs) with (Ptr.first_or addrs None)
      by (now destruct addrs).
    apply (find_chain fq _ _ None vals fuel C F). }
  rewrite Fd. clear Fd.
  destruct (_find_frequency_node fq vals) as [i|] eqn:Fi.
  - destruct (find_index_valid _ _ _ Fi) as [v Hv].
    destruct (nth_error_split _ _ Hv) as [vf [vb [Ev Lv]]].
    assert (Ha : exists node, nth_error addrs i = Some node).
    { destruct (nth_error addrs i) eqn:E; [eauto|].
      apply nth_error_None in E.
      assert (i < List.length vals)%nat by (apply nth_error_Some; congruence).
      lia. }
    destruct Ha as [node Ha].
    destruct (nth_error_split _ _ Ha) as [front [back [Ea La]]].
    subst addrs vals.
    assert (Lfv : List.length front = List.length vf) by lia.
    apply chain_app in C as [_ C2]; [|assumption].
    cbn [Ptr.chain] in C2. destruct C2 as [Cn _].
    exists node. eexists. split; [now rewrite Ha|]. split; [exact Ha|].
    split; [exact Cn|]. cbn [Ptr.payload]. split; [exact Hv|].
    exact (find_frequency_node_hit _ _ _ _ Fi Hv).
  - split; [reflexivity|now apply find_frequency_node_miss].
Qed.

(** X22. [_insert_frequency_node] on the node objects does what the insertion
    on the list of nodes does: on a well-formed list it never follows a
    missing reference, it creates exactly one object, and it leaves a
    well-formed doubly linked list that reads, from the head along [next],
    as the list with the new node in its place, and from the tail along
    [prev] as that list reversed. *)
Theorem store_insert_matches_list (l : Ptr.llist FrequencyCountNode)
  (addrs : list nat) (vals : list FrequencyCountNode) (fq cnt : Z) :
  Ptr.linked l addrs vals ->
  exists l' addrs',
    Ptr.insert_node (List.length (Ptr.cells l)) l fq cnt = Some l'
    /\ Ptr.linked l' addrs' (_insert_frequency_node fq cnt vals)
    /\ List.length (Ptr.cells l') = S (List.length (Ptr.cells l))
    /\ List.length addrs' = S (List.length addrs)
    /\ Ptr.walk (List.length (Ptr.cells l')) (Ptr.cells l') (Ptr.head l')
       = Some (_insert_frequency_node fq cnt vals)
    /\ Ptr.walk_back (List.length (Ptr.cells l')) (Ptr.cells l') (Ptr.tail l')
       = Some (rev (_insert_frequency_node fq cnt vals)).
Proof.
  intros L.
  destruct (insert_linked l addrs vals fq cnt _ L (linked_bound _ _ _ L))
    as [l' [addrs' [E [L' Ln]]]].
  rewrite <- insert_node_is_walk in L'.
  exists l', addrs'. split; [exact E|]. split; [exact L'|].
  split; [exact Ln|]. split.
  - destruct L as [_ _ _ C], L' as [_ _ _ C'].
    apply chain_length in C, C'. rewrite C', C.
    rewrite insert_node_is_walk, insert_walk_lead, length_app.
    cbn [List.length]. rewrite Nat.add_succ_r, <- length_app.
    now rewrite firstn_skipn.
  - apply (walk_linked _ _ _ _ L' (linked_bound _ _ _ L')).
Qed.

(** X23. [_remove_frequency_node] on the node objects unlinks the node it is
    given and no other: on a well-formed list it never follows a missing
    reference, it creates no object, and it leaves a well-formed doubly
    linked list of the other nodes in their order, with [freq_head] and
    [freq_tail] moved when the first or the last node went. *)
Theorem store_remove_matches_list (l : Ptr.llist FrequencyCountNode)
  (addrs : list nat) (vals : list FrequencyCountNode) (i node : nat) :
  Ptr.linked l addrs vals -> nth_error addrs i = Some node ->
  exists l',
    Ptr.remove_node l node = Some l'
    /\ Ptr.linked l' (firstn i addrs ++ skipn (S i) addrs)
         (_remove_frequency_node i vals)
    /\ List.length (Ptr.cells l') = List.length (Ptr.cells l)
    /\ Ptr.head l' = hd_error (firstn i addrs ++ skipn (S i) addrs)
    /\ Ptr.tail l' = hd_error (rev (firstn i addrs ++ skipn (S i) addrs)).
Proof.
  intros L Ha. pose proof L as [ND Hd Tl C].
  pose proof (chain_length _ _ _ _ _ C) as Len.
  destruct (nth_error_split _ _ Ha) as [front [back [Ea La]]].
  assert (Hv : exists v, nth_error vals i = Some v).
  { destruct (nth_error vals i) eqn:E; [eauto|].
    apply nth_error_None in E.
    assert (i < List.length addrs)%nat by (apply nth_error_Some; congruence).
    lia. }
  destruct Hv as [v Hv].
  destruct (nth_error_split _ _ Hv) as [vf [vb [Ev Lv]]].
  subst addrs vals.
  assert (Lfv : List.length front = List.length vf) by lia.
  destruct (remove_linked l front node back vf v vb Lfv L) as [l' [E [L' Ln]]].
  assert (Ef : firstn i (front ++ node :: back) ++ skipn (S i) (front ++ node :: back)
               = front ++ back).
  { rewrite <- La. rewrite firstn_app, Nat.sub_diag, firstn_all.
    cbn [firstn]. rewrite app_nil_r.
    change (S (List.length front)) with (1 + List.length front)%nat.
    rewrite <- skipn_skipn.
    replace (skipn (List.length front) (front ++ node :: back))
      with (node :: back); [reflexivity|].
    rewrite skipn_app, Nat.sub_diag, skipn_all. reflexivity. }
  rewrite Ef. rewrite <- Lv, remove_at_middle.
  exists l'. split; [exact E|]. split; [exact L'|]. split; [exact Ln|].
  destruct L' as [_ Hd' Tl' _]. now split.
Qed.

(** ** The further properties at concrete inputs *)

Local Open Scope string_scope.

Lemma state_depends_on_tokens_only_witness :
  tokens_since_reset [AddWords batch1; AddWords batch2]
  = tokens_since_reset
      [AddWords "apple, banana"; AddWords "APPLE,cherry , banana";
       AddWords " cherry,, elderberry, fig"]
  /\ run reversed [AddWords batch1; AddWords batch2]
     = run in_order
         [AddWords "apple, banana"; AddWords "APPLE,cherry , banana";
          AddWords " cherry,, elderberry, fig"].
Proof.
  split; [reflexivity|].
  exact (proj2 (proj2 (state_depends_on_tokens_only reversed in_order
                  [AddWords batch1; AddWords batch2]
                  [AddWords "apple, banana"; AddWords "APPLE,cherry , banana";
                   AddWords " cherry,, elderberry, fig"]
                  reversed_perm in_order_perm eq_refl))).
Defined.

Lemma batch_can_be_cut_at_a_comma_witness :
  run reversed
    ([AddWords batch1] ++ [AddWords ("banana, cherry" ++ "," ++ " fig")])
  = run reversed
      ([AddWords batch1] ++ [AddWords "banana, cherry"; AddWords " fig"]).
Proof.
  exact (batch_can_be_cut_at_a_comma reversed [AddWords batch1]
           "banana, cherry" " fig" reversed_perm).
Defined.

Lemma answers_ignore_token_order_witness :
  Permutation (tokens_since_reset [AddWords "fig, apple"])
    (tokens_since_reset [AddWords "apple"; AddWords "fig"])
  /\ get_top_five_most_frequent (run reversed [AddWords "fig, apple"])
     = get_top_five_most_frequent
         (run reversed [AddWords "apple"; AddWords "fig"]).
Proof.
  assert (P : Permutation (tokens_since_reset [AddWords "fig, apple"])
                (tokens_since_reset [AddWords "apple"; AddWords "fig"])).
  { change (Permutation ["fig"; "apple"] ["apple"; "fig"]). apply perm_swap. }
  split; [exact P|].
  exact (proj1 (answers_ignore_token_order reversed
                  [AddWords "fig, apple"] [AddWords "apple"; AddWords "fig"]
                  reversed_perm P)).
Defined.

Lemma top_entry_matches_histogram_head_witness :
  let self := run reversed [AddWords batch1; AddWords batch3] in
  match get_top_five_most_frequent self, get_frequency_counts self with
  | [], [] => word_counts self = []
  | (w, f) :: _, (fq, _) :: _ =>
      f = fq /\ forall e, In e (word_counts self) -> snd e <= f
  | _, _ => False
  end.
Proof.
  exact (top_entry_matches_histogram_head reversed
           [AddWords batch1; AddWords batch3] reversed_perm).
Defined.

Lemma keys_are_normalized_witness :
  In ("new york", 2)
    (get_all_frequencies
       (run in_order [AddWords " New York ,fig"; AddWords "new york"]))
  /\ Str.strip "new york" = "new york"
  /\ tokens "new york" = ["new york"].
Proof.
  assert (I : In ("new york", 2)
                (get_all_frequencies
                   (run in_order
                      [AddWords " New York ,fig"; AddWords "new york"])))
    by (left; reflexivity).
  split; [exact I|].
  pose proof (keys_are_normalized in_order
                [AddWords " New York ,fig"; AddWords "new york"]
                "new york" 2 I) as H.
  split; [exact (proj1 (proj2 (proj2 H)))|].
  exact (proj2 (proj2 (proj2 (proj2 (proj2 H))))).
Defined.

Lemma insert_frequency_node_places_node_witness :
  StronglySorted (fun a b => frequency a >= frequency b)
    [mkNode 3 1; mkNode 1 2]
  /\ StronglySorted (fun a b => frequency a >= frequency b)
       (_insert_frequency_node 2 1 [mkNode 3 1; mkNode 1 2]).
Proof.
  assert (S : StronglySorted (fun a b => frequency a >= frequency b)
                [mkNode 3 1; mkNode 1 2]).
  { repeat constructor; simpl; lia. }
  split; [exact S|].
  exact (proj2 (insert_frequency_node_places_node 2 1
                  [mkNode 3 1; mkNode 1 2]) S).
Defined.

Lemma insert_find_remove_round_trip_witness :
  (forall n, In n [mkNode 3 1; mkNode 1 2] -> frequency n <> 2)
  /\ exists i,
       _find_frequency_node 2
         (_insert_frequency_node 2 1 [mkNode 3 1; mkNode 1 2]) = Some i
       /\ nth_error (_insert_frequency_node 2 1 [mkNode 3 1; mkNode 1 2]) i
          = Some (mkNode 2 1)
       /\ _remove_frequency_node i
            (_insert_frequency_node 2 1 [mkNode 3 1; mkNode 1 2])
          = [mkNode 3 1; mkNode 1 2].
Proof.
  assert (H : forall n, In n [mkNode 3 1; mkNode 1 2] -> frequency n <> 2).
  { intros n [E|[E|[]]]; subst n; simpl; lia. }
  split; [exact H|].
  exact (insert_find_remove_round_trip 2 1 [mkNode 3 1; mkNode 1 2] H).
Defined.

Lemma update_never_leaves_empty_bucket_witness :
  positive_counts [mkNode 3 1; mkNode 1 2]
  /\ positive_counts
       (update_frequency_count [mkNode 3 1; mkNode 1 2] (3, -1)).
Proof.
  assert (H : positive_counts [mkNode 3 1; mkNode 1 2]).
  { intros n [E|[E|[]]]; subst n; simpl; lia. }
  split; [exact H|].
  exact (proj1 (update_never_leaves_empty_bucket [mkNode 3 1; mkNode 1 2]
                  3 (-1)) H).
Defined.

Lemma insert_or_update_in_top5_result_witness :
  (List.length [("a", 3); ("b", 3); ("c", 2); ("d", 2); ("f", 1)] <= 5)%nat
  /\ _should_be_in_top5 "e" 1
       [("a", 3); ("b", 3); ("c", 2); ("d", 2); ("f", 1)] = true
  /\ In ("e", 1)
       (_insert_or_update_in_top5 "e" 1
          [("a", 3); ("b", 3); ("c", 2); ("d", 2); ("f", 1)]).
Proof.
  split; [simpl; lia|]. split; [reflexivity|].
  refine (proj2 (proj2 (proj2 (proj2
            (insert_or_update_in_top5_result "e" 1
               [("a", 3); ("b", 3); ("c", 2); ("d", 2); ("f", 1)])))) _ _).
  - simpl; lia.
  - reflexivity.
Defined.


Lemma joined_batch_reads_back_witness :
  (forall w, In w ["Apple"; " fig "; "New York"] ->
     no_comma w = true /\ Str.truthy (Str.strip w) = true)
  /\ tokens (join_words ["Apple"; " fig "; "New York"])
     = map (fun w => Str.lower (Str.strip w))
         ["Apple"; " fig "; "New York"].
Proof.
  assert (H : forall w, In w ["Apple"; " fig "; "New York"] ->
                no_comma w = true /\ Str.truthy (Str.strip w) = true).
  { intros w [E|[E|[E|[]]]]; subst w; split; reflexivity. }
  split; [exact H|].
  exact (joined_batch_reads_back ["Apple"; " fig "; "New York"] H).
Defined.

Lemma stored_add_words_refines_witness :
  represents stored_init init
  /\ exists st',
       stored_add_words in_order batch1 stored_init = Some st'
       /\ stored_top_five st'
          = Some (get_top_five_most_frequent (add_words in_order batch1 init)).
Proof.
  assert (R : represents stored_init init).
  { constructor; cbn; try reflexivity; exists []; apply linked_empty. }
  split; [exact R|].
  destruct (stored_add_words_refines in_order batch1 stored_init init R)
    as [st' [E [_ [T _]]]].
  exists st'. split; [exact E|exact T].
Defined.

Local Close Scope string_scope.

Lemma two_nodes_linked :
  Ptr.linked two_nodes [0%nat; 1%nat] [mkNode 3 1; mkNode 1 2].
Proof.
  constructor.
  - repeat constructor; simpl; intuition lia.
  - reflexivity.
  - reflexivity.
  - simpl. repeat split.
Qed.

Lemma store_find_matches_list_witness :
  Ptr.linked two_nodes [0%nat; 1%nat] [mkNode 3 1; mkNode 1 2]
  /\ (List.length [0%nat; 1%nat] <= 2)%nat
  /\ exists node c,
       Ptr.find_node 2 (Ptr.cells two_nodes) (Ptr.head two_nodes) 1
       = Some (Some node)
       /\ nth_error [0%nat; 1%nat] 1 = Some node
       /\ nth_error (Ptr.cells two_nodes) node = Some c
       /\ nth_error [mkNode 3 1; mkNode 1 2] 1 = Some (Ptr.payload c)
       /\ frequency (Ptr.payload c) = 1.
Proof.
  split; [exact two_nodes_linked|]. split; [simpl; lia|].
  exact (store_find_matches_list two_nodes [0%nat; 1%nat]
           [mkNode 3 1; mkNode 1 2] 1 2 two_nodes_linked (le_n 2)).
Defined.

Lemma store_insert_matches_list_witness :
  Ptr.linked two_nodes [0%nat; 1%nat] [mkNode 3 1; mkNode 1 2]
  /\ exists l',
       Ptr.insert_node 2 two_nodes 2 1 = Some l'
       /\ Ptr.walk 3 (Ptr.cells l') (Ptr.head l')
          = Some [mkNode 3 1; mkNode 2 1; mkNode 1 2].
Proof.
  split; [exact two_nodes_linked|].
  destruct (store_insert_matches_list two_nodes [0%nat; 1%nat]
              [mkNode 3 1; mkNode 1 2] 2 1 two_nodes_linked)
    as [l' [addrs' [E [_ [Ln [_ [W _]]]]]]].
  exists l'. split; [exact E|]. rewrite Ln in W. exact W.
Defined.

Lemma store_remove_matches_list_witness :
  Ptr.linked two_nodes [0%nat; 1%nat] [mkNode 3 1; mkNode 1 2]
  /\ nth_error [0%nat; 1%nat] 0 = Some 0%nat
  /\ exists l',
       Ptr.remove_node two_nodes 0 = Some l'
       /\ Ptr.linked l' [1%nat] [mkNode 1 2]
       /\ Ptr.head l' = Some 1%nat.
Proof.
  split; [exact two_nodes_linked|]. split; [reflexivity|].
  destruct (store_remove_matches_list two_nodes [0%nat; 1%nat]
              [mkNode 3 1; mkNode 1 2] 0 0 two_nodes_linked eq_refl)
    as [l' [E [L [_ [H _]]]]].
  exists l'. split; [exact E|]. split; [exact L|exact H].
Defined.
